(** * procspy: the /proc-based socket-owner scan of probe/endpoint/procspy/proc_linux.go

    A shallow embedding of [getNetNamespacePathSuffix], [readFile],
    [readProcessConnections], [walkNamespacePid] and [walkProcPid], followed by
    the properties of the scan.

    The Go code talks to the kernel (uname, open/read, readdir, stat), blocks on
    a ticker channel and mutates a [bytes.Buffer], a package-level string and a
    map.  The embedding is a state monad over the mutable data, and every
    interaction with the outside is logged in a trace.  The answers of the
    outside are given by a [World] that is indexed by logical time (the number
    of events logged so far), so a file may change between two reads just as
    /proc does.

    Conventions:
    - a receive on the ticker is an event; it always returns (a ticker that
      never fires would block the scan for ever, which is not modelled);
    - [process.Walker] is given by the list of processes it passes to the
      callback, and the order of a [range] over the Go map of namespaces by a
      function that lists the entries of the map;
    - the result map [map[uint64]*Proc] is a [gmap Z Proc]: the owner records
      are never mutated, so the sharing of one record by several keys cannot be
      observed;
    - go-version is part of the world: its parser and its order are not fixed,
      but the parser accepts the literal ["3.8"] of line 63;
    - [filepath.Join] and [filepath.Clean] are those of Linux, and the gauge is
      the [float32] of the number of groups, rounded to 24 bits as Go does. *)

From Stdlib Require Import ZArith Lia Ascii DecimalString.
From Stdlib.Strings Require Import Byte.
From stdpp Require Import base option list strings gmap fin_maps.

Local Open Scope Z_scope.

(** ** Go data *)

(** A non-nil Go [error], identified by its message; the Go [error] interface
    value is an [option error], [None] being [nil]. *)
Definition error := string.

(** The test [err != nil]. *)
Definition not_nil (err : option error) : bool :=
  match err with Some _ => true | None => false end.

(** [process.Process]: the two fields the scan reads. *)
Record Process := { PID : Z; Name : string }.

(** [procspy.Proc]: the owner record stored in the result. [PID] is a [uint]. *)
Record Proc := { ProcPID : Z; ProcName : string }.

(** [syscall.Stat_t]: the two fields the scan reads ([Ino uint64], [Mode uint32]). *)
Record Stat_t := { Ino : Z; Mode : Z }.

#[global] Instance Process_eq_dec : EqDecision Process.
Proof. solve_decision. Defined.
#[global] Instance Proc_eq_dec : EqDecision Proc.
Proof. solve_decision. Defined.
#[global] Instance Stat_t_eq_dec : EqDecision Stat_t.
Proof. solve_decision. Defined.

(** [syscall.S_IFMT] and [syscall.S_IFSOCK] on Linux. *)
Definition S_IFMT : Z := 0xf000.
Definition S_IFSOCK : Z := 0xc000.

(** Go's [int] and [int64] are 64-bit two's complement. *)
Definition max_int : Z := 2 ^ 63 - 1.
Definition wrap_int (z : Z) : Z := (z + 2 ^ 63) mod 2 ^ 64 - 2 ^ 63.
(** The conversion [uint(x)] of an [int]. *)
Definition uint_of_int (z : Z) : Z := z mod 2 ^ 64.

(** The conversion [float32(x)] of a non-negative [int]: [x] itself while it
    fits the 24 bits of the significand, and else the nearest multiple of the
    unit in the last place, a tie going to the even significand.  The result is
    a whole number, far below the largest [float32]. *)
Definition float32 (z : Z) : Z :=
  if z <? 2 ^ 24 then z
  else
    let ulp := 2 ^ (Z.log2 z - 23) in
    let q := z / ulp in
    let r := z mod ulp in
    if 2 * r <? ulp then q * ulp
    else if ulp <? 2 * r then (q + 1) * ulp
    else if Z.even q then q * ulp else (q + 1) * ulp.
(** [float32(len(m))]. *)
Definition float32_of_len (n : nat) : nat := Z.to_nat (float32 (Z.of_nat n)).

(** [strconv.Itoa]. *)
Definition Itoa (z : Z) : string := NilZero.string_of_int (Z.to_int z).

(** [path/filepath] on Linux.  [filepath.Clean] goes through the elements of
    a path, the pieces between its slashes, and keeps a stack of the elements
    of the result, [out], the last one first: an empty element and [.] are
    dropped; [..] removes the element before it, unless there is none or it is
    a [..] itself, and then [..] is kept when the path is relative and dropped
    when it is rooted; any other element is kept.  The result is the elements
    kept, separated by one slash, after a slash when the path is rooted; the
    empty result is [.]. *)
Fixpoint path_elements (path : string) : list string :=
  match path with
  | EmptyString => [EmptyString]
  | String c rest =>
      if Ascii.eqb c "/" then EmptyString :: path_elements rest
      else match path_elements rest with
           | e :: es => String c e :: es
           | [] => [String c EmptyString]
           end
  end.
Definition rooted (path : string) : bool :=
  match path with
  | String c _ => Ascii.eqb c "/"
  | EmptyString => false
  end.
Definition clean_element (is_rooted : bool) (out : list string) (e : string)
    : list string :=
  if String.eqb e EmptyString then out
  else if String.eqb e "." then out
  else if String.eqb e ".." then
    match out with
    | top :: below =>
        if negb (String.eqb top "..") then below
        else if is_rooted then out else e :: out
    | [] => if is_rooted then out else e :: out
    end
  else e :: out.
Definition cleaned (is_rooted : bool) (out : list string) : string :=
  if is_rooted then "/" +:+ String.concat "/" out
  else match out with
       | [] => "."
       | _ => String.concat "/" out
       end.
Definition Clean (path : string) : string :=
  if String.eqb path EmptyString then "."
  else cleaned (rooted path)
         (reverse (foldl (clean_element (rooted path)) [] (path_elements path))).
(** [filepath.Join]: the elements from the first one that is not empty on are
    joined by slashes and the result is cleaned; with no such element the
    result is the empty string. *)
Fixpoint Join (elem : list string) : string :=
  match elem with
  | [] => EmptyString
  | e :: rest =>
      if String.eqb e EmptyString then Join rest
      else Clean (String.concat "/" elem)
  end.

(** ** The outside world *)

(** What opening and reading a file to its end gives: [fs.Open] fails, or
    [bytes.Buffer.ReadFrom] appends [data] to the buffer and returns its length
    with the error that ended the read ([None] at end of file). *)
Inductive file_result :=
| OpenFails (e : error)
| ReadsData (data : list byte) (e : option error).

(** The site of a receive on the ticker channel: line 205 ([walkProcPid], once
    per group) or line 125 ([walkNamespacePid], the rate-limit pause). *)
Inductive TickSite := GroupStart | RateLimit.

(** One entry of the trace.  [EvReadConnections] is not an interaction: it
    marks an invocation of [readProcessConnections].  [EvSetGauge] carries the
    [float32] passed to [metrics.SetGauge], a whole number. *)
Inductive Event :=
| EvUname
| EvLogError (msg : string)
| EvTick (site : TickSite)
| EvReadConnections
| EvReadFile (filename : string)
| EvReadDirNames (dir : string)
| EvStat (path : string)
| EvSetGauge (n : nat).

#[global] Instance TickSite_eq_dec : EqDecision TickSite.
Proof. solve_decision. Defined.
#[global] Instance Event_eq_dec : EqDecision Event.
Proof. solve_decision. Defined.

(** The kernel and the go-version library.  The calls answer by logical time.
    [Version], [LessThan] and [NewVersion] stand for [*version.Version], its
    method [LessThan] and the parser [version.NewVersion], which the program
    applies to the release string of [uname] and to the literal ["3.8"].  Line
    63 drops the error of [version.NewVersion("3.8")] and line 64 uses the
    version: a world comes with the version this literal parses to. *)
Record World := {
  Version : Type;
  LessThan : Version → Version → bool;
  NewVersion : string → error + Version;
  NewVersion_3_8 : { v : Version | NewVersion "3.8"%string = inr v };
  Uname : nat → error + string;
  OpenRead : nat → string → file_result;
  ReadDirNames : nat → string → error + list string;
  Stat : nat → string → error + Stat_t;
}.

(** The value [v] of [v, _ := f()] for a call that succeeds. *)
Definition value_of {A : Type} (r : error + A) (ok : { v | r = inr v }) : A :=
  proj1_sig ok.

(** [v38, _ := version.NewVersion("3.8")], line 63. *)
Definition v38 (w : World) : Version w :=
  value_of (NewVersion w "3.8") (NewVersion_3_8 w).

(** ** Mutable state and the monad *)

(** [buf] is the [*bytes.Buffer] handed to [walkProcPid];
    [netNamespacePathSuffix] and [procRoot] are the package variables; [trace]
    holds the events so far, the latest first. *)
Record State := {
  buf : list byte;
  netNamespacePathSuffix : string;
  procRoot : string;
  trace : list Event;
}.

Definition now (s : State) : nat := length (trace s).

Definition M (A : Type) : Type := State → A * State.

#[global] Instance M_ret : MRet M := λ A a s, (a, s).
#[global] Instance M_bind : MBind M := λ A B k m s, let '(a, s') := m s in k a s'.

Definition emit (e : Event) : M unit := λ s,
  (tt, {| buf := buf s; netNamespacePathSuffix := netNamespacePathSuffix s;
          procRoot := procRoot s; trace := e :: trace s |}).

Definition get_now : M nat := λ s, (now s, s).
Definition get_procRoot : M string := λ s, (procRoot s, s).
Definition get_suffix : M string := λ s, (netNamespacePathSuffix s, s).

Definition set_suffix (x : string) : M unit := λ s,
  (tt, {| buf := buf s; netNamespacePathSuffix := x;
          procRoot := procRoot s; trace := trace s |}).

Definition buf_append (data : list byte) : M unit := λ s,
  (tt, {| buf := buf s ++ data; netNamespacePathSuffix := netNamespacePathSuffix s;
          procRoot := procRoot s; trace := trace s |}).

(** [SetProcRoot]. *)
Definition SetProcRoot (root : string) : M unit := λ s,
  (tt, {| buf := buf s; netNamespacePathSuffix := netNamespacePathSuffix s;
          procRoot := root; trace := trace s |}).

(** A call to the outside: the answer is the world's at the current time, and
    the call is logged. *)
Definition syscall {A} (e : Event) (answer : nat → A) : M A :=
  t ← get_now; emit e;; mret (answer t).

(** ** The program *)

Section Program.
Context (w : World).

(** [getKernelVersion]: uname, then the parse of the release string. *)
Definition getKernelVersion : M (error + Version w) :=
  u ← syscall EvUname (Uname w);
  match u with
  | inl err => mret (inl err)
  | inr release => mret (NewVersion w release)
  end.

Definition post38Path : string := "ns/net".
Definition pre38Path : string := "net/dev".

(** [getNetNamespacePathSuffix]. *)
Definition getNetNamespacePathSuffix : M string :=
  memo ← get_suffix;
  if negb (String.eqb memo EmptyString) then mret memo
  else
    v ← getKernelVersion;
    match v with
    | inl err =>
        emit (EvLogError err);; set_suffix post38Path;; get_suffix
    | inr v =>
        let v38 := value_of (NewVersion w "3.8") (NewVersion_3_8 w) in
        (if LessThan w v v38 then set_suffix pre38Path
         else set_suffix post38Path);;
        get_suffix
    end.

(** [readFile]: the byte count ([-1] when the open fails) and the error. *)
Definition readFile (filename : string) : M (Z * option error) :=
  r ← syscall (EvReadFile filename) (λ t, OpenRead w t filename);
  match r with
  | OpenFails e => mret (-1, Some e)
  | ReadsData data e => buf_append data;; mret (Z.of_nat (length data), e)
  end.

(** The loop of [readProcessConnections]; [errRead] and [errRead6] are the
    function's variables of that name, which survive the loop. *)
Fixpoint readLoop (namespaceProcs : list Process) (errRead errRead6 : option error)
  : M (bool * option error) :=
  match namespaceProcs with
  | [] =>
      match errRead, errRead6 with
      | Some e, _ => mret (false, Some e)
      | None, Some e6 => mret (false, Some e6)
      | None, None => mret (false, None)
      end
  | p :: rest =>
      root ← get_procRoot;
      let dirName := Itoa (PID p) in
      '(read, errRead) ← readFile (Join [root; dirName; "/net/tcp"]);
      '(read6, errRead6) ← readFile (Join [root; dirName; "/net/tcp6"]);
      if not_nil errRead || not_nil errRead6
      then readLoop rest errRead errRead6
      else mret (0 <? wrap_int (read + read6), None)
  end.

(** [readProcessConnections]. *)
Definition readProcessConnections (namespaceProcs : list Process)
  : M (bool * option error) :=
  emit EvReadConnections;; readLoop namespaceProcs None None.

(** The inner loop of [walkNamespacePid] over the descriptors of [p].
    [proc] is the lazily made owner record. *)
Fixpoint fdLoop (p : Process) (fdBase : string) (fds : list string)
    (proc : option Proc) (sockets : gmap Z Proc) (fdBlockCount : Z)
  : M (gmap Z Proc * Z) :=
  match fds with
  | [] => mret (sockets, fdBlockCount)
  | fd :: fds' =>
      let fdBlockCount := wrap_int (fdBlockCount + 1) in
      r ← syscall (EvStat (Join [fdBase; fd])) (λ t, Stat w t (Join [fdBase; fd]));
      match r with
      | inl _ => fdLoop p fdBase fds' proc sockets fdBlockCount
      | inr statT =>
          if negb (Z.land (Mode statT) S_IFMT =? S_IFSOCK)
          then fdLoop p fdBase fds' proc sockets fdBlockCount
          else
            let proc' :=
              match proc with
              | None => {| ProcPID := uint_of_int (PID p); ProcName := Name p |}
              | Some pr => pr
              end in
            fdLoop p fdBase fds' (Some proc') (<[Ino statT := proc']> sockets)
                   fdBlockCount
      end
  end.

(** The outer loop of [walkNamespacePid]; the list is [namespaceProcs[i:]]. *)
Fixpoint walkLoop (fdBlockSize : Z) (namespaceProcs : list Process)
    (sockets : gmap Z Proc) (fdBlockCount : Z)
  : M (option error * gmap Z Proc) :=
  match namespaceProcs with
  | [] => mret (None, sockets)
  | p :: rest =>
      root ← get_procRoot;
      let fdBase := Join [root; Itoa (PID p); "fd"] in
      let walkFds (fdBlockCount : Z) : M (option error * gmap Z Proc) :=
        fds ← syscall (EvReadDirNames fdBase) (λ t, ReadDirNames w t fdBase);
        match fds with
        | inl _ => walkLoop fdBlockSize rest sockets fdBlockCount
        | inr fds =>
            '(sockets', fdBlockCount') ← fdLoop p fdBase fds None sockets fdBlockCount;
            walkLoop fdBlockSize rest sockets' fdBlockCount'
        end in
      if fdBlockSize <? fdBlockCount then
        emit (EvTick RateLimit);;
        '(found, err) ← readProcessConnections (p :: rest);
        if not_nil err || negb found then mret (err, sockets)
        else walkFds 0
      else walkFds fdBlockCount
  end.

(** [walkNamespacePid]: the error, and the map [sockets] as it is left. *)
Definition walkNamespacePid (sockets : gmap Z Proc) (namespaceProcs : list Process)
    (fdBlockSize : Z) : M (option error * gmap Z Proc) :=
  '(found, err) ← readProcessConnections namespaceProcs;
  if not_nil err || negb found then mret (err, sockets)
  else walkLoop fdBlockSize namespaceProcs sockets 0.

(** The first traversal of [walkProcPid]: the callback handed to
    [walker.Walk], run on the processes the walker yields. *)
Fixpoint groupLoop (walked : list Process) (namespaces : gmap Z (list Process))
  : M (gmap Z (list Process)) :=
  match walked with
  | [] => mret namespaces
  | p :: rest =>
      root ← get_procRoot;
      suffix ← getNetNamespacePathSuffix;
      let netNamespacePath := Join [root; Itoa (PID p); suffix] in
      r ← syscall (EvStat netNamespacePath) (λ t, Stat w t netNamespacePath);
      match r with
      | inl _ => groupLoop rest namespaces
      | inr statT =>
          let namespaceID := Ino statT in
          groupLoop rest
            (<[namespaceID := default [] (namespaces !! namespaceID) ++ [p]]> namespaces)
      end
  end.

(** The second loop of [walkProcPid], over the groups in the order the
    [range] visits them.  The error of [walkNamespacePid] is dropped. *)
Fixpoint rangeLoop (fdBlockSize : Z) (groups : list (list Process))
    (sockets : gmap Z Proc) : M (gmap Z Proc) :=
  match groups with
  | [] => mret sockets
  | procs :: groups' =>
      emit (EvTick GroupStart);;
      '(_, sockets') ← walkNamespacePid sockets procs fdBlockSize;
      rangeLoop fdBlockSize groups' sockets'
  end.

(** [walkProcPid].  [walked] is the sequence of processes [walker.Walk]
    passes to its callback.  Go leaves the order of a [range] over a map
    unspecified: [range] is the order chosen at run time. *)
Definition walkProcPid (walked : list Process)
    (range : gmap Z (list Process) → list (Z * list Process))
    (fdBlockSize : Z) : M (gmap Z Proc * option error) :=
  namespaces ← groupLoop walked ∅;
  sockets ← rangeLoop fdBlockSize ((range namespaces).*2) ∅;
  emit (EvSetGauge (float32_of_len (size namespaces)));;
  mret (sockets, None).

End Program.

(** A [range] is one of Go's when it visits every entry of the map once. *)
Definition go_range (range : gmap Z (list Process) → list (Z * list Process)) : Prop :=
  ∀ m, range m ≡ₚ map_to_list m.

Arguments Join : simpl never.
Arguments Itoa : simpl never.
Arguments wrap_int : simpl never.
Arguments uint_of_int : simpl never.

(** ** Vocabulary of the properties *)

(** The number of events of a kind in a trace. *)
Fixpoint count (f : Event → bool) (tr : list Event) : Z :=
  match tr with
  | [] => 0
  | e :: tr' => (if f e then 1 else 0) + count f tr'
  end.

Definition is_pause (e : Event) : bool :=
  match e with EvTick RateLimit => true | _ => false end.
Definition is_group_tick (e : Event) : bool :=
  match e with EvTick GroupStart => true | _ => false end.
Definition is_tick (e : Event) : bool :=
  match e with EvTick _ => true | _ => false end.
Definition is_read_connections (e : Event) : bool :=
  match e with EvReadConnections => true | _ => false end.
Definition is_read_file (e : Event) : bool :=
  match e with EvReadFile _ => true | _ => false end.
Definition is_stat (e : Event) : bool :=
  match e with EvStat _ => true | _ => false end.
Definition is_fd_access (e : Event) : bool :=
  match e with EvReadDirNames _ | EvStat _ => true | _ => false end.

(** The state after one more event. *)
Definition logged (e : Event) (s : State) : State := (emit e s).2.

(** The paths of a process. *)
Definition tcpPath (root : string) (p : Process) : string :=
  Join [root; Itoa (PID p); "/net/tcp"].
Definition tcp6Path (root : string) (p : Process) : string :=
  Join [root; Itoa (PID p); "/net/tcp6"].
Definition fdBaseOf (root : string) (p : Process) : string :=
  Join [root; Itoa (PID p); "fd"].

(** The two results of [readFile] on an answer of the world. *)
Definition read_count (r : file_result) : Z :=
  match r with OpenFails _ => -1 | ReadsData d _ => Z.of_nat (length d) end.
Definition read_error (r : file_result) : option error :=
  match r with OpenFails e => Some e | ReadsData _ e => e end.
Definition read_data (r : file_result) : list byte :=
  match r with OpenFails _ => [] | ReadsData d _ => d end.

(** The state after [readFile filename]. *)
Definition after_read (w : World) (filename : string) (s : State) : State :=
  {| buf := buf s ++ read_data (OpenRead w (now s) filename);
     netNamespacePathSuffix := netNamespacePathSuffix s;
     procRoot := procRoot s;
     trace := EvReadFile filename :: trace s |}.

(** One iteration of the loop of [readProcessConnections] on member [p] at
    time [t]: the two errors, whether the member is given up, and the state
    after its two reads. *)
Definition member_errors (w : World) (t : nat) (root : string) (p : Process)
  : option error * option error :=
  (read_error (OpenRead w t (tcpPath root p)),
   read_error (OpenRead w (S t) (tcp6Path root p))).
Definition member_fails (w : World) (t : nat) (root : string) (p : Process) : bool :=
  not_nil (member_errors w t root p).1 || not_nil (member_errors w t root p).2.
Definition member_bytes (w : World) (t : nat) (root : string) (p : Process) : Z :=
  wrap_int (read_count (OpenRead w t (tcpPath root p))
            + read_count (OpenRead w (S t) (tcp6Path root p))).
Definition after_member (w : World) (p : Process) (s : State) : State :=
  after_read w (tcp6Path (procRoot s) p) (after_read w (tcpPath (procRoot s) p) s).

(** What the tail of [readProcessConnections] returns for the two errors the
    loop left: the first that is not nil. *)
Definition first_error (errRead errRead6 : option error) : option error :=
  match errRead with Some e => Some e | None => errRead6 end.

(** The file-type test of [walkNamespacePid] and the owner record it makes. *)
Definition is_socket (statT : Stat_t) : bool := Z.land (Mode statT) S_IFMT =? S_IFSOCK.
Definition owner_of (p : Process) : Proc :=
  {| ProcPID := uint_of_int (PID p); ProcName := Name p |}.

(** The outcome of kernel-version detection at time [t]. *)
Definition detected (w : World) (t : nat) : error + Version w :=
  match Uname w t with
  | inl err => inl err
  | inr release => NewVersion w release
  end.

(** An iteration of the outer loop of [walkNamespacePid] after its rate-limit
    check: the descriptors of [p], then the rest of the group. *)
Definition walk_fds (w : World) (fdBlockSize : Z) (p : Process) (rest : list Process)
    (sockets : gmap Z Proc) (fdBlockCount : Z) (s : State)
  : option error * gmap Z Proc * State :=
  let fdBase := fdBaseOf (procRoot s) p in
  let s1 := logged (EvReadDirNames fdBase) s in
  match ReadDirNames w (now s) fdBase with
  | inl _ => walkLoop w fdBlockSize rest sockets fdBlockCount s1
  | inr fds =>
      let r := fdLoop w p fdBase fds None sockets fdBlockCount s1 in
      walkLoop w fdBlockSize rest r.1.1 r.1.2 r.2
  end.

(** One iteration of the loop of [walkNamespacePid] (lines 117 to 168) that
    goes on to the next: for the process [p], first of [namespaceProcs[i:]],
    from the map [sockets], the counter [fdBlockCount] and the state [s], the
    map, the counter and the state at the head of the next iteration.  There is
    none when the iteration returns from the walk (line 131). *)
Definition iteration (w : World) (fdBlockSize : Z) (p : Process) (rest : list Process)
    (sockets : gmap Z Proc) (fdBlockCount : Z) (s : State)
  : option (gmap Z Proc * Z * State) :=
  let descriptors (fdBlockCount : Z) (s : State) :=
    let fdBase := fdBaseOf (procRoot s) p in
    let s1 := logged (EvReadDirNames fdBase) s in
    match ReadDirNames w (now s) fdBase with
    | inl _ => (sockets, fdBlockCount, s1)
    | inr fds => fdLoop w p fdBase fds None sockets fdBlockCount s1
    end in
  if fdBlockSize <? fdBlockCount then
    let r := readProcessConnections w (p :: rest) (logged (EvTick RateLimit) s) in
    if not_nil r.1.2 || negb r.1.1 then None
    else Some (descriptors 0 r.2)
  else Some (descriptors fdBlockCount s).

(** The heads of the iterations of a walk: the processes that remain, the
    map, the counter and the state.  A walk at the head [h] arrives at the head
    [h'] after some iterations, none of which returns. *)
Inductive arrives (w : World) (fdBlockSize : Z) :
    list Process * gmap Z Proc * Z * State →
    list Process * gmap Z Proc * Z * State → Prop :=
| arrives_here h : arrives w fdBlockSize h h
| arrives_next p rest sockets c s next h :
    iteration w fdBlockSize p rest sockets c s = Some next →
    arrives w fdBlockSize (rest, next.1.1, next.1.2, next.2) h →
    arrives w fdBlockSize (p :: rest, sockets, c, s) h.

(** The suffix [getNetNamespacePathSuffix] chooses when it probes the kernel
    at time [t], and the state it leaves. *)
Definition resolve (w : World) (t : nat) : string :=
  match detected w t with
  | inl _ => post38Path
  | inr v => if LessThan w v (v38 w) then pre38Path else post38Path
  end.
Definition after_probe (w : World) (s : State) : State :=
  {| buf := buf s;
     netNamespacePathSuffix := resolve w (now s);
     procRoot := procRoot s;
     trace := match detected w (now s) with
              | inl err => [EvLogError err; EvUname]
              | inr _ => [EvUname]
              end ++ trace s |}.

(** A kind of event that the walk of a group never logs. *)
Definition outside_walk (f : Event → bool) : Prop :=
  f (EvTick RateLimit) = false ∧ f EvReadConnections = false
  ∧ (∀ x, f (EvReadFile x) = false) ∧ (∀ x, f (EvReadDirNames x) = false)
  ∧ (∀ x, f (EvStat x) = false).

(** The claims on the rate limit and on the number of table reads, as the
    specification words them, for one walk and for one scan. *)
Definition examined_during (s s' : State) : Z :=
  count is_stat (trace s') - count is_stat (trace s).
Definition pauses_during (s s' : State) : Z :=
  count is_pause (trace s') - count is_pause (trace s).
Definition table_reads_during (s s' : State) : Z :=
  count is_read_connections (trace s') - count is_read_connections (trace s).
Definition group_ticks_during (s s' : State) : Z :=
  count is_group_tick (trace s') - count is_group_tick (trace s).

Definition pauses_at_least_ceil (w : World) (K : Z) (procs : list Process)
    (sockets : gmap Z Proc) (s : State) : Prop :=
  let s' := (walkNamespacePid w sockets procs K s).2 in
  K < examined_during s s' →
  (examined_during s s' + K - 1) / K - 1 ≤ pauses_during s s'.

Definition one_read_per_group (w : World) (walked : list Process)
    (range : gmap Z (list Process) → list (Z * list Process)) (K : Z) (s : State)
  : Prop :=
  table_reads_during s (walkProcPid w walked range K s).2
  ≤ Z.of_nat (size (groupLoop w walked ∅ s).1).

(** The elementary changes of the state: an event other than a file read is
    logged, a file is read into the buffer, and, in the resolver only, the
    memoized suffix is set. *)
Inductive step (w : World) (resolver : bool) : State → State → Prop :=
| step_log e s : is_read_file e = false → step w resolver s (logged e s)
| step_read f s : step w resolver s (after_read w f s)
| step_memo x s : resolver = true → step w resolver s (set_suffix x s).2.

(** The bytes the reads logged in a trace appended to the buffer, in the order
    of the reads.  The read logged on top of [older] happened at time
    [length older]. *)
Fixpoint bytes_read (w : World) (tr : list Event) : list byte :=
  match tr with
  | [] => []
  | e :: older =>
      bytes_read w older
      ++ match e with
         | EvReadFile f => read_data (OpenRead w (length older) f)
         | _ => []
         end
  end.

(** The buffer holds [b0] followed by everything read so far. *)
Definition buffer_logged (w : World) (b0 : list byte) (s : State) : Prop :=
  buf s = b0 ++ bytes_read w (trace s).

(** The claim that the buffer is cleared between two groups: when the walk of
    group [g] is over, and the next group is about to be read, the buffer holds
    no byte that the walk of [g] put there. *)
Definition cleared_after_group (w : World) (K : Z) (g : list Process)
    (sockets : gmap Z Proc) (s : State) : Prop :=
  buf (rangeLoop w K [g] sockets s).2 = buf s.

(** A socket descriptor of [p] was seen: its directory was listed, and a later
    stat of one of the entries gave the file type socket and inode [ino]. *)
Definition observed_socket (w : World) (root : string) (p : Process) (ino : Z) : Prop :=
  ∃ t0 fds fd t statT,
    ReadDirNames w t0 (fdBaseOf root p) = inr fds ∧ fd ∈ fds ∧ (t0 < t)%nat
    ∧ Stat w t (Join [fdBaseOf root p; fd]) = inr statT
    ∧ Z.land (Mode statT) S_IFMT = S_IFSOCK ∧ Ino statT = ino.

(** A read of the tables of group [g] reported connections. *)
Definition read_non_empty (w : World) (root : string) (g : list Process) : Prop :=
  ∃ s, procRoot s = root ∧ (readProcessConnections w g s).1 = (true, None).

(** The entry [ino ↦ owner] is accounted for by a process of one of the groups. *)
Definition attributed (w : World) (root : string) (groups : list (list Process))
    (ino : Z) (owner : Proc) : Prop :=
  ∃ g p, g ∈ groups ∧ p ∈ g ∧ owner = owner_of p
         ∧ read_non_empty w root g ∧ observed_socket w root p ino.

(** A world that does not change: every call answers the same at all times. *)
Definition static (w : World) : Prop :=
  ∀ t t', Uname w t = Uname w t'
          ∧ (∀ x, OpenRead w t x = OpenRead w t' x)
          ∧ (∀ x, ReadDirNames w t x = ReadDirNames w t' x)
          ∧ (∀ x, Stat w t x = Stat w t' x).

(** The suffix the next call of [getNetNamespacePathSuffix] returns in a
    static world. *)
Definition effective_suffix (w : World) (s : State) : string :=
  if String.eqb (netNamespacePathSuffix s) EmptyString then resolve w 0
  else netNamespacePathSuffix s.

(** The map the walk of a group builds on its own. *)
Definition fresh (root : string) : State :=
  {| buf := []; netNamespacePathSuffix := EmptyString; procRoot := root; trace := [] |}.
Definition group_sockets (w : World) (root : string) (K : Z) (g : list Process)
  : gmap Z Proc :=
  (walkNamespacePid w ∅ g K (fresh root)).1.2.

(** No inode is recorded by the walks of two different groups. *)
Definition groups_disjoint (w : World) (root : string) (K : Z)
    (groups : list (list Process)) : Prop :=
  ∀ g1 g2, g1 ∈ groups → g2 ∈ groups → g1 ≠ g2 →
           dom (group_sockets w root K g1) ## dom (group_sockets w root K g2).

(** The claim of idempotence: a second scan, right after the first, returns
    the same map.  [range1] and [range2] are the orders in which the two scans
    happen to visit the groups. *)
Definition scan_idempotent (w : World) (walked : list Process)
    (range1 range2 : gmap Z (list Process) → list (Z * list Process)) (K : Z)
    (s : State) : Prop :=
  let first := walkProcPid w walked range1 K s in
  (walkProcPid w walked range2 K first.2).1.1 = first.1.1.

(** ** Synthetic hosts *)

Fixpoint assoc {A} (l : list (string * A)) (k : string) : option A :=
  match l with
  | [] => None
  | (k', a) :: l' => if String.eqb k k' then Some a else assoc l' k
  end.

Definition ENOENT : error := "no such file or directory".

(** A stand-in for go-version: the major and the minor number that open the
    string, in decimal and separated by a dot, compared in order.  A string
    that does not open with a digit does not parse. *)
Definition digit_of (c : Ascii.ascii) : option Z :=
  let n := Z.of_N (Ascii.N_of_ascii c) in
  if (48 <=? n) && (n <=? 57) then Some (n - 48) else None.
Fixpoint read_digits (str : string) (acc : Z) : Z * string :=
  match str with
  | String c rest =>
      match digit_of c with
      | Some d => read_digits rest (10 * acc + d)
      | None => (acc, str)
      end
  | EmptyString => (acc, str)
  end.
Definition opens_with_digit (str : string) : bool :=
  match str with
  | String c _ => match digit_of c with Some _ => true | None => false end
  | EmptyString => false
  end.
Definition toyNewVersion (release : string) : error + Z * Z :=
  if opens_with_digit release then
    let major := read_digits release 0 in
    match major.2 with
    | String "."%char rest =>
        if opens_with_digit rest then inr (major.1, (read_digits rest 0).1)
        else inl "Malformed version"%string
    | _ => inr (major.1, 0)
    end
  else inl "Malformed version"%string.
Definition toyLessThan (a b : Z * Z) : bool :=
  (a.1 <? b.1) || ((a.1 =? b.1) && (a.2 <? b.2)).

(** A procfs tree that does not change: the files, directories and stat
    results listed exist, nothing else does. *)
Definition fixture (release : error + string) (files : list (string * list byte))
    (dirs : list (string * list string)) (stats : list (string * Stat_t)) : World :=
  {| Version := Z * Z;
     LessThan := toyLessThan;
     NewVersion := toyNewVersion;
     NewVersion_3_8 := exist _ (3, 8) eq_refl;
     Uname := λ _, release;
     OpenRead := λ _ f,
       match assoc files f with
       | Some d => ReadsData d None
       | None => OpenFails ENOENT
       end;
     ReadDirNames := λ _ d,
       match assoc dirs d with Some l => inr l | None => inl ENOENT end;
     Stat := λ _ x,
       match assoc stats x with Some st => inr st | None => inl ENOENT end |}.

Definition socket_stat (ino : Z) : Stat_t := {| Ino := ino; Mode := 0xc1ff |}.
Definition regular_stat (ino : Z) : Stat_t := {| Ino := ino; Mode := 0x81a4 |}.

Definition pA : Process := {| PID := 100; Name := "a" |}.
Definition pB : Process := {| PID := 200; Name := "b" |}.
Definition pC : Process := {| PID := 300; Name := "c" |}.

Definition host_dirs : list (string * list string) :=
  [("/proc/100/fd", ["0"; "1"; "2"; "3"; "4"]);
   ("/proc/200/fd", ["0"]);
   ("/proc/300/fd", ["0"])]%string.

Definition host_stats : list (string * Stat_t) :=
  [("/proc/100/ns/net", regular_stat 555);
   ("/proc/200/ns/net", regular_stat 555);
   ("/proc/300/ns/net", regular_stat 666);
   ("/proc/100/fd/0", regular_stat 9999);
   ("/proc/100/fd/1", socket_stat 9001);
   ("/proc/100/fd/2", socket_stat 9002);
   ("/proc/100/fd/3", socket_stat 9003);
   ("/proc/100/fd/4", socket_stat 9999);
   ("/proc/200/fd/0", socket_stat 9100);
   ("/proc/300/fd/0", socket_stat 9999)]%string.

(** Processes 100 and 200 share namespace 555, process 300 is alone in 666;
    100 and 300 both hold socket 9999. *)
Definition host : World :=
  fixture (inr "4.4.0"%string)
    [("/proc/100/net/tcp"%string, String.list_byte_of_string "sl 0");
     ("/proc/100/net/tcp6"%string, []);
     ("/proc/200/net/tcp"%string, String.list_byte_of_string "sl 0");
     ("/proc/200/net/tcp6"%string, []);
     ("/proc/300/net/tcp"%string, String.list_byte_of_string "sl 1");
     ("/proc/300/net/tcp6"%string, [])]
    host_dirs host_stats.

(** The same host when the tables of process 200 cannot be opened. *)
Definition host_unreadable : World :=
  fixture (inr "4.4.0"%string)
    [("/proc/100/net/tcp"%string, String.list_byte_of_string "sl 0");
     ("/proc/100/net/tcp6"%string, [])]
    host_dirs host_stats.

(** The same host with empty tables in namespace 555, on an old kernel. *)
Definition host_idle : World :=
  fixture (inr "3.2.0"%string)
    [("/proc/100/net/tcp"%string, []);
     ("/proc/100/net/tcp6"%string, []);
     ("/proc/200/net/tcp"%string, []);
     ("/proc/200/net/tcp6"%string, [])]
    host_dirs host_stats.

Definition start : State :=
  {| buf := []; netNamespacePathSuffix := EmptyString; procRoot := "/proc"; trace := [] |}.

(** ** Vocabulary of the further properties *)

Definition is_uname (e : Event) : bool :=
  match e with EvUname => true | _ => false end.

Definition file_reads_during (s s' : State) : Z :=
  count is_read_file (trace s') - count is_read_file (trace s).
Definition unames_during (s s' : State) : Z :=
  count is_uname (trace s') - count is_uname (trace s).

(** The state after the members [pre] of a group have been tried and given up. *)
Definition after_members (w : World) (pre : list Process) (s : State) : State :=
  foldl (λ s q, after_member w q s) s pre.

(** The events logged from [s] to [s'], the latest first. *)
Definition events_between (s s' : State) : list Event :=
  take (length (trace s') - length (trace s)) (trace s').

(** The path an event accesses. *)
Definition path_of (e : Event) : option string :=
  match e with
  | EvReadFile x | EvReadDirNames x | EvStat x => Some x
  | _ => None
  end.

(** Names of directory entries.  A name is real when it is not empty, [.] or
    [..], and plain when, moreover, it holds no slash. *)
Fixpoint slash_free (name : string) : bool :=
  match name with
  | EmptyString => true
  | String c rest => negb (Ascii.eqb c "/") && slash_free rest
  end.
Definition real (name : string) : bool :=
  negb (String.eqb name EmptyString) && negb (String.eqb name ".")
  && negb (String.eqb name "..").
Definition plain (name : string) : bool := real name && slash_free name.

(** [x] is what [filepath.Join] makes of [root] and one or more plain names:
    an entry of [root], or of a directory under it. *)
Definition under (root x : string) : Prop :=
  ∃ names, names ≠ [] ∧ Forall (λ n, plain n = true) names ∧ x = Join (root :: names).

(** Strings without slash or dot. *)
Fixpoint name_chars (name : string) : bool :=
  match name with
  | EmptyString => true
  | String c rest =>
      negb (Ascii.eqb c "/") && negb (Ascii.eqb c ".") && name_chars rest
  end.

(** A stack of [clean_element]: real names on top of [..] elements, of which
    there are none when the path is rooted. *)
Definition normal (is_rooted : bool) (out : list string) : Prop :=
  ∃ names k, out = names ++ replicate k ".."%string
             ∧ Forall (λ n, real n = true) names ∧ (is_rooted = true → k = 0%nat).

(** The stack [Clean] is left with after the elements of [root]. *)
Definition root_elements (root : string) : list string :=
  foldl (clean_element (rooted root)) [] (path_elements root).

(** Every access of a trace is under [root]. *)
Definition confined (root : string) (tr : list Event) : Prop :=
  Forall (λ e, ∀ x, path_of e = Some x → under root x) tr.

(** In a trace (latest first) every invocation of the reader comes right after
    a receive on the ticker. *)
Fixpoint reads_follow_ticks (tr : list Event) : bool :=
  match tr with
  | [] => true
  | EvReadConnections :: older =>
      match older with
      | EvTick _ :: _ => reads_follow_ticks older
      | _ => false
      end
  | _ :: older => reads_follow_ticks older
  end.

(** The namespace inode of a process in a static world: the inode of the stat
    of its namespace path, when the stat succeeds. *)
Definition namespace_of (w : World) (root suffix : string) (p : Process) : option Z :=
  match Stat w 0 (Join [root; Itoa (PID p); suffix]) with
  | inl _ => None
  | inr statT => Some (Ino statT)
  end.

(** From [s] to [s'] the proc root is kept and the events logged satisfy [P]. *)
Definition appends (P : list Event → Prop) (s s' : State) : Prop :=
  procRoot s' = procRoot s ∧ ∃ delta, trace s' = delta ++ trace s ∧ P delta.

(** Events that keep [reads_follow_ticks] as it is, on top of any trace. *)
Definition neutral (delta : list Event) : Prop :=
  ∀ tr, reads_follow_ticks (delta ++ tr) = reads_follow_ticks tr.

(** The memoized suffix is not set or satisfies [S]. *)
Definition suffix_known (S : string → Prop) (s : State) : Prop :=
  netNamespacePathSuffix s = EmptyString ∨ S (netNamespacePathSuffix s).

(** [U] holds of the paths a scan under [root] makes, with a suffix that
    satisfies [S] and with the names the world [w] lists in the descriptor
    directories; [S] holds of the two suffixes of the resolver. *)
Definition scan_paths (w : World) (root : string) (S U : string → Prop) : Prop :=
  S pre38Path ∧ S post38Path
  ∧ (∀ p, U (tcpPath root p) ∧ U (tcp6Path root p) ∧ U (fdBaseOf root p))
  ∧ (∀ p suffix, S suffix → U (Join [root; Itoa (PID p); suffix]))
  ∧ (∀ p t fds fd, ReadDirNames w t (fdBaseOf root p) = inr fds → fd ∈ fds →
                   U (Join [fdBaseOf root p; fd])).

(** A property of event lists that holds of what a scan logs when its paths
    satisfy [U]: of no event, of an access to such a path, of a probe, a log
    line, a gauge, of a tick followed by an invocation of the reader, and of
    two lists it holds of, one after the other. *)
Definition scan_property (U : string → Prop) (P : list Event → Prop) : Prop :=
  P []
  ∧ (∀ d1 d2, P d1 → P d2 → P (d2 ++ d1))
  ∧ (∀ x, U x → P [EvReadFile x] ∧ P [EvReadDirNames x] ∧ P [EvStat x])
  ∧ P [EvUname] ∧ (∀ m, P [EvLogError m]) ∧ (∀ n, P [EvSetGauge n])
  ∧ (∀ site, P [EvReadConnections; EvTick site]).

(** In a static world: the inode of a descriptor when it is a socket, the
    socket inodes of the descriptors a process lists, and the number of
    descriptors the processes of a group list. *)
Definition socket_inode (w : World) (fdBase fd : string) : option Z :=
  match Stat w 0 (Join [fdBase; fd]) with
  | inl _ => None
  | inr statT => if is_socket statT then Some (Ino statT) else None
  end.
Definition socket_inodes (w : World) (root : string) (p : Process) : list Z :=
  match ReadDirNames w 0 (fdBaseOf root p) with
  | inl _ => []
  | inr fds => omap (socket_inode w (fdBaseOf root p)) fds
  end.
Definition descriptors (w : World) (root : string) (p : Process) : Z :=
  match ReadDirNames w 0 (fdBaseOf root p) with
  | inl _ => 0
  | inr fds => Z.of_nat (length fds)
  end.
Fixpoint total_descriptors (w : World) (root : string) (procs : list Process) : Z :=
  match procs with
  | [] => 0
  | p :: rest => descriptors w root p + total_descriptors w root rest
  end.

(** The last process of a group that holds a socket with inode [ino]. *)
Definition last_holder (w : World) (root : string) (procs : list Process) (ino : Z)
  : option Process :=
  last (filter (λ p, ino ∈ socket_inodes w root p) procs).

(** In a static world: whether a read of the tables of a group reports
    connections, the last holder of [ino] in a group that does, and the owner
    of [ino] after the groups have been visited in the order given: the last
    holder in the last such group that has one. *)
Definition connected (w : World) (root : string) (g : list Process) : bool :=
  bool_decide ((readProcessConnections w g (fresh root)).1 = (true, None)).
Definition holder_in (w : World) (root : string) (ino : Z) (g : list Process)
  : option Process :=
  if connected w root g then last_holder w root g ino else None.
Definition scan_owner (w : World) (root : string) (groups : list (list Process))
    (ino : Z) : option Process :=
  last (omap (holder_in w root ino) groups).

(** The bytes the members of [pre], tried from time [t] on and given up, put
    in the buffer. *)
Fixpoint given_up_bytes (w : World) (t : nat) (root : string) (pre : list Process)
  : list byte :=
  match pre with
  | [] => []
  | q :: pre' =>
      read_data (OpenRead w t (tcpPath root q))
      ++ read_data (OpenRead w (S t) (tcp6Path root q))
      ++ given_up_bytes w (S (S t)) root pre'
  end.

(** * Properties *)

(** ** The equations of the program *)

Section Equations.
Context (w : World).

Lemma readFile_eq f s :
  readFile w f s =
  ((read_count (OpenRead w (now s) f), read_error (OpenRead w (now s) f)),
   after_read w f s).
Proof.
  unfold readFile, syscall, mbind, M_bind, mret, M_ret, get_now, emit,
    buf_append, after_read.
  cbn. destruct (OpenRead w (now s) f); cbn; [rewrite app_nil_r|]; reflexivity.
Qed.

Lemma readLoop_nil e e6 s :
  readLoop w [] e e6 s = ((false, first_error e e6), s).
Proof. destruct e, e6; reflexivity. Qed.

Lemma readLoop_cons p rest e e6 s :
  readLoop w (p :: rest) e e6 s =
  if member_fails w (now s) (procRoot s) p
  then readLoop w rest (member_errors w (now s) (procRoot s) p).1
                (member_errors w (now s) (procRoot s) p).2 (after_member w p s)
  else ((0 <? member_bytes w (now s) (procRoot s) p, None), after_member w p s).
Proof.
  cbn [readLoop]. unfold mbind, M_bind, get_procRoot.
  rewrite !readFile_eq. unfold member_fails, member_errors, member_bytes. cbn.
  destruct (not_nil _ || not_nil _); reflexivity.
Qed.

Lemma readProcessConnections_eq procs s :
  readProcessConnections w procs s
  = readLoop w procs None None (logged EvReadConnections s).
Proof. reflexivity. Qed.

Lemma fdLoop_nil p base proc sockets c s :
  fdLoop w p base [] proc sockets c s = ((sockets, c), s).
Proof. reflexivity. Qed.

Lemma fdLoop_cons p base fd fds proc sockets c s :
  fdLoop w p base (fd :: fds) proc sockets c s =
  let s' := logged (EvStat (Join [base; fd])) s in
  match Stat w (now s) (Join [base; fd]) with
  | inl _ => fdLoop w p base fds proc sockets (wrap_int (c + 1)) s'
  | inr statT =>
      if is_socket statT
      then fdLoop w p base fds (Some (default (owner_of p) proc))
             (<[Ino statT := default (owner_of p) proc]> sockets)
             (wrap_int (c + 1)) s'
      else fdLoop w p base fds proc sockets (wrap_int (c + 1)) s'
  end.
Proof.
  cbn [fdLoop]. unfold syscall, mbind, M_bind, mret, M_ret, get_now, emit, logged.
  cbn. destruct (Stat w (now s) (Join [base; fd])) as [e|statT]; [reflexivity|].
  unfold is_socket. destruct (Z.land (Mode statT) S_IFMT =? S_IFSOCK); cbn;
    [destruct proc|]; reflexivity.
Qed.

(** [readProcessConnections] leaves the package variables alone. *)
Lemma readLoop_procRoot procs e e6 s :
  procRoot (readLoop w procs e e6 s).2 = procRoot s.
Proof.
  revert e e6 s. induction procs as [|p rest IH]; intros e e6 s.
  - rewrite readLoop_nil. reflexivity.
  - rewrite readLoop_cons. destruct (member_fails _ _ _ _); [|reflexivity].
    rewrite IH. reflexivity.
Qed.

Lemma readLoop_suffix procs e e6 s :
  netNamespacePathSuffix (readLoop w procs e e6 s).2 = netNamespacePathSuffix s.
Proof.
  revert e e6 s. induction procs as [|p rest IH]; intros e e6 s.
  - rewrite readLoop_nil. reflexivity.
  - rewrite readLoop_cons. destruct (member_fails _ _ _ _); [|reflexivity].
    rewrite IH. reflexivity.
Qed.

Lemma readProcessConnections_procRoot procs s :
  procRoot (readProcessConnections w procs s).2 = procRoot s.
Proof. rewrite readProcessConnections_eq, readLoop_procRoot. reflexivity. Qed.

Lemma walkLoop_nil K sockets c s :
  walkLoop w K [] sockets c s = ((None, sockets), s).
Proof. reflexivity. Qed.

Lemma walkLoop_cons K p rest sockets c s :
  walkLoop w K (p :: rest) sockets c s =
  if K <? c then
    let r := readProcessConnections w (p :: rest) (logged (EvTick RateLimit) s) in
    if not_nil r.1.2 || negb r.1.1 then ((r.1.2, sockets), r.2)
    else walk_fds w K p rest sockets 0 r.2
  else walk_fds w K p rest sockets c s.
Proof.
  assert (Hfds : ∀ c' s', procRoot s' = procRoot s →
    (syscall (EvReadDirNames (fdBaseOf (procRoot s) p))
             (λ t, ReadDirNames w t (fdBaseOf (procRoot s) p)) ≫= λ fds,
       match fds with
       | inl _ => walkLoop w K rest sockets c'
       | inr fds =>
           fdLoop w p (fdBaseOf (procRoot s) p) fds None sockets c' ≫=
             λ '(sockets', fdBlockCount'), walkLoop w K rest sockets' fdBlockCount'
       end) s' = walk_fds w K p rest sockets c' s').
  { intros c' s' Hroot. unfold walk_fds. rewrite Hroot.
    unfold syscall, mbind, M_bind, mret, M_ret, get_now, emit, logged.
    cbn. destruct (ReadDirNames w (now s') _); [reflexivity|].
    cbn. destruct (fdLoop _ _ _ _ _ _ _ _) as [[??]?]. reflexivity. }
  cbn [walkLoop]. unfold mbind at 1, M_bind at 1, get_procRoot at 1.
  cbn beta iota zeta. fold (fdBaseOf (procRoot s) p).
  destruct (K <? c); [|apply Hfds; reflexivity].
  unfold mbind at 1, M_bind at 1. unfold emit at 1. cbn beta iota zeta.
  unfold mbind at 1, M_bind at 1. unfold logged, emit at 1. cbn [snd].
  pose proof (readProcessConnections_procRoot (p :: rest)
    {| buf := buf s; netNamespacePathSuffix := netNamespacePathSuffix s;
       procRoot := procRoot s; trace := EvTick RateLimit :: trace s |}) as Hroot.
  destruct (readProcessConnections w (p :: rest) _) as [[found err] s2].
  cbn [fst snd] in *. destruct (not_nil err || negb found); [reflexivity|].
  apply Hfds. exact Hroot.
Qed.

Lemma walkNamespacePid_eq sockets procs K s :
  walkNamespacePid w sockets procs K s =
  let r := readProcessConnections w procs s in
  if not_nil r.1.2 || negb r.1.1 then ((r.1.2, sockets), r.2)
  else walkLoop w K procs sockets 0 r.2.
Proof.
  unfold walkNamespacePid, mbind, M_bind.
  destruct (readProcessConnections w procs s) as [[found err] s2]. cbn [fst snd].
  destruct (not_nil err || negb found); reflexivity.
Qed.

Lemma rangeLoop_nil K sockets s : rangeLoop w K [] sockets s = (sockets, s).
Proof. reflexivity. Qed.

Lemma rangeLoop_cons K g groups sockets s :
  rangeLoop w K (g :: groups) sockets s =
  let r := walkNamespacePid w sockets g K (logged (EvTick GroupStart) s) in
  rangeLoop w K groups r.1.2 r.2.
Proof.
  cbn [rangeLoop]. unfold mbind, M_bind, logged, emit. cbn [snd].
  destruct (walkNamespacePid w sockets g K _) as [[err sockets'] s']. reflexivity.
Qed.

Lemma groupLoop_nil namespaces s : groupLoop w [] namespaces s = (namespaces, s).
Proof. reflexivity. Qed.

Lemma groupLoop_cons p rest namespaces s :
  groupLoop w (p :: rest) namespaces s =
  let r := getNetNamespacePathSuffix w s in
  let netNamespacePath := Join [procRoot s; Itoa (PID p); r.1] in
  let s1 := logged (EvStat netNamespacePath) r.2 in
  match Stat w (now r.2) netNamespacePath with
  | inl _ => groupLoop w rest namespaces s1
  | inr statT =>
      groupLoop w rest
        (<[Ino statT := default [] (namespaces !! Ino statT) ++ [p]]> namespaces) s1
  end.
Proof.
  cbn [groupLoop]. unfold syscall.
  unfold mbind, M_bind, get_procRoot, get_now, emit, mret, M_ret, logged.
  destruct (getNetNamespacePathSuffix w s) as [suffix s1]. cbn.
  destruct (Stat w (now s1) _); reflexivity.
Qed.

Lemma walkProcPid_eq walked range K s :
  walkProcPid w walked range K s =
  let g := groupLoop w walked ∅ s in
  let r := rangeLoop w K ((range g.1).*2) ∅ g.2 in
  ((r.1, None), logged (EvSetGauge (float32_of_len (size g.1))) r.2).
Proof.
  unfold walkProcPid, mbind, M_bind, mret, M_ret, logged, emit.
  destruct (groupLoop w walked ∅ s) as [namespaces s1]. cbn [fst snd].
  destruct (rangeLoop w K _ ∅ s1) as [sockets s2]. reflexivity.
Qed.

End Equations.

Section Resolver.
Context (w : World).

Lemma getNetNamespacePathSuffix_memo s :
  netNamespacePathSuffix s ≠ EmptyString →
  getNetNamespacePathSuffix w s = (netNamespacePathSuffix s, s).
Proof.
  intros Hmemo. unfold getNetNamespacePathSuffix, mbind, M_bind, get_suffix.
  destruct (String.eqb_spec (netNamespacePathSuffix s) EmptyString); [contradiction|].
  reflexivity.
Qed.

Lemma getNetNamespacePathSuffix_first s :
  netNamespacePathSuffix s = EmptyString →
  getNetNamespacePathSuffix w s = (resolve w (now s), after_probe w s).
Proof.
  intros Hmemo.
  unfold getNetNamespacePathSuffix, getKernelVersion, syscall, mbind, M_bind,
    mret, M_ret, get_suffix, get_now, set_suffix, emit, after_probe.
  unfold resolve, detected.
  rewrite Hmemo. cbn.
  destruct (Uname w (now s)) as [err|release]; [reflexivity|].
  destruct (NewVersion w release) as [err|v]; [reflexivity|].
  unfold v38, value_of. destruct (LessThan w v _); reflexivity.
Qed.

Lemma resolve_not_empty t : resolve w t ≠ EmptyString.
Proof.
  unfold resolve. destruct (detected w t) as [|v]; [discriminate|].
  destruct (LessThan w v (v38 w)); discriminate.
Qed.

End Resolver.

(** ** The namespace-path resolver *)

(** C8. Called with nothing memoized, [getNetNamespacePathSuffix] compares the
    detected kernel version with the version [v38] that go-version parses the
    literal ["3.8"] to: it returns the legacy path ["net/dev"] exactly when the
    kernel version is detected and is less than [v38], and the modern path
    ["ns/net"] exactly when the version is detected and is not less than [v38]
    or the detection fails; it memoizes what it returns, and a call in any
    later state holding that memo returns the same string and leaves the state
    as it is: nothing is probed, nothing is logged. *)
Theorem namespace_suffix_resolution (w : World) (s : State) :
  netNamespacePathSuffix s = EmptyString →
  let r := getNetNamespacePathSuffix w s in
  ∃ v38 : Version w,
    NewVersion w "3.8" = inr v38
    ∧ (r.1 = pre38Path ↔
         ∃ v, detected w (now s) = inr v ∧ LessThan w v v38 = true)
    ∧ (r.1 = post38Path ↔
         (∃ v, detected w (now s) = inr v ∧ LessThan w v v38 = false)
         ∨ (∃ err, detected w (now s) = inl err))
    ∧ netNamespacePathSuffix r.2 = r.1
    ∧ ∀ s', netNamespacePathSuffix s' = r.1 →
            getNetNamespacePathSuffix w s' = (r.1, s').
Proof.
  intros Hmemo r. subst r. rewrite (getNetNamespacePathSuffix_first w s Hmemo).
  cbn [fst snd]. exists (v38 w). split; [exact (proj2_sig (NewVersion_3_8 w))|].
  repeat split.
  - unfold resolve. destruct (detected w (now s)) as [err|v]; [discriminate|].
    destruct (LessThan w v (v38 w)) eqn:Hlt; [eauto|discriminate].
  - intros (v & Hv & Hlt). unfold resolve. rewrite Hv, Hlt. reflexivity.
  - unfold resolve. destruct (detected w (now s)) as [err|v]; [eauto|].
    destruct (LessThan w v (v38 w)) eqn:Hlt; [discriminate|eauto].
  - unfold resolve. intros [(v & Hv & Hlt)|(err & Herr)].
    + rewrite Hv, Hlt. reflexivity.
    + rewrite Herr. reflexivity.
  - intros s' Hs'. rewrite getNetNamespacePathSuffix_memo.
    + rewrite Hs'. reflexivity.
    + rewrite Hs'. apply resolve_not_empty.
Qed.

(** ** The error of the scan *)

(** C10. [walkProcPid] returns a nil error whatever the world, the processes,
    the order of the groups, the budget and the state it starts in. *)
Theorem walkProcPid_error_nil (w : World) (walked : list Process)
    (range : gmap Z (list Process) → list (Z * list Process)) (K : Z) (s : State) :
  (walkProcPid w walked range K s).1.2 = None.
Proof. rewrite walkProcPid_eq. reflexivity. Qed.

(** The error of a group is dropped indeed: the walk of a group whose tables
    cannot be opened returns the error of the open, the scan returns nil. *)
Example group_error_is_dropped :
  (walkNamespacePid host_unreadable ∅ [pB] 2 start).1.1 = Some ENOENT
  ∧ (walkProcPid host_unreadable [pB] map_to_list 2 start).1.2 = None.
Proof. split; vm_compute; reflexivity. Qed.

(** ** The connection-table reader *)

Section Reader.
Context (w : World).

Lemma now_after_member p s : now (after_member w p s) = S (S (now s)).
Proof. reflexivity. Qed.

Lemma procRoot_after_member p s : procRoot (after_member w p s) = procRoot s.
Proof. reflexivity. Qed.

(** The reader logs nothing but its reads. *)
Lemma readLoop_count f procs e e6 s :
  (∀ x, f (EvReadFile x) = false) →
  count f (trace (readLoop w procs e e6 s).2) = count f (trace s).
Proof.
  intros Hf. revert e e6 s. induction procs as [|p rest IH]; intros e e6 s.
  - rewrite readLoop_nil. reflexivity.
  - rewrite readLoop_cons.
    assert (count f (trace (after_member w p s)) = count f (trace s)) as Hm.
    { cbn. rewrite !Hf. lia. }
    destruct (member_fails _ _ _ _); [rewrite IH|]; exact Hm.
Qed.

Lemma readProcessConnections_count f procs s :
  (∀ x, f (EvReadFile x) = false) →
  count f (trace (readProcessConnections w procs s).2)
  = (if f EvReadConnections then 1 else 0) + count f (trace s).
Proof.
  intros Hf. rewrite readProcessConnections_eq, readLoop_count by exact Hf.
  reflexivity.
Qed.

(** When every member is given up, the loop ends with the errors of the last. *)
Lemma readLoop_all_fail init last e e6 s :
  (∀ j p, (init ++ [last]) !! j = Some p →
          member_fails w (now s + 2 * j)%nat (procRoot s) p = true) →
  (readLoop w (init ++ [last]) e e6 s).1
  = (false,
     first_error
       (member_errors w (now s + 2 * length init)%nat (procRoot s) last).1
       (member_errors w (now s + 2 * length init)%nat (procRoot s) last).2).
Proof.
  revert e e6 s. induction init as [|p init IH]; intros e e6 s Hall.
  - cbn [app length]. rewrite readLoop_cons.
    replace (now s + 2 * 0)%nat with (now s) by lia.
    specialize (Hall 0%nat last eq_refl).
    replace (now s + 2 * 0)%nat with (now s) in Hall by lia.
    rewrite Hall, readLoop_nil. reflexivity.
  - cbn [app length]. rewrite readLoop_cons.
    pose proof (Hall 0%nat p eq_refl) as H0.
    replace (now s + 2 * 0)%nat with (now s) in H0 by lia.
    rewrite H0, IH.
    + rewrite now_after_member, procRoot_after_member.
      replace (S (S (now s)) + 2 * length init)%nat
        with (now s + 2 * S (length init))%nat by lia.
      reflexivity.
    + intros j q Hj. rewrite now_after_member, procRoot_after_member.
      replace (S (S (now s)) + 2 * j)%nat with (now s + 2 * S j)%nat by lia.
      apply Hall. exact Hj.
Qed.

(** The members given up are skipped; the first whose two reads succeed
    decides. *)
Lemma readLoop_first_success pre p post e e6 s :
  (∀ j q, pre !! j = Some q →
          member_fails w (now s + 2 * j)%nat (procRoot s) q = true) →
  member_fails w (now s + 2 * length pre)%nat (procRoot s) p = false →
  (readLoop w (pre ++ p :: post) e e6 s).1
  = (0 <? member_bytes w (now s + 2 * length pre)%nat (procRoot s) p, None).
Proof.
  revert e e6 s. induction pre as [|q pre IH]; intros e e6 s Hpre Hp.
  - cbn [app length] in *. rewrite readLoop_cons.
    replace (now s + 2 * 0)%nat with (now s) in * by lia.
    rewrite Hp. reflexivity.
  - cbn [app length] in *. rewrite readLoop_cons.
    pose proof (Hpre 0%nat q eq_refl) as H0.
    replace (now s + 2 * 0)%nat with (now s) in H0 by lia.
    rewrite H0, IH.
    + rewrite now_after_member, procRoot_after_member.
      replace (S (S (now s)) + 2 * length pre)%nat
        with (now s + 2 * S (length pre))%nat by lia.
      reflexivity.
    + intros j r Hj. rewrite now_after_member, procRoot_after_member.
      replace (S (S (now s)) + 2 * j)%nat with (now s + 2 * S j)%nat by lia.
      apply Hpre. exact Hj.
    + rewrite now_after_member, procRoot_after_member.
      replace (S (S (now s)) + 2 * length pre)%nat
        with (now s + 2 * S (length pre))%nat by lia.
      exact Hp.
Qed.

End Reader.

(** C7. When every member of a group is given up, that is, at the time of its
    turn its TCP read or its TCP6 read returns an error, and the group has a
    last member, [readProcessConnections] returns [false] with an error that is
    not nil: the TCP error of the last member, or its TCP6 error when the TCP
    read succeeded.  The turn of member [j] starts one step after the call, plus
    two per earlier member. *)
Theorem readProcessConnections_all_fail (w : World) (init : list Process)
    (last : Process) (s : State) :
  let turn (j : nat) := (S (now s) + 2 * j)%nat in
  (∀ j p, (init ++ [last]) !! j = Some p →
          member_fails w (turn j) (procRoot s) p = true) →
  let errs := member_errors w (turn (length init)) (procRoot s) last in
  (readProcessConnections w (init ++ [last]) s).1 = (false, first_error errs.1 errs.2)
  ∧ first_error errs.1 errs.2 ≠ None.
Proof.
  intros turn Hall errs. split.
  - rewrite readProcessConnections_eq. apply (readLoop_all_fail w). exact Hall.
  - specialize (Hall (length init) last).
    rewrite lookup_app_r, Nat.sub_diag in Hall by lia.
    specialize (Hall eq_refl). unfold member_fails in Hall. fold errs in Hall.
    destruct (errs.1), (errs.2); cbn in *; congruence.
Qed.

(** C4. Take a group in which the members before [p] are given up and both
    reads of [p] succeed with no byte in total.  Then [readProcessConnections]
    returns [false] with a nil error, and [walkNamespacePid] returns a nil
    error and the map it was given, having stopped right after the read: it
    lists no descriptor directory, stats no descriptor and waits for no tick, so
    no process of the group adds a key, sockets or not. *)
Theorem empty_table_skips_group (w : World) (K : Z) (pre : list Process)
    (p : Process) (post : list Process) (sockets : gmap Z Proc) (s : State)
    (d d6 : list byte) :
  let turn (j : nat) := (S (now s) + 2 * j)%nat in
  (∀ j q, pre !! j = Some q → member_fails w (turn j) (procRoot s) q = true) →
  OpenRead w (turn (length pre)) (tcpPath (procRoot s) p) = ReadsData d None →
  OpenRead w (S (turn (length pre))) (tcp6Path (procRoot s) p) = ReadsData d6 None →
  (length d + length d6 = 0)%nat →
  let procs := pre ++ p :: post in
  (readProcessConnections w procs s).1 = (false, None)
  ∧ walkNamespacePid w sockets procs K s
    = ((None, sockets), (readProcessConnections w procs s).2)
  ∧ count is_fd_access (trace (walkNamespacePid w sockets procs K s).2)
    = count is_fd_access (trace s)
  ∧ count is_tick (trace (walkNamespacePid w sockets procs K s).2)
    = count is_tick (trace s).
Proof.
  intros turn Hpre Hd Hd6 Hzero procs.
  assert ((readProcessConnections w procs s).1 = (false, None)) as Hread.
  { rewrite readProcessConnections_eq. unfold procs.
    rewrite (readLoop_first_success w) with (s := logged EvReadConnections s).
    - change (now (logged EvReadConnections s)) with (S (now s)).
      change (procRoot (logged EvReadConnections s)) with (procRoot s).
      unfold member_bytes. fold (turn (length pre)). rewrite Hd, Hd6. cbn [read_count].
      destruct d, d6; cbn in Hzero; try lia. reflexivity.
    - exact Hpre.
    - change (now (logged EvReadConnections s)) with (S (now s)).
      change (procRoot (logged EvReadConnections s)) with (procRoot s).
      unfold member_fails, member_errors. fold (turn (length pre)).
      rewrite Hd, Hd6. reflexivity. }
  assert (walkNamespacePid w sockets procs K s
          = ((None, sockets), (readProcessConnections w procs s).2)) as Hwalk.
  { rewrite walkNamespacePid_eq. cbn zeta. rewrite Hread. reflexivity. }
  split; [exact Hread|]. split; [exact Hwalk|].
  rewrite Hwalk. cbn [snd].
  rewrite !readProcessConnections_count by reflexivity. split; reflexivity.
Qed.

Lemma namespace_suffix_resolution_witness :
  netNamespacePathSuffix start = EmptyString
  ∧ NewVersion host "3.8" = inr (3, 8)
  ∧ (getNetNamespacePathSuffix host_idle start).1 = pre38Path
  ∧ (getNetNamespacePathSuffix host start).1 = post38Path
  ∧ (getNetNamespacePathSuffix (fixture (inr "3.7.12"%string) [] [] []) start).1
    = pre38Path
  ∧ (getNetNamespacePathSuffix (fixture (inr "3.8.0-19-generic"%string) [] [] [])
       start).1 = post38Path
  ∧ (getNetNamespacePathSuffix (fixture (inr "3.10.0"%string) [] [] []) start).1
    = post38Path.
Proof.
  split; [reflexivity|]. split; [reflexivity|]. split; [|split; [|split; [|split]]].
  - destruct (namespace_suffix_resolution host_idle start eq_refl)
      as (v38 & Hv38 & Hpre & _).
    injection Hv38 as <-. apply Hpre. exists (3, 2). split; reflexivity.
  - destruct (namespace_suffix_resolution host start eq_refl)
      as (v38 & Hv38 & _ & Hpost & _).
    injection Hv38 as <-. apply Hpost. left. exists (4, 4). split; reflexivity.
  - destruct (namespace_suffix_resolution
                (fixture (inr "3.7.12"%string) [] [] []) start eq_refl)
      as (v38 & Hv38 & Hpre & _).
    injection Hv38 as <-. apply Hpre. exists (3, 7). split; reflexivity.
  - destruct (namespace_suffix_resolution
                (fixture (inr "3.8.0-19-generic"%string) [] [] []) start eq_refl)
      as (v38 & Hv38 & _ & Hpost & _).
    injection Hv38 as <-. apply Hpost. left. exists (3, 8). split; reflexivity.
  - destruct (namespace_suffix_resolution
                (fixture (inr "3.10.0"%string) [] [] []) start eq_refl)
      as (v38 & Hv38 & _ & Hpost & _).
    injection Hv38 as <-. apply Hpost. left. exists (3, 10). split; reflexivity.
Defined.

Lemma readProcessConnections_all_fail_witness :
  (readProcessConnections host_unreadable ([pC] ++ [pB]) start).1
  = (false, Some ENOENT).
Proof.
  refine (proj1 (readProcessConnections_all_fail host_unreadable [pC] pB start _)).
  intros [|[|j]] p Hp; cbn in Hp; try discriminate;
    injection Hp as <-; vm_compute; reflexivity.
Defined.

Lemma empty_table_skips_group_witness :
  walkNamespacePid host_idle ∅ ([] ++ pA :: [pB]) 2 start
  = ((None, ∅), (readProcessConnections host_idle ([] ++ pA :: [pB]) start).2).
Proof.
  refine (proj1 (proj2 (empty_table_skips_group host_idle 2 [] pA [pB] ∅ start
                          [] [] _ _ _ _))).
  - intros j q Hq. discriminate.
  - vm_compute. reflexivity.
  - vm_compute. reflexivity.
  - reflexivity.
Defined.

(** ** The socket-owner walk: counting *)

Lemma wrap_int_id z : - 2 ^ 63 ≤ z ≤ max_int → wrap_int z = z.
Proof.
  unfold wrap_int, max_int. intros Hz.
  rewrite Z.mod_small by lia. lia.
Qed.

Section WalkerCounts.
Context (w : World).

(** The descriptor loop stats each entry once, counts each and logs nothing
    else. *)
Lemma fdLoop_count f p base fds proc sockets c s :
  (∀ x, f (EvStat x) = false) →
  count f (trace (fdLoop w p base fds proc sockets c s).2) = count f (trace s).
Proof.
  intros Hf. revert proc sockets c s.
  induction fds as [|fd fds IH]; intros proc sockets c s; [reflexivity|].
  rewrite fdLoop_cons. cbn zeta.
  destruct (Stat w (now s) _) as [|statT]; [|destruct (is_socket statT)];
    rewrite IH; cbn; rewrite Hf; lia.
Qed.

Lemma fdLoop_stats p base fds proc sockets c s :
  count is_stat (trace (fdLoop w p base fds proc sockets c s).2)
  = count is_stat (trace s) + Z.of_nat (length fds).
Proof.
  revert proc sockets c s.
  induction fds as [|fd fds IH]; intros proc sockets c s.
  - rewrite fdLoop_nil. cbn. lia.
  - rewrite fdLoop_cons. cbn zeta.
    destruct (Stat w (now s) _) as [|statT]; [|destruct (is_socket statT)];
      rewrite IH; cbn [logged emit snd trace count is_stat length]; lia.
Qed.

Lemma fdLoop_blockCount p base fds proc sockets c s :
  0 ≤ c → c + Z.of_nat (length fds) ≤ max_int →
  (fdLoop w p base fds proc sockets c s).1.2 = c + Z.of_nat (length fds).
Proof.
  revert proc sockets c s.
  induction fds as [|fd fds IH]; intros proc sockets c s Hc Hmax.
  - rewrite fdLoop_nil. cbn. lia.
  - rewrite fdLoop_cons. cbn zeta. cbn [length] in Hmax.
    assert (wrap_int (c + 1) = c + 1) as ->
      by (apply wrap_int_id; unfold max_int in *; lia).
    destruct (Stat w (now s) _) as [|statT]; [|destruct (is_socket statT)];
      rewrite IH by lia; cbn [length]; lia.
Qed.

Lemma fdLoop_procRoot p base fds proc sockets c s :
  procRoot (fdLoop w p base fds proc sockets c s).2 = procRoot s.
Proof.
  revert proc sockets c s.
  induction fds as [|fd fds IH]; intros proc sockets c s; [reflexivity|].
  rewrite fdLoop_cons. cbn zeta.
  destruct (Stat w (now s) _) as [|statT]; [|destruct (is_socket statT)];
    rewrite IH; reflexivity.
Qed.

(** Between two pauses the walk examines at most the budget and the
    descriptors of one more process. *)
Lemma walkLoop_budget K D procs sockets c s :
  0 ≤ K → 0 ≤ D → K + D ≤ max_int →
  (∀ t dir fds, ReadDirNames w t dir = inr fds → Z.of_nat (length fds) ≤ D) →
  0 ≤ c ≤ K + D →
  let s' := (walkLoop w K procs sockets c s).2 in
  examined_during s s' + c ≤ (pauses_during s s' + 1) * (K + D).
Proof.
  intros HK HD Hmax Hdirs. unfold examined_during, pauses_during.
  revert sockets c s. induction procs as [|p rest IH]; intros sockets c s Hc.
  - rewrite walkLoop_nil. cbn. lia.
  - assert (Hfds : ∀ c0 s0, 0 ≤ c0 ≤ K →
      let s' := (walk_fds w K p rest sockets c0 s0).2 in
      count is_stat (trace s') - count is_stat (trace s0) + c0
      ≤ (count is_pause (trace s') - count is_pause (trace s0) + 1) * (K + D)).
    { intros c0 s0 Hc0. unfold walk_fds. cbn zeta.
      destruct (ReadDirNames w (now s0) _) as [|fds] eqn:Hls.
      - specialize (IH sockets c0 (logged (EvReadDirNames (fdBaseOf (procRoot s0) p)) s0)).
        cbn in IH. cbn. lia.
      - apply Hdirs in Hls.
        set (s1 := logged _ s0).
        pose proof (fdLoop_stats p (fdBaseOf (procRoot s0) p) fds None sockets c0 s1) as Hst.
        pose proof (fdLoop_count is_pause p (fdBaseOf (procRoot s0) p) fds None sockets c0 s1
                      (λ _, eq_refl)) as Hpa.
        pose proof (fdLoop_blockCount p (fdBaseOf (procRoot s0) p) fds None sockets c0 s1)
          as Hbc.
        destruct (fdLoop w p _ fds None sockets c0 s1) as [[sockets' c'] s2].
        cbn [fst snd] in *. rewrite Hbc by lia.
        specialize (IH sockets' (c0 + Z.of_nat (length fds)) s2).
        cbn zeta in IH. subst s1. cbn in Hst, Hpa. lia. }
    rewrite walkLoop_cons. destruct (K <? c) eqn:Hlt; [|apply Hfds; lia].
    cbn zeta.
    pose proof (readProcessConnections_count w is_stat (p :: rest)
                  (logged (EvTick RateLimit) s) (λ _, eq_refl)) as Hst.
    pose proof (readProcessConnections_count w is_pause (p :: rest)
                  (logged (EvTick RateLimit) s) (λ _, eq_refl)) as Hpa.
    destruct (readProcessConnections w (p :: rest) _) as [[found err] s1].
    cbn in Hst, Hpa. cbn [fst snd].
    destruct (not_nil err || negb found).
    + cbn [snd]. nia.
    + specialize (Hfds 0 s1). cbn zeta in Hfds. nia.
Qed.

End WalkerCounts.

(** C1, as amended.  The walk compares the counter with the budget only
    between two processes, after the whole descriptor directory of one has been
    examined.  So with a budget [K ≥ 0], when no directory lists more than [D]
    descriptors (and [K + D] fits an [int]), a walk that examines [M]
    descriptors waits on the tick source at least [ceil(M / (K + D)) - 1]
    times: at most [K + D] descriptors are examined between two pauses. *)
Theorem walk_pause_bound (w : World) (K D : Z) (procs : list Process)
    (sockets : gmap Z Proc) (s : State) :
  0 ≤ K → 0 ≤ D → K + D ≤ max_int →
  (∀ t dir fds, ReadDirNames w t dir = inr fds → Z.of_nat (length fds) ≤ D) →
  let s' := (walkNamespacePid w sockets procs K s).2 in
  examined_during s s' ≤ (pauses_during s s' + 1) * (K + D)
  ∧ (0 < K + D →
     (examined_during s s' + (K + D) - 1) / (K + D) - 1 ≤ pauses_during s s').
Proof.
  intros HK HD Hmax Hdirs s'.
  assert (examined_during s s' ≤ (pauses_during s s' + 1) * (K + D)) as Hbound.
  { subst s'. rewrite walkNamespacePid_eq. cbn zeta.
    pose proof (readProcessConnections_count w is_stat procs s (λ _, eq_refl)) as Hst.
    pose proof (readProcessConnections_count w is_pause procs s (λ _, eq_refl)) as Hpa.
    destruct (readProcessConnections w procs s) as [[found err] s1].
    cbn in Hst, Hpa. cbn [fst snd]. unfold examined_during, pauses_during.
    destruct (not_nil err || negb found).
    - cbn [snd]. nia.
    - pose proof (walkLoop_budget w K D procs sockets 0 s1 HK HD Hmax Hdirs) as Hw.
      cbn zeta in Hw. unfold examined_during, pauses_during in Hw. lia. }
  split; [exact Hbound|]. intros Hpos.
  assert ((examined_during s s' + (K + D) - 1) / (K + D) < pauses_during s s' + 2);
    [|lia].
  apply Z.div_lt_upper_bound; [exact Hpos|]. nia.
Qed.

Lemma host_dirs_bounded t dir fds :
  ReadDirNames host t dir = inr fds → Z.of_nat (length fds) ≤ 5.
Proof.
  cbn. repeat (destruct (String.eqb dir _)); intros H; inversion H; cbn; lia.
Qed.

Lemma walk_pause_bound_witness :
  examined_during start (walkNamespacePid host ∅ [pA; pB] 2 start).2
  ≤ (pauses_during start (walkNamespacePid host ∅ [pA; pB] 2 start).2 + 1) * (2 + 5).
Proof.
  refine (proj1 (walk_pause_bound host 2 5 [pA; pB] ∅ start _ _ _ host_dirs_bounded)).
  - lia.
  - lia.
  - unfold max_int. lia.
Defined.

(** C1 as the specification words it fails: with a budget of 2, a group of one
    process holding 5 descriptors is walked without a single pause, where
    [ceil(5/2) - 1 = 2] are claimed. *)
Lemma pauses_at_least_ceil_fails :
  examined_during start (walkNamespacePid host ∅ [pA] 2 start).2 = 5
  ∧ pauses_during start (walkNamespacePid host ∅ [pA] 2 start).2 = 0
  ∧ ¬ pauses_at_least_ceil host 2 [pA] ∅ start.
Proof.
  assert (examined_during start (walkNamespacePid host ∅ [pA] 2 start).2 = 5) as HM
    by (vm_compute; reflexivity).
  assert (pauses_during start (walkNamespacePid host ∅ [pA] 2 start).2 = 0) as HP
    by (vm_compute; reflexivity).
  split; [exact HM|]. split; [exact HP|].
  unfold pauses_at_least_ceil. cbn zeta. rewrite HM, HP.
  intros H. specialize (H ltac:(lia)). vm_compute in H. apply H. reflexivity.
Qed.

(** ** The number of table reads *)

Section TableReads.
Context (w : World).

Lemma walkLoop_count f K procs sockets c s :
  outside_walk f →
  count f (trace (walkLoop w K procs sockets c s).2) = count f (trace s).
Proof.
  intros (Htick & Hconn & Hfile & Hdir & Hstat).
  revert sockets c s. induction procs as [|p rest IH]; intros sockets c s;
    [reflexivity|].
  assert (Hfds : ∀ c0 s0,
    count f (trace (walk_fds w K p rest sockets c0 s0).2) = count f (trace s0)).
  { intros c0 s0. unfold walk_fds. cbn zeta.
    destruct (ReadDirNames w (now s0) _) as [|fds].
    - rewrite IH. cbn. rewrite Hdir. lia.
    - rewrite IH, fdLoop_count by exact Hstat. cbn. rewrite Hdir. lia. }
  rewrite walkLoop_cons. destruct (K <? c); [|apply Hfds]. cbn zeta.
  pose proof (readProcessConnections_count w f (p :: rest)
                (logged (EvTick RateLimit) s) Hfile) as Hr.
  rewrite Hconn in Hr. cbn in Hr. rewrite Htick in Hr.
  destruct (readProcessConnections w (p :: rest) _) as [[found err] s1].
  cbn [fst snd] in *. destruct (not_nil err || negb found); [exact Hr|].
  rewrite Hfds. exact Hr.
Qed.

Lemma walkNamespacePid_count f sockets procs K s :
  outside_walk f →
  count f (trace (walkNamespacePid w sockets procs K s).2) = count f (trace s).
Proof.
  intros Hf. pose proof Hf as (Htick & Hconn & Hfile & Hdir & Hstat).
  rewrite walkNamespacePid_eq. cbn zeta.
  pose proof (readProcessConnections_count w f procs s Hfile) as Hr.
  rewrite Hconn in Hr.
  destruct (readProcessConnections w procs s) as [[found err] s1].
  cbn [fst snd] in *. destruct (not_nil err || negb found); [exact Hr|].
  rewrite walkLoop_count by exact Hf. exact Hr.
Qed.

(** In the loop over the processes every pause is followed by one
    invocation of the reader, and the reader is invoked at no other place. *)
Lemma walkLoop_reads K procs sockets c s :
  let s' := (walkLoop w K procs sockets c s).2 in
  table_reads_during s s' = pauses_during s s'.
Proof.
  unfold table_reads_during, pauses_during.
  revert sockets c s. induction procs as [|p rest IH]; intros sockets c s.
  - rewrite walkLoop_nil. cbn. lia.
  - assert (Hfds : ∀ c0 s0,
      let s' := (walk_fds w K p rest sockets c0 s0).2 in
      count is_read_connections (trace s') - count is_read_connections (trace s0)
      = count is_pause (trace s') - count is_pause (trace s0)).
    { intros c0 s0. unfold walk_fds. cbn zeta.
      destruct (ReadDirNames w (now s0) _) as [|fds].
      - specialize (IH sockets c0 (logged (EvReadDirNames (fdBaseOf (procRoot s0) p)) s0)).
        cbn in IH. cbn. lia.
      - set (s1 := logged _ s0).
        pose proof (fdLoop_count w is_read_connections p (fdBaseOf (procRoot s0) p) fds
                      None sockets c0 s1 (λ _, eq_refl)) as Hrc.
        pose proof (fdLoop_count w is_pause p (fdBaseOf (procRoot s0) p) fds
                      None sockets c0 s1 (λ _, eq_refl)) as Hpa.
        destruct (fdLoop w p _ fds None sockets c0 s1) as [[sockets' c'] s2].
        cbn [fst snd] in *. specialize (IH sockets' c' s2). cbn zeta in IH.
        subst s1. cbn in Hrc, Hpa. lia. }
    rewrite walkLoop_cons. destruct (K <? c); [|apply Hfds]. cbn zeta.
    pose proof (readProcessConnections_count w is_read_connections (p :: rest)
                  (logged (EvTick RateLimit) s) (λ _, eq_refl)) as Hrc.
    pose proof (readProcessConnections_count w is_pause (p :: rest)
                  (logged (EvTick RateLimit) s) (λ _, eq_refl)) as Hpa.
    destruct (readProcessConnections w (p :: rest) _) as [[found err] s1].
    cbn in Hrc, Hpa. cbn [fst snd].
    destruct (not_nil err || negb found).
    + cbn [snd]. lia.
    + specialize (Hfds 0 s1). cbn zeta in Hfds. lia.
Qed.

Lemma walkNamespacePid_reads sockets procs K s :
  let s' := (walkNamespacePid w sockets procs K s).2 in
  table_reads_during s s' = 1 + pauses_during s s'.
Proof.
  cbn zeta. rewrite walkNamespacePid_eq. cbn zeta.
  unfold table_reads_during, pauses_during.
  pose proof (readProcessConnections_count w is_read_connections procs s
                (λ _, eq_refl)) as Hrc.
  pose proof (readProcessConnections_count w is_pause procs s (λ _, eq_refl)) as Hpa.
  destruct (readProcessConnections w procs s) as [[found err] s1].
  cbn in Hrc, Hpa. cbn [fst snd].
  destruct (not_nil err || negb found).
  - cbn [snd]. lia.
  - pose proof (walkLoop_reads K procs sockets 0 s1) as Hw. cbn zeta in Hw.
    unfold table_reads_during, pauses_during in Hw. lia.
Qed.

Lemma rangeLoop_reads K groups sockets s :
  let s' := (rangeLoop w K groups sockets s).2 in
  table_reads_during s s' = Z.of_nat (length groups) + pauses_during s s'
  ∧ group_ticks_during s s' = Z.of_nat (length groups).
Proof.
  cbn zeta. unfold table_reads_during, pauses_during, group_ticks_during.
  revert sockets s. induction groups as [|g groups IH]; intros sockets s.
  - rewrite rangeLoop_nil. cbn. lia.
  - rewrite rangeLoop_cons. cbn zeta.
    pose proof (walkNamespacePid_reads sockets g K (logged (EvTick GroupStart) s)) as Hr.
    pose proof (walkNamespacePid_count is_group_tick sockets g K
                  (logged (EvTick GroupStart) s)) as Hg.
    cbn zeta in Hr. unfold table_reads_during, pauses_during in Hr.
    destruct (walkNamespacePid w sockets g K _) as [[err sockets'] s1].
    cbn [fst snd] in *. specialize (IH sockets' s1). cbn in Hr, Hg.
    rewrite Hg in IH by (repeat split; reflexivity).
    cbn [length]. lia.
Qed.

(** The first traversal reads no table and waits for no tick. *)
Lemma getNetNamespacePathSuffix_count f s :
  f EvUname = false → (∀ x, f (EvLogError x) = false) →
  count f (trace (getNetNamespacePathSuffix w s).2) = count f (trace s).
Proof.
  intros Hu Hl. destruct (String.eqb_spec (netNamespacePathSuffix s) EmptyString) as [He|Hne].
  - rewrite getNetNamespacePathSuffix_first by exact He. cbn.
    destruct (detected w (now s)); cbn; rewrite ?Hu, ?Hl; lia.
  - rewrite getNetNamespacePathSuffix_memo by exact Hne. reflexivity.
Qed.

Lemma groupLoop_count f walked namespaces s :
  f EvUname = false → (∀ x, f (EvLogError x) = false) →
  (∀ x, f (EvStat x) = false) →
  count f (trace (groupLoop w walked namespaces s).2) = count f (trace s).
Proof.
  intros Hu Hl Hs. revert namespaces s.
  induction walked as [|p rest IH]; intros namespaces s; [reflexivity|].
  rewrite groupLoop_cons. cbn zeta.
  pose proof (getNetNamespacePathSuffix_count f s Hu Hl) as Hc.
  destruct (getNetNamespacePathSuffix w s) as [suffix s1]. cbn [fst snd] in *.
  destruct (Stat w (now s1) _) as [|statT]; rewrite IH; cbn;
    rewrite Hs; lia.
Qed.

End TableReads.

Lemma go_range_length range (m : gmap Z (list Process)) :
  go_range range → length (range m) = size m.
Proof.
  intros Hr. rewrite (Permutation_length (Hr m)). apply length_map_to_list.
Qed.

(** C3, as amended.  In a scan the reader [readProcessConnections] is invoked
    once for each namespace group, after the tick that opens the group, and
    once more after every rate-limit pause: the number of invocations is the
    number of groups plus the number of pauses, and it is the number of groups
    when no pause occurs. *)
Theorem table_reads_per_scan (w : World) (walked : list Process)
    (range : gmap Z (list Process) → list (Z * list Process)) (K : Z) (s : State) :
  go_range range →
  let groups := Z.of_nat (size (groupLoop w walked ∅ s).1) in
  let s' := (walkProcPid w walked range K s).2 in
  table_reads_during s s' = groups + pauses_during s s'
  ∧ group_ticks_during s s' = groups
  ∧ (pauses_during s s' = 0 → table_reads_during s s' = groups).
Proof.
  intros Hrange groups s'.
  assert (table_reads_during s s' = groups + pauses_during s s'
          ∧ group_ticks_during s s' = groups) as [Hreads Hticks]; [|lia].
  subst groups s'. rewrite walkProcPid_eq. cbn zeta.
  pose proof (groupLoop_count w is_read_connections walked ∅ s eq_refl
                (λ _, eq_refl) (λ _, eq_refl)) as Hrc.
  pose proof (groupLoop_count w is_pause walked ∅ s eq_refl
                (λ _, eq_refl) (λ _, eq_refl)) as Hpa.
  pose proof (groupLoop_count w is_group_tick walked ∅ s eq_refl
                (λ _, eq_refl) (λ _, eq_refl)) as Hgt.
  destruct (groupLoop w walked ∅ s) as [namespaces s1]. cbn [fst snd] in *.
  pose proof (rangeLoop_reads w K ((range namespaces).*2) ∅ s1) as Hr.
  cbn zeta in Hr. rewrite length_fmap, (go_range_length _ _ Hrange) in Hr.
  unfold table_reads_during, pauses_during, group_ticks_during in *.
  destruct (rangeLoop w K _ ∅ s1) as [sockets s2]. cbn [fst snd] in *.
  cbn. lia.
Qed.

Lemma map_to_list_go_range : go_range map_to_list.
Proof. intros m. reflexivity. Qed.

Lemma table_reads_per_scan_witness :
  table_reads_during start (walkProcPid host [pA; pB; pC] map_to_list 2 start).2
  = Z.of_nat (size (groupLoop host [pA; pB; pC] ∅ start).1)
    + pauses_during start (walkProcPid host [pA; pB; pC] map_to_list 2 start).2.
Proof.
  exact (proj1 (table_reads_per_scan host [pA; pB; pC] map_to_list 2 start
                  map_to_list_go_range)).
Defined.

(** C3 as the specification words it fails: processes 100 and 200 form one
    group, and with a budget of 2 the table of the group is read before the
    walk and again after the pause that follows the 5 descriptors of 100; with
    the group of 300 that makes 3 reads for 2 groups. *)
Lemma one_read_per_group_fails :
  size (groupLoop host [pA; pB; pC] ∅ start).1 = 2%nat
  ∧ table_reads_during start (walkProcPid host [pA; pB; pC] map_to_list 2 start).2 = 3
  ∧ ¬ one_read_per_group host [pA; pB; pC] map_to_list 2 start.
Proof.
  assert (size (groupLoop host [pA; pB; pC] ∅ start).1 = 2%nat) as Hg
    by (vm_compute; reflexivity).
  assert (table_reads_during start
            (walkProcPid host [pA; pB; pC] map_to_list 2 start).2 = 3) as Hr
    by (vm_compute; reflexivity).
  split; [exact Hg|]. split; [exact Hr|].
  unfold one_read_per_group. rewrite Hg, Hr. lia.
Qed.

(** ** What the program does to the state *)

Section Steps.
Context (w : World) (b : bool).

Lemma after_member_steps p s : rtc (step w b) s (after_member w p s).
Proof.
  unfold after_member. eapply rtc_l; [apply step_read|].
  apply rtc_once, step_read.
Qed.

Lemma readLoop_steps procs e e6 s : rtc (step w b) s (readLoop w procs e e6 s).2.
Proof.
  revert e e6 s. induction procs as [|p rest IH]; intros e e6 s.
  - rewrite readLoop_nil. apply rtc_refl.
  - rewrite readLoop_cons. destruct (member_fails _ _ _ _).
    + eapply rtc_trans; [apply after_member_steps|apply IH].
    + apply after_member_steps.
Qed.

Lemma readProcessConnections_steps procs s :
  rtc (step w b) s (readProcessConnections w procs s).2.
Proof.
  rewrite readProcessConnections_eq.
  eapply rtc_l; [apply (step_log w b EvReadConnections); reflexivity|].
  apply readLoop_steps.
Qed.

Lemma fdLoop_steps p base fds proc sockets c s :
  rtc (step w b) s (fdLoop w p base fds proc sockets c s).2.
Proof.
  revert proc sockets c s.
  induction fds as [|fd fds IH]; intros proc sockets c s; [apply rtc_refl|].
  rewrite fdLoop_cons. cbn zeta.
  destruct (Stat w (now s) _) as [|statT]; [|destruct (is_socket statT)];
    (eapply rtc_l; [apply (step_log w b (EvStat (Join [base; fd]))); reflexivity|];
     apply IH).
Qed.

Lemma walkLoop_steps K procs sockets c s :
  rtc (step w b) s (walkLoop w K procs sockets c s).2.
Proof.
  revert sockets c s. induction procs as [|p rest IH]; intros sockets c s;
    [apply rtc_refl|].
  assert (Hfds : ∀ c0 s0, rtc (step w b) s0 (walk_fds w K p rest sockets c0 s0).2).
  { intros c0 s0. unfold walk_fds. cbn zeta.
    eapply rtc_l; [apply step_log with (e := EvReadDirNames (fdBaseOf (procRoot s0) p));
                   reflexivity|].
    destruct (ReadDirNames w (now s0) _) as [|fds]; [apply IH|].
    eapply rtc_trans; [apply fdLoop_steps|apply IH]. }
  rewrite walkLoop_cons. destruct (K <? c); [|apply Hfds]. cbn zeta.
  eapply rtc_l; [apply step_log with (e := EvTick RateLimit); reflexivity|].
  eapply rtc_trans; [apply readProcessConnections_steps|].
  destruct (not_nil _ || negb _); [apply rtc_refl|apply Hfds].
Qed.

Lemma walkNamespacePid_steps sockets procs K s :
  rtc (step w b) s (walkNamespacePid w sockets procs K s).2.
Proof.
  rewrite walkNamespacePid_eq. cbn zeta.
  eapply rtc_trans; [apply readProcessConnections_steps|].
  destruct (not_nil _ || negb _); [apply rtc_refl|apply walkLoop_steps].
Qed.

Lemma rangeLoop_steps K groups sockets s :
  rtc (step w b) s (rangeLoop w K groups sockets s).2.
Proof.
  revert sockets s. induction groups as [|g groups IH]; intros sockets s;
    [apply rtc_refl|].
  rewrite rangeLoop_cons. cbn zeta.
  eapply rtc_l; [apply step_log with (e := EvTick GroupStart); reflexivity|].
  eapply rtc_trans; [apply walkNamespacePid_steps|apply IH].
Qed.

(** What no step changes. *)
Lemma steps_procRoot s s' : rtc (step w b) s s' → procRoot s' = procRoot s.
Proof.
  induction 1 as [|s s1 s' Hstep _ IH]; [reflexivity|].
  rewrite IH. destruct Hstep; reflexivity.
Qed.

Lemma steps_suffix s s' :
  b = false → rtc (step w b) s s' →
  netNamespacePathSuffix s' = netNamespacePathSuffix s.
Proof.
  intros Hb. induction 1 as [|s s1 s' Hstep _ IH]; [reflexivity|].
  rewrite IH. destruct Hstep; [reflexivity|reflexivity|congruence].
Qed.

Lemma steps_buffer_prefix s s' : rtc (step w b) s s' → buf s `prefix_of` buf s'.
Proof.
  induction 1 as [|s s1 s' Hstep _ IH]; [reflexivity|].
  etrans; [|exact IH]. destruct Hstep; cbn; [reflexivity| |reflexivity].
  apply prefix_app_r. reflexivity.
Qed.

Lemma steps_buffer_logged b0 s s' :
  rtc (step w b) s s' → buffer_logged w b0 s → buffer_logged w b0 s'.
Proof.
  unfold buffer_logged.
  induction 1 as [|s s1 s' Hstep _ IH]; [auto|]. intros Hs. apply IH.
  destruct Hstep as [e s He|f s|x s]; cbn.
  - rewrite Hs. destruct e; try discriminate; rewrite app_nil_r; reflexivity.
  - rewrite Hs, app_assoc. reflexivity.
  - exact Hs.
Qed.

Lemma rangeLoop_app K pre post sockets s :
  rangeLoop w K (pre ++ post) sockets s
  = rangeLoop w K post (rangeLoop w K pre sockets s).1 (rangeLoop w K pre sockets s).2.
Proof.
  revert sockets s. induction pre as [|g pre IH]; intros sockets s; [reflexivity|].
  cbn [app]. rewrite !rangeLoop_cons. cbn zeta. apply IH.
Qed.

End Steps.

Section ResolverSteps.
Context (w : World).

Lemma getNetNamespacePathSuffix_steps s :
  rtc (step w true) s (getNetNamespacePathSuffix w s).2.
Proof.
  destruct (String.eqb_spec (netNamespacePathSuffix s) EmptyString) as [He|Hne].
  - rewrite getNetNamespacePathSuffix_first by exact He. cbn [snd].
    unfold after_probe.
    eapply rtc_l; [apply step_log with (e := EvUname); reflexivity|].
    destruct (detected w (now s)) as [err|v].
    + eapply rtc_l; [apply step_log with (e := EvLogError err); reflexivity|].
      apply rtc_once. apply (step_memo w true (resolve w (now s))). reflexivity.
    + apply rtc_once. apply (step_memo w true (resolve w (now s))). reflexivity.
  - rewrite getNetNamespacePathSuffix_memo by exact Hne. apply rtc_refl.
Qed.

Lemma groupLoop_steps walked namespaces s :
  rtc (step w true) s (groupLoop w walked namespaces s).2.
Proof.
  revert namespaces s. induction walked as [|p rest IH]; intros namespaces s;
    [apply rtc_refl|].
  rewrite groupLoop_cons. cbn zeta.
  eapply rtc_trans; [apply getNetNamespacePathSuffix_steps|].
  set (x := Join _).
  eapply rtc_l; [apply step_log with (e := EvStat x); reflexivity|].
  destruct (Stat w _ x); apply IH.
Qed.

Lemma groupLoop_procRoot walked namespaces s :
  procRoot (groupLoop w walked namespaces s).2 = procRoot s.
Proof. apply (steps_procRoot w true), groupLoop_steps. Qed.

End ResolverSteps.

(** ** The shared buffer *)

(** C2, as amended.  Within a scan the buffer is never cleared: a read of a
    table appends to it and nothing else touches it.  When the groups [pre]
    have been processed and the first group of [post] is about to be read, the
    buffer holds what it held before, as a prefix, followed by every byte read
    for [pre], in the order of the reads. *)
Theorem buffer_accumulates (w : World) (K : Z) (pre post : list (list Process))
    (sockets : gmap Z Proc) (s : State) (b0 : list byte) :
  buffer_logged w b0 s →
  let mid := rangeLoop w K pre sockets s in
  rangeLoop w K (pre ++ post) sockets s = rangeLoop w K post mid.1 mid.2
  ∧ buffer_logged w b0 mid.2
  ∧ buf s `prefix_of` buf mid.2.
Proof.
  intros Hlog mid. split; [apply rangeLoop_app|].
  pose proof (rangeLoop_steps w false K pre sockets s) as Hsteps. fold mid in Hsteps.
  split.
  - eapply steps_buffer_logged; eassumption.
  - apply (steps_buffer_prefix w false). exact Hsteps.
Qed.

Lemma buffer_accumulates_witness :
  buffer_logged host [] start
  ∧ buf (rangeLoop host 2 [[pA; pB]] ∅ start).2
    = [] ++ bytes_read host (trace (rangeLoop host 2 [[pA; pB]] ∅ start).2).
Proof.
  split; [reflexivity|].
  exact (proj1 (proj2 (buffer_accumulates host 2 [[pA; pB]] [[pC]] ∅ start []
                         eq_refl))).
Defined.

(** C2 as the specification words it fails: after the group of 100 and 200,
    when the group of 300 is about to be read, the buffer that was empty holds
    the table of the first group, twice, since it was read again after the
    pause. *)
Lemma cleared_after_group_fails :
  buf (rangeLoop host 2 [[pA; pB]] ∅ start).2
  = String.list_byte_of_string "sl 0sl 0"
  ∧ ¬ cleared_after_group host 2 [pA; pB] ∅ start.
Proof.
  assert (buf (rangeLoop host 2 [[pA; pB]] ∅ start).2
          = String.list_byte_of_string "sl 0sl 0") as Hbuf
    by (vm_compute; reflexivity).
  split; [exact Hbuf|]. unfold cleared_after_group. rewrite Hbuf. discriminate.
Qed.

(** ** The result map *)

Section ResultMap.
Context (w : World).

(** The walk only adds keys. *)
Lemma fdLoop_dom p base fds proc sockets c s :
  dom sockets ⊆ dom (fdLoop w p base fds proc sockets c s).1.1.
Proof.
  revert proc sockets c s.
  induction fds as [|fd fds IH]; intros proc sockets c s; [reflexivity|].
  rewrite fdLoop_cons. cbn zeta.
  destruct (Stat w (now s) _) as [|statT]; [apply IH|].
  destruct (is_socket statT); [|apply IH].
  etrans; [|apply IH]. apply dom_insert_subseteq.
Qed.

Lemma walkLoop_dom K procs sockets c s :
  dom sockets ⊆ dom (walkLoop w K procs sockets c s).1.2.
Proof.
  revert sockets c s. induction procs as [|p rest IH]; intros sockets c s;
    [reflexivity|].
  assert (Hfds : ∀ c0 s0, dom sockets ⊆ dom (walk_fds w K p rest sockets c0 s0).1.2).
  { intros c0 s0. unfold walk_fds. cbn zeta.
    destruct (ReadDirNames w (now s0) _) as [|fds]; [apply IH|].
    etrans; [|apply IH]. apply fdLoop_dom. }
  rewrite walkLoop_cons. destruct (K <? c); [|apply Hfds]. cbn zeta.
  destruct (not_nil _ || negb _); [reflexivity|apply Hfds].
Qed.

Lemma walkNamespacePid_dom sockets procs K s :
  dom sockets ⊆ dom (walkNamespacePid w sockets procs K s).1.2.
Proof.
  rewrite walkNamespacePid_eq. cbn zeta.
  destruct (not_nil _ || negb _); [reflexivity|apply walkLoop_dom].
Qed.

Lemma rangeLoop_dom K groups sockets s :
  dom sockets ⊆ dom (rangeLoop w K groups sockets s).1.
Proof.
  revert sockets s. induction groups as [|g groups IH]; intros sockets s;
    [reflexivity|].
  rewrite rangeLoop_cons. cbn zeta.
  etrans; [|apply IH]. apply walkNamespacePid_dom.
Qed.

(** Every entry the descriptor loop adds comes from a stat, made during the
    loop, that answered with the file type socket. *)
Lemma fdLoop_entries (P : Z → Proc → Prop) p base fds proc sockets c s :
  proc = None ∨ proc = Some (owner_of p) →
  (∀ fd t statT, fd ∈ fds → (now s ≤ t)%nat →
     Stat w t (Join [base; fd]) = inr statT →
     Z.land (Mode statT) S_IFMT = S_IFSOCK → P (Ino statT) (owner_of p)) →
  map_Forall P sockets →
  map_Forall P (fdLoop w p base fds proc sockets c s).1.1.
Proof.
  revert proc sockets c s.
  induction fds as [|fd fds IH]; intros proc sockets c s Hproc Hseen HP;
    [exact HP|].
  rewrite fdLoop_cons. cbn zeta.
  assert (Hlater : ∀ fd' t statT, fd' ∈ fds →
            (now (logged (EvStat (Join [base; fd])) s) ≤ t)%nat →
            Stat w t (Join [base; fd']) = inr statT →
            Z.land (Mode statT) S_IFMT = S_IFSOCK → P (Ino statT) (owner_of p)).
  { intros fd' t statT Hin Ht. apply Hseen; [right; exact Hin|].
    cbn in Ht. unfold now. lia. }
  destruct (Stat w (now s) _) as [|statT] eqn:Hstat; [apply IH; assumption|].
  unfold is_socket. destruct (Z.eqb_spec (Z.land (Mode statT) S_IFMT) S_IFSOCK)
    as [Hsock|Hother]; [|apply IH; assumption].
  assert (default (owner_of p) proc = owner_of p) as ->
    by (destruct Hproc as [->| ->]; reflexivity).
  apply IH; [right; reflexivity|exact Hlater|].
  apply map_Forall_insert_2; [|exact HP].
  apply (Hseen fd (now s) statT); [left|lia|exact Hstat|exact Hsock].
Qed.

Lemma walkLoop_entries (P : Z → Proc → Prop) K procs sockets c s :
  (∀ p ino, p ∈ procs → observed_socket w (procRoot s) p ino →
            P ino (owner_of p)) →
  map_Forall P sockets →
  map_Forall P (walkLoop w K procs sockets c s).1.2.
Proof.
  revert sockets c s.
  induction procs as [|p rest IH]; intros sockets c s Hseen HP; [exact HP|].
  assert (Hfds : ∀ c0 s0, procRoot s0 = procRoot s →
            map_Forall P (walk_fds w K p rest sockets c0 s0).1.2).
  { intros c0 s0 Hroot. unfold walk_fds. cbn zeta. rewrite Hroot.
    set (s1 := logged _ s0).
    assert (procRoot s1 = procRoot s) as Hroot1 by exact Hroot.
    destruct (ReadDirNames w (now s0) _) as [|fds] eqn:Hls.
    - apply IH; [|exact HP]. rewrite Hroot1.
      intros q ino Hq. apply Hseen. right. exact Hq.
    - pose proof (fdLoop_entries P p (fdBaseOf (procRoot s) p) fds None sockets c0 s1)
        as Hfd.
      pose proof (fdLoop_procRoot w p (fdBaseOf (procRoot s) p) fds None sockets c0 s1)
        as Hroot2.
      destruct (fdLoop w p _ fds None sockets c0 s1) as [[sockets' c'] s2].
      cbn [fst snd] in *. apply IH.
      + rewrite Hroot2, Hroot1. intros q ino Hq. apply Hseen. right. exact Hq.
      + apply Hfd; [left; reflexivity| |exact HP].
        intros fd t statT Hin Ht Hstat Hsock. apply Hseen; [left|].
        exists (now s0), fds, fd, t, statT. subst s1. cbn in Ht.
        repeat split; assumption. }
  rewrite walkLoop_cons. destruct (K <? c); [|apply Hfds; reflexivity]. cbn zeta.
  destruct (not_nil _ || negb _); [exact HP|]. apply Hfds.
  rewrite readProcessConnections_procRoot. reflexivity.
Qed.

Lemma rangeLoop_entries K all groups sockets s :
  groups ⊆ all →
  map_Forall (attributed w (procRoot s) all) sockets →
  map_Forall (attributed w (procRoot s) all) (rangeLoop w K groups sockets s).1.
Proof.
  revert sockets s. induction groups as [|g groups IH]; intros sockets s Hsub HP;
    [exact HP|].
  rewrite rangeLoop_cons. cbn zeta. set (s1 := logged (EvTick GroupStart) s).
  pose proof (walkNamespacePid_steps w false sockets g K s1) as Hsteps.
  apply steps_procRoot in Hsteps.
  assert (map_Forall (attributed w (procRoot s) all)
            (walkNamespacePid w sockets g K s1).1.2) as Hg.
  { rewrite walkNamespacePid_eq. cbn zeta.
    pose proof (readProcessConnections_procRoot w g s1) as Hroot.
    destruct (readProcessConnections w g s1) as [[found err] s2] eqn:Hread.
    cbn [fst snd] in *. destruct err as [e|]; [exact HP|].
    destruct found; [|exact HP]. cbn [not_nil negb orb].
    apply walkLoop_entries; [|exact HP].
    intros p ino Hp Hobs. exists g, p.
    rewrite Hroot in Hobs. repeat split; try assumption.
    - apply Hsub. left.
    - exists s1. split; [reflexivity|]. rewrite Hread. reflexivity. }
  replace (procRoot s) with (procRoot (walkNamespacePid w sockets g K s1).2)
    by exact Hsteps.
  apply IH.
  - intros x Hx. apply Hsub. right. exact Hx.
  - rewrite Hsteps. exact Hg.
Qed.

End ResultMap.

(** An iteration that goes on leaves the walk at the head of the next one,
    with a map that has the keys it had. *)
Lemma iteration_walkLoop (w : World) K p rest sockets c s next :
  iteration w K p rest sockets c s = Some next →
  walkLoop w K (p :: rest) sockets c s = walkLoop w K rest next.1.1 next.1.2 next.2
  ∧ dom sockets ⊆ dom next.1.1.
Proof.
  assert (Hfds : ∀ c0 s0 next0,
    match ReadDirNames w (now s0) (fdBaseOf (procRoot s0) p) with
    | inl _ => (sockets, c0, logged (EvReadDirNames (fdBaseOf (procRoot s0) p)) s0)
    | inr fds =>
        fdLoop w p (fdBaseOf (procRoot s0) p) fds None sockets c0
          (logged (EvReadDirNames (fdBaseOf (procRoot s0) p)) s0)
    end = next0 →
    walk_fds w K p rest sockets c0 s0 = walkLoop w K rest next0.1.1 next0.1.2 next0.2
    ∧ dom sockets ⊆ dom next0.1.1).
  { intros c0 s0 next0 <-. unfold walk_fds. cbn zeta.
    destruct (ReadDirNames w (now s0) _) as [|fds]; [split; reflexivity|].
    split; [reflexivity|apply fdLoop_dom]. }
  unfold iteration. rewrite walkLoop_cons. cbn zeta.
  destruct (K <? c); [|intros [= <-]; apply Hfds; reflexivity].
  destruct (not_nil _ || negb _); [discriminate|].
  intros [= <-]. apply Hfds. reflexivity.
Qed.

Lemma arrives_walkLoop (w : World) K h h' :
  arrives w K h h' →
  walkLoop w K h.1.1.1 h.1.1.2 h.1.2 h.2 = walkLoop w K h'.1.1.1 h'.1.1.2 h'.1.2 h'.2
  ∧ dom h.1.1.2 ⊆ dom h'.1.1.2.
Proof.
  induction 1 as [h|p rest sockets c s next h Hit _ [Hgo' Hdom']]; [split; reflexivity|].
  destruct (iteration_walkLoop w K p rest sockets c s next Hit) as [Hgo Hdom].
  cbn [fst snd] in *. split; [congruence|]. etrans; eassumption.
Qed.

(** C5. Take a group [g] of a scan, whose walk starts with the map [sockets0]
    after the tick that opens the group and a read of the tables that reports
    connections.  Let the walk arrive, after some iterations none of which
    returned, at the head of an iteration with the map [acc] accumulated so far
    and the counter above the budget: it waits for a tick and reads the tables
    again for the processes that remain.  If that read returns an error or
    reports no connection, the walk of the group returns with that error (nil
    for an empty table) and with [acc]: the entries it was given and those it
    added are all there, and after the pause no descriptor directory is listed
    and no descriptor examined.  The scan drops the error and goes on from
    [acc] with the groups that remain, each of which gets its tick, and every
    key accumulated is a key of the result of the scan. *)
Theorem soft_stop_keeps_entries (w : World) (K : Z) (g : list Process)
    (groups : list (list Process)) (sockets0 : gmap Z Proc) (s0 : State)
    (p : Process) (rest : list Process) (acc : gmap Z Proc) (c : Z) (s : State) :
  let s1 := logged (EvTick GroupStart) s0 in
  let first := readProcessConnections w g s1 in
  first.1 = (true, None) →
  arrives w K (g, sockets0, 0, first.2) (p :: rest, acc, c, s) →
  K < c →
  let r := readProcessConnections w (p :: rest) (logged (EvTick RateLimit) s) in
  r.1.2 ≠ None ∨ r.1.1 = false →
  let scan := rangeLoop w K (g :: groups) sockets0 s0 in
  walkNamespacePid w sockets0 g K s1 = ((r.1.2, acc), r.2)
  ∧ count is_fd_access (trace r.2) = count is_fd_access (trace s)
  ∧ dom sockets0 ⊆ dom acc
  ∧ scan = rangeLoop w K groups acc r.2
  ∧ dom acc ⊆ dom scan.1
  ∧ group_ticks_during r.2 scan.2 = Z.of_nat (length groups).
Proof.
  intros s1 first Hfirst Harrives Hc r Hstop scan.
  destruct (arrives_walkLoop w K _ _ Harrives) as [Hgo Hdom]. cbn [fst snd] in Hgo, Hdom.
  assert (walkLoop w K (p :: rest) acc c s = ((r.1.2, acc), r.2)) as Hreturn.
  { rewrite walkLoop_cons. apply Z.ltb_lt in Hc. rewrite Hc. cbn zeta. fold r.
    destruct Hstop as [Herr| ->].
    - destruct (r.1.2); [reflexivity|contradiction].
    - rewrite orb_true_r. reflexivity. }
  assert (walkNamespacePid w sockets0 g K s1 = ((r.1.2, acc), r.2)) as Hwalk.
  { rewrite walkNamespacePid_eq. cbn zeta. fold first.
    destruct first as [[found err] s2]. cbn [fst snd] in *.
    injection Hfirst as -> ->. cbn [not_nil negb orb]. congruence. }
  assert (scan = rangeLoop w K groups acc r.2) as Hscan.
  { subst scan. rewrite rangeLoop_cons. cbn zeta. fold s1. rewrite Hwalk. reflexivity. }
  split; [exact Hwalk|]. split.
  { subst r. rewrite readProcessConnections_count by reflexivity. reflexivity. }
  split; [exact Hdom|]. split; [exact Hscan|]. rewrite Hscan. split.
  - apply rangeLoop_dom.
  - apply rangeLoop_reads.
Qed.

Lemma soft_stop_keeps_entries_witness :
  let acc : gmap Z Proc :=
    {[9001 := owner_of pA; 9002 := owner_of pA; 9003 := owner_of pA;
      9999 := owner_of pA]} in
  (walkNamespacePid host_unreadable ∅ [pA; pB] 2 (logged (EvTick GroupStart) start)).1
  = (Some ENOENT, acc)
  ∧ dom (∅ : gmap Z Proc) ⊆ dom acc
  ∧ dom acc ⊆ dom (rangeLoop host_unreadable 2 [[pA; pB]; [pC]] ∅ start).1.
Proof.
  intros acc.
  pose (first := readProcessConnections host_unreadable [pA; pB]
                   (logged (EvTick GroupStart) start)).
  pose (next := fdLoop host_unreadable pA (fdBaseOf "/proc" pA) ["0"; "1"; "2"; "3"; "4"]
                  None ∅ 0 (logged (EvReadDirNames (fdBaseOf "/proc" pA)) first.2)).
  assert (iteration host_unreadable 2 pA [pB] ∅ 0 first.2 = Some next) as Hit
    by (vm_compute; reflexivity).
  assert (next.1.1 = acc) as Hacc by (vm_compute; reflexivity).
  assert (next.1.2 = 5) as Hcount by (vm_compute; reflexivity).
  pose proof (soft_stop_keeps_entries host_unreadable 2 [pA; pB] [[pC]] ∅ start
                pB [] next.1.1 next.1.2 next.2 eq_refl
                (arrives_next _ _ _ _ _ _ _ _ _ Hit (arrives_here _ _ _))) as H.
  rewrite Hcount in H. specialize (H ltac:(lia)).
  destruct (H ltac:(left; vm_compute; discriminate)) as (Hwalk & _ & Hdom & _ & Hkeys & _).
  rewrite Hacc in Hwalk, Hdom, Hkeys. split; [|split; assumption].
  rewrite Hwalk. vm_compute. reflexivity.
Defined.

(** C6. Every key of the map a scan returns is the inode of a descriptor that
    was listed in the descriptor directory of a process and whose stat answered
    with the file type socket ([Mode & S_IFMT = S_IFSOCK]); the value is the
    owner record of that process, and the process is a member of a visited
    group for which a read of the tables reported connections.  So an inode that
    no stat reports with the file type socket is no key of the result, whatever
    descriptors of other types carry it. *)
Theorem result_keys_are_sockets (w : World) (walked : list Process)
    (range : gmap Z (list Process) → list (Z * list Process)) (K : Z) (s : State) :
  let result := (walkProcPid w walked range K s).1.1 in
  let groups := (range (groupLoop w walked ∅ s).1).*2 in
  (∀ ino owner, result !! ino = Some owner →
     attributed w (procRoot s) groups ino owner)
  ∧ (∀ ino,
       (∀ t path statT, Stat w t path = inr statT → Ino statT = ino →
                        Z.land (Mode statT) S_IFMT ≠ S_IFSOCK) →
       result !! ino = None).
Proof.
  intros result groups.
  assert (∀ ino owner, result !! ino = Some owner →
            attributed w (procRoot s) groups ino owner) as Hkeys.
  { subst result groups. rewrite walkProcPid_eq. cbn zeta. cbn [fst].
    rewrite <- (groupLoop_procRoot w walked ∅ s).
    apply (rangeLoop_entries w K _ _ ∅ (groupLoop w walked ∅ s).2).
    - reflexivity.
    - apply map_Forall_empty. }
  split; [exact Hkeys|]. intros ino Hnone.
  destruct (result !! ino) as [owner|] eqn:Hlook; [|reflexivity].
  destruct (Hkeys ino owner Hlook)
    as (g & p & _ & _ & _ & _ & t0 & fds & fd & t & statT & _ & _ & _ & Hstat & Hsock & Hino).
  exfalso. exact (Hnone t _ statT Hstat Hino Hsock).
Qed.

Lemma result_keys_are_sockets_witness :
  attributed host "/proc" ((map_to_list (groupLoop host [pA; pB; pC] ∅ start).1).*2)
    9100 (owner_of pB).
Proof.
  apply (proj1 (result_keys_are_sockets host [pA; pB; pC] map_to_list 2 start)).
  vm_compute. reflexivity.
Defined.

(** ** Scanning a world that does not change *)

Section Static.
Context (w : World) (Hstatic : static w).

Lemma static_OpenRead t t' x : OpenRead w t x = OpenRead w t' x.
Proof. apply (Hstatic t t'). Qed.

Lemma static_ReadDirNames t t' x : ReadDirNames w t x = ReadDirNames w t' x.
Proof. apply (Hstatic t t'). Qed.

Lemma static_Stat t t' x : Stat w t x = Stat w t' x.
Proof. apply (Hstatic t t'). Qed.

Lemma static_resolve t t' : resolve w t = resolve w t'.
Proof.
  unfold resolve, detected. destruct (Hstatic t t') as [-> _]. reflexivity.
Qed.

Lemma static_member_errors t t' root p :
  member_errors w t root p = member_errors w t' root p.
Proof.
  unfold member_errors.
  rewrite (static_OpenRead t t'), (static_OpenRead (S t) (S t')). reflexivity.
Qed.

Lemma static_member_fails t t' root p :
  member_fails w t root p = member_fails w t' root p.
Proof. unfold member_fails. rewrite (static_member_errors t t'). reflexivity. Qed.

Lemma static_member_bytes t t' root p :
  member_bytes w t root p = member_bytes w t' root p.
Proof.
  unfold member_bytes.
  rewrite (static_OpenRead t t'), (static_OpenRead (S t) (S t')). reflexivity.
Qed.

(** What the reader returns depends on the proc root only. *)
Lemma readLoop_static procs e e6 s s' :
  procRoot s = procRoot s' →
  (readLoop w procs e e6 s).1 = (readLoop w procs e e6 s').1.
Proof.
  revert e e6 s s'. induction procs as [|p rest IH]; intros e e6 s s' Hroot.
  - rewrite !readLoop_nil. reflexivity.
  - rewrite !readLoop_cons. rewrite <- Hroot.
    rewrite (static_member_fails (now s') (now s)),
      (static_member_errors (now s') (now s)),
      (static_member_bytes (now s') (now s)).
    destruct (member_fails _ _ _ _); [|reflexivity].
    apply IH. rewrite !procRoot_after_member. exact Hroot.
Qed.

Lemma readProcessConnections_static procs s s' :
  procRoot s = procRoot s' →
  (readProcessConnections w procs s).1 = (readProcessConnections w procs s').1.
Proof. intros Hroot. rewrite !readProcessConnections_eq. apply readLoop_static, Hroot. Qed.

(** The walk of a group adds its entries on top of the map it is given, and
    which entries it adds does not depend on that map nor on the state. *)
Lemma fdLoop_union p base fds proc (A B : gmap Z Proc) c s s' :
  (fdLoop w p base fds proc (A ∪ B) c s).1
  = ((fdLoop w p base fds proc A c s').1.1 ∪ B,
     (fdLoop w p base fds proc A c s').1.2).
Proof.
  revert proc A c s s'. induction fds as [|fd fds IH]; intros proc A c s s';
    [reflexivity|].
  rewrite !fdLoop_cons. cbn zeta. rewrite (static_Stat (now s') (now s)).
  destruct (Stat w (now s) _) as [|statT]; [apply IH|].
  destruct (is_socket statT); [|apply IH].
  rewrite insert_union_l. apply IH.
Qed.

Lemma walkLoop_union K procs (A B : gmap Z Proc) c s s' :
  procRoot s = procRoot s' →
  (walkLoop w K procs (A ∪ B) c s).1
  = ((walkLoop w K procs A c s').1.1, (walkLoop w K procs A c s').1.2 ∪ B).
Proof.
  revert A c s s'. induction procs as [|p rest IH]; intros A c s s' Hroot;
    [reflexivity|].
  assert (Hfds : ∀ c0 s0 s0', procRoot s0 = procRoot s0' →
    (walk_fds w K p rest (A ∪ B) c0 s0).1
    = ((walk_fds w K p rest A c0 s0').1.1, (walk_fds w K p rest A c0 s0').1.2 ∪ B)).
  { intros c0 s0 s0' Hroot0. unfold walk_fds. cbn zeta. rewrite <- Hroot0.
    rewrite (static_ReadDirNames (now s0') (now s0)).
    destruct (ReadDirNames w (now s0) _) as [|fds]; [apply IH; exact Hroot0|].
    set (base := fdBaseOf (procRoot s0) p).
    set (s1 := logged (EvReadDirNames base) s0).
    set (s1' := logged (EvReadDirNames base) s0').
    pose proof (fdLoop_union p base fds None A B c0 s1 s1') as Hfd.
    pose proof (fdLoop_procRoot w p base fds None (A ∪ B) c0 s1) as Hr1.
    pose proof (fdLoop_procRoot w p base fds None A c0 s1') as Hr1'.
    destruct (fdLoop w p base fds None (A ∪ B) c0 s1) as [[m1 c1] s2].
    destruct (fdLoop w p base fds None A c0 s1') as [[m1' c1'] s2'].
    cbn [fst snd] in *. injection Hfd as -> ->.
    apply IH. rewrite Hr1, Hr1'. exact Hroot0. }
  rewrite !walkLoop_cons. destruct (K <? c); [|apply Hfds; exact Hroot]. cbn zeta.
  set (s1 := logged (EvTick RateLimit) s).
  set (s1' := logged (EvTick RateLimit) s').
  pose proof (readProcessConnections_static (p :: rest) s1 s1' Hroot) as Hval.
  pose proof (readProcessConnections_procRoot w (p :: rest) s1) as Hr1.
  pose proof (readProcessConnections_procRoot w (p :: rest) s1') as Hr1'.
  destruct (readProcessConnections w (p :: rest) s1) as [[found err] s2].
  destruct (readProcessConnections w (p :: rest) s1') as [[found' err'] s2'].
  cbn [fst snd] in *. injection Hval as -> ->.
  destruct (not_nil err' || negb found'); [reflexivity|].
  apply Hfds. rewrite Hr1, Hr1'. exact Hroot.
Qed.

Lemma walkNamespacePid_union (A B : gmap Z Proc) procs K s s' :
  procRoot s = procRoot s' →
  (walkNamespacePid w (A ∪ B) procs K s).1
  = ((walkNamespacePid w A procs K s').1.1,
     (walkNamespacePid w A procs K s').1.2 ∪ B).
Proof.
  intros Hroot. rewrite !walkNamespacePid_eq. cbn zeta.
  pose proof (readProcessConnections_static procs s s' Hroot) as Hval.
  pose proof (readProcessConnections_procRoot w procs s) as Hr1.
  pose proof (readProcessConnections_procRoot w procs s') as Hr1'.
  destruct (readProcessConnections w procs s) as [[found err] s2].
  destruct (readProcessConnections w procs s') as [[found' err'] s2'].
  cbn [fst snd] in *. injection Hval as -> ->.
  destruct (not_nil err' || negb found'); [reflexivity|].
  apply walkLoop_union. rewrite Hr1, Hr1'. exact Hroot.
Qed.

(** The scan of the groups is a fold of the maps of the groups, a later
    group overriding an earlier one. *)
Lemma rangeLoop_fold K groups sockets s :
  (rangeLoop w K groups sockets s).1
  = foldl (λ acc g, group_sockets w (procRoot s) K g ∪ acc) sockets groups.
Proof.
  revert sockets s. induction groups as [|g groups IH]; intros sockets s;
    [reflexivity|].
  rewrite rangeLoop_cons. cbn zeta. cbn [foldl].
  set (s1 := logged (EvTick GroupStart) s).
  pose proof (walkNamespacePid_steps w false sockets g K s1) as Hsteps.
  apply steps_procRoot in Hsteps.
  rewrite IH, Hsteps. f_equal.
  rewrite <- (left_id_L ∅ (∪) sockets) at 1.
  rewrite (walkNamespacePid_union ∅ sockets g K s1 (fresh (procRoot s)))
    by reflexivity.
  reflexivity.
Qed.

End Static.

Section StaticGrouping.
Context (w : World) (Hstatic : static w).

Lemma effective_suffix_not_empty s : effective_suffix w s ≠ EmptyString.
Proof.
  unfold effective_suffix.
  destruct (String.eqb_spec (netNamespacePathSuffix s) EmptyString); [|assumption].
  apply resolve_not_empty.
Qed.

Lemma effective_suffix_memo s x :
  netNamespacePathSuffix s = x → x ≠ EmptyString → effective_suffix w s = x.
Proof.
  intros Hs Hx. unfold effective_suffix. rewrite Hs.
  destruct (String.eqb_spec x EmptyString); [contradiction|reflexivity].
Qed.

(** In a static world the resolver returns the effective suffix and leaves
    it memoized. *)
Lemma getNetNamespacePathSuffix_static s :
  let r := getNetNamespacePathSuffix w s in
  r.1 = effective_suffix w s
  ∧ netNamespacePathSuffix r.2 = effective_suffix w s
  ∧ procRoot r.2 = procRoot s.
Proof.
  cbn zeta. unfold effective_suffix.
  destruct (String.eqb_spec (netNamespacePathSuffix s) EmptyString) as [He|Hne].
  - rewrite getNetNamespacePathSuffix_first by exact He. cbn.
    rewrite (static_resolve w Hstatic (now s) 0). auto.
  - rewrite getNetNamespacePathSuffix_memo by exact Hne. auto.
Qed.

Lemma groupLoop_static walked namespaces s s' :
  procRoot s = procRoot s' →
  effective_suffix w s = effective_suffix w s' →
  (groupLoop w walked namespaces s).1 = (groupLoop w walked namespaces s').1.
Proof.
  revert namespaces s s'.
  induction walked as [|p rest IH]; intros namespaces s s' Hroot Heff;
    [reflexivity|].
  rewrite !groupLoop_cons. cbn zeta.
  destruct (getNetNamespacePathSuffix_static s) as (Hv & Hm & Hr).
  destruct (getNetNamespacePathSuffix_static s') as (Hv' & Hm' & Hr').
  destruct (getNetNamespacePathSuffix w s) as [x s1].
  destruct (getNetNamespacePathSuffix w s') as [x' s1'].
  cbn [fst snd] in *. subst x x'. rewrite <- Hroot, <- Heff.
  rewrite (static_Stat w Hstatic (now s1') (now s1)).
  assert (∀ e e', effective_suffix w (logged e s1)
                  = effective_suffix w (logged e' s1')) as Heff1.
  { intros e e'.
    rewrite (effective_suffix_memo (logged e s1) _ Hm (effective_suffix_not_empty s)).
    rewrite (effective_suffix_memo (logged e' s1') _ Hm'
               (effective_suffix_not_empty s')).
    exact Heff. }
  destruct (Stat w (now s1) _) as [|statT]; apply IH;
    try apply Heff1; cbn; congruence.
Qed.

Lemma groupLoop_effective walked namespaces s :
  walked ≠ [] →
  netNamespacePathSuffix (groupLoop w walked namespaces s).2 = effective_suffix w s.
Proof.
  revert namespaces s.
  induction walked as [|p rest IH]; intros namespaces s Hne; [contradiction|].
  rewrite groupLoop_cons. cbn zeta.
  destruct (getNetNamespacePathSuffix_static s) as (Hv & Hm & Hr).
  destruct (getNetNamespacePathSuffix w s) as [x s1]. cbn [fst snd] in *.
  set (e := EvStat _).
  assert (∀ namespaces',
    netNamespacePathSuffix (groupLoop w rest namespaces' (logged e s1)).2
    = effective_suffix w s) as Hrest.
  { intros namespaces'. destruct rest as [|q rest']; [exact Hm|].
    rewrite IH by discriminate.
    apply effective_suffix_memo; [exact Hm|apply effective_suffix_not_empty]. }
  destruct (Stat w (now s1) _); apply Hrest.
Qed.

End StaticGrouping.

(** Folding maps that have no key in common gives the same map in any order. *)
Lemma foldl_union_permutation (F : list Process → gmap Z Proc)
    (l1 l2 : list (list Process)) (acc : gmap Z Proc) :
  l1 ≡ₚ l2 →
  (∀ g1 g2, g1 ∈ l1 → g2 ∈ l1 → g1 ≠ g2 → dom (F g1) ## dom (F g2)) →
  foldl (λ acc g, F g ∪ acc) acc l1 = foldl (λ acc g, F g ∪ acc) acc l2.
Proof.
  intros Hperm. revert acc.
  induction Hperm as [|x l1 l2 Hperm IH|x y l|l1 l2 l3 H12 IH12 H23 IH23];
    intros acc Hdisj.
  - reflexivity.
  - cbn [foldl]. apply IH. intros g1 g2 H1 H2. apply Hdisj; right; assumption.
  - cbn [foldl]. f_equal. destruct (decide (x = y)) as [->|Hne]; [reflexivity|].
    rewrite !(assoc_L (∪)). f_equal. apply map_union_comm, map_disjoint_dom.
    apply Hdisj; [right; left|left|exact Hne].
  - rewrite IH12 by exact Hdisj. apply IH23.
    intros g1 g2 H1 H2. apply Hdisj; rewrite H12; assumption.
Qed.

(** C9, as amended.  In a world that does not change, a second scan of the
    same processes, started with the proc root and the memoized suffix the
    first one left (the buffer and the trace may be anything), returns the same
    map as the first, provided the two scans visit the groups in the same order
    or no inode is recorded for two different groups.  Go leaves the order of
    the groups to chance, and a later group overrides an earlier one on a
    common inode. *)
Theorem scan_repeatable (w : World) (walked : list Process)
    (range1 range2 : gmap Z (list Process) → list (Z * list Process)) (K : Z)
    (s s2 : State) :
  static w → go_range range1 → go_range range2 →
  let first := walkProcPid w walked range1 K s in
  procRoot s2 = procRoot first.2 →
  netNamespacePathSuffix s2 = netNamespacePathSuffix first.2 →
  range1 = range2
  ∨ groups_disjoint w (procRoot s) K ((range1 (groupLoop w walked ∅ s).1).*2) →
  (walkProcPid w walked range2 K s2).1.1 = first.1.1.
Proof.
  intros Hstatic Hr1 Hr2 first Hroot2 Hmemo2 Horder. subst first.
  rewrite walkProcPid_eq in Hroot2, Hmemo2. cbn zeta in Hroot2, Hmemo2.
  rewrite !walkProcPid_eq. cbn zeta. cbn [fst].
  set (g := groupLoop w walked ∅ s) in *.
  set (g' := groupLoop w walked ∅ s2).
  pose proof (rangeLoop_steps w false K ((range1 g.1).*2) ∅ g.2) as Hsteps.
  assert (procRoot g.2 = procRoot s) as Hrootg by apply groupLoop_procRoot.
  assert (procRoot g'.2 = procRoot s2) as Hrootg' by apply groupLoop_procRoot.
  assert (procRoot s2 = procRoot s) as Hroot.
  { rewrite Hroot2. cbn. rewrite (steps_procRoot w false _ _ Hsteps). exact Hrootg. }
  assert (netNamespacePathSuffix s2 = netNamespacePathSuffix g.2) as Hmemo.
  { rewrite Hmemo2. cbn. apply (steps_suffix w false _ _ eq_refl Hsteps). }
  assert (g'.1 = g.1) as Hns.
  { subst g g'. destruct walked as [|p rest]; [reflexivity|].
    apply (groupLoop_static w Hstatic); [exact Hroot|].
    rewrite (groupLoop_effective w Hstatic) in Hmemo by discriminate.
    apply effective_suffix_memo; [exact Hmemo|apply effective_suffix_not_empty]. }
  rewrite !(rangeLoop_fold w Hstatic), Hns, Hrootg, Hrootg', Hroot.
  destruct Horder as [<-|Hdisj]; [reflexivity|].
  symmetry. apply foldl_union_permutation; [|exact Hdisj].
  apply fmap_Permutation. rewrite (Hr1 g.1), (Hr2 g.1). reflexivity.
Qed.

Lemma fixture_static release files dirs stats :
  static (fixture release files dirs stats).
Proof. intros t t'. repeat split. Qed.

Lemma reverse_go_range : go_range (λ m, reverse (map_to_list m)).
Proof. intros m. apply reverse_Permutation. Qed.

Lemma scan_repeatable_witness :
  (walkProcPid host [pB; pC] (λ m, reverse (map_to_list m)) 2
     (walkProcPid host [pB; pC] map_to_list 2 start).2).1.1
  = (walkProcPid host [pB; pC] map_to_list 2 start).1.1.
Proof.
  apply (scan_repeatable host [pB; pC] map_to_list (λ m, reverse (map_to_list m))
           2 start).
  - apply fixture_static.
  - apply map_to_list_go_range.
  - apply reverse_go_range.
  - reflexivity.
  - reflexivity.
  - right.
    assert ((map_to_list (groupLoop host [pB; pC] ∅ start).1).*2 = [[pB]; [pC]])
      as -> by (vm_compute; reflexivity).
    assert (group_sockets host (procRoot start) 2 [pB] = {[9100 := owner_of pB]})
      as HB by (vm_compute; reflexivity).
    assert (group_sockets host (procRoot start) 2 [pC] = {[9999 := owner_of pC]})
      as HC by (vm_compute; reflexivity).
    intros g1 g2 H1 H2 Hne.
    apply elem_of_cons in H1 as [->|H1]; [|apply list_elem_of_singleton in H1 as ->];
      (apply elem_of_cons in H2 as [->|H2];
       [|apply list_elem_of_singleton in H2 as ->]);
      try contradiction; rewrite HB, HC, !dom_singleton_L; set_solver.
Defined.

(** C9 as the specification words it fails: the host does not change, yet
    processes 100 and 300, of two groups, both hold socket 9999, and the scan
    that visits the groups in one order gives it to 300, the scan that visits
    them in the other order gives it to 100. *)
Lemma scan_idempotent_fails :
  static host
  ∧ go_range map_to_list
  ∧ go_range (λ m, reverse (map_to_list m))
  ∧ ¬ scan_idempotent host [pA; pB; pC] map_to_list
        (λ m, reverse (map_to_list m)) 2 start.
Proof.
  split; [apply fixture_static|]. split; [apply map_to_list_go_range|].
  split; [apply reverse_go_range|].
  unfold scan_idempotent. cbn zeta. intros Heq.
  apply (f_equal (λ m : gmap Z Proc, m !! 9999)) in Heq.
  vm_compute in Heq. discriminate.
Qed.


(** * Further properties *)

(** ** The reader, for any group *)

Section ReaderResults.
Context (w : World).

Lemma readLoop_result procs e e6 s :
  let r := (readLoop w procs e e6 s).1 in
  (r.1 = true → r.2 = None)
  ∧ (r.2 ≠ None →
     (∀ j p, procs !! j = Some p →
             member_fails w (now s + 2 * j)%nat (procRoot s) p = true)
     ∧ (procs = [] → r.2 = first_error e e6)).
Proof.
  cbn zeta. revert e e6 s. induction procs as [|p rest IH]; intros e e6 s.
  - rewrite readLoop_nil. cbn. split; [discriminate|]. intros _. split; [|reflexivity].
    intros j q Hq. discriminate.
  - rewrite readLoop_cons. destruct (member_fails w (now s) (procRoot s) p) eqn:Hp.
    + destruct (IH (member_errors w (now s) (procRoot s) p).1
                   (member_errors w (now s) (procRoot s) p).2
                   (after_member w p s)) as [Hfound Herr].
      split; [exact Hfound|]. intros Hne. destruct (Herr Hne) as [Hall _].
      split; [|discriminate]. intros [|j] q Hq.
      * injection Hq as <-. replace (now s + 2 * 0)%nat with (now s) by lia. exact Hp.
      * specialize (Hall j q Hq).
        rewrite now_after_member, procRoot_after_member in Hall.
        replace (now s + 2 * S j)%nat with (S (S (now s)) + 2 * j)%nat by lia.
        exact Hall.
    + cbn. split; [reflexivity|]. intros Hne. contradiction.
Qed.

(** The state the loop leaves when the members [pre] are given up and [p] is
    not. *)
Lemma readLoop_first_success_state pre p post e e6 s :
  (∀ j q, pre !! j = Some q →
          member_fails w (now s + 2 * j)%nat (procRoot s) q = true) →
  member_fails w (now s + 2 * length pre)%nat (procRoot s) p = false →
  (readLoop w (pre ++ p :: post) e e6 s).2 = after_member w p (after_members w pre s).
Proof.
  revert e e6 s. induction pre as [|q pre IH]; intros e e6 s Hpre Hp.
  - cbn [app length] in *. rewrite readLoop_cons.
    replace (now s + 2 * 0)%nat with (now s) in * by lia.
    rewrite Hp. reflexivity.
  - cbn [app length] in *. rewrite readLoop_cons.
    pose proof (Hpre 0%nat q eq_refl) as H0.
    replace (now s + 2 * 0)%nat with (now s) in H0 by lia.
    rewrite H0, IH; [reflexivity| |].
    + intros j r Hj. rewrite now_after_member, procRoot_after_member.
      replace (S (S (now s)) + 2 * j)%nat with (now s + 2 * S j)%nat by lia.
      apply Hpre. exact Hj.
    + rewrite now_after_member, procRoot_after_member.
      replace (S (S (now s)) + 2 * length pre)%nat
        with (now s + 2 * S (length pre))%nat by lia.
      exact Hp.
Qed.

Lemma after_members_facts pre s :
  now (after_members w pre s) = (now s + 2 * length pre)%nat
  ∧ procRoot (after_members w pre s) = procRoot s
  ∧ count is_read_file (trace (after_members w pre s))
    = count is_read_file (trace s) + 2 * Z.of_nat (length pre).
Proof.
  unfold after_members. revert s. induction pre as [|q pre IH]; intros s.
  - cbn. repeat split; lia.
  - cbn [foldl length]. destruct (IH (after_member w q s)) as (Hnow & Hroot & Hcount).
    rewrite Hnow, Hroot, Hcount, now_after_member, procRoot_after_member.
    cbn. repeat split; lia.
Qed.

End ReaderResults.

(** X1. Whatever the group, [readProcessConnections] never reports
    connections together with an error; and when it returns an error the group
    has a member and every member was given up at its turn (its TCP or its TCP6
    read returned an error). *)
Theorem reader_error_means_all_failed (w : World) (procs : list Process) (s : State) :
  let r := (readProcessConnections w procs s).1 in
  (r.1 = true → r.2 = None)
  ∧ (r.2 ≠ None →
     procs ≠ []
     ∧ ∀ j p, procs !! j = Some p →
              member_fails w (S (now s) + 2 * j)%nat (procRoot s) p = true).
Proof.
  cbn zeta. rewrite readProcessConnections_eq.
  destruct (readLoop_result w procs None None (logged EvReadConnections s))
    as [Hfound Herr].
  split; [exact Hfound|]. intros Hne. destruct (Herr Hne) as [Hall Hnil].
  split; [|exact Hall]. intros ->. apply Hne. rewrite Hnil; reflexivity.
Qed.

(** X2. The first member whose two reads both succeed decides, whether it has
    connections or not: when the members before [p] are given up and the reads
    of [p] return [d] and [d6] without error, the reader reports connections
    exactly when [d] and [d6] hold a byte (their lengths fitting an [int64]),
    with a nil error; it has read two files per member tried and none of the
    members after [p]; and the buffer ends with [d] followed by [d6]. *)
Theorem first_readable_member_decides (w : World) (pre : list Process) (p : Process)
    (post : list Process) (s : State) (d d6 : list byte) :
  let turn (j : nat) := (S (now s) + 2 * j)%nat in
  (∀ j q, pre !! j = Some q → member_fails w (turn j) (procRoot s) q = true) →
  OpenRead w (turn (length pre)) (tcpPath (procRoot s) p) = ReadsData d None →
  OpenRead w (S (turn (length pre))) (tcp6Path (procRoot s) p) = ReadsData d6 None →
  Z.of_nat (length d + length d6) ≤ max_int →
  let r := readProcessConnections w (pre ++ p :: post) s in
  r.1 = (negb (length d + length d6 =? 0)%nat, None)
  ∧ file_reads_during s r.2 = 2 * (Z.of_nat (length pre) + 1)
  ∧ (d ++ d6) `suffix_of` buf r.2.
Proof.
  intros turn Hpre Hd Hd6 Hfit r. subst r. rewrite readProcessConnections_eq.
  set (s1 := logged EvReadConnections s).
  assert (member_fails w (now s1 + 2 * length pre)%nat (procRoot s1) p = false) as Hp.
  { unfold member_fails, member_errors.
    change (now s1 + 2 * length pre)%nat with (turn (length pre)).
    change (procRoot s1) with (procRoot s). rewrite Hd, Hd6. reflexivity. }
  split; [|split].
  - rewrite (readLoop_first_success w pre p post None None s1 Hpre Hp).
    f_equal. unfold member_bytes.
    change (now s1 + 2 * length pre)%nat with (turn (length pre)).
    change (procRoot s1) with (procRoot s). rewrite Hd, Hd6. cbn [read_count].
    rewrite wrap_int_id by (unfold max_int in *; lia).
    destruct (Nat.eqb_spec (length d + length d6) 0); cbn; lia.
  - rewrite (readLoop_first_success_state w pre p post None None s1 Hpre Hp).
    destruct (after_members_facts w pre s1) as (_ & _ & Hcount).
    unfold file_reads_during. cbn [after_member after_read trace count is_read_file].
    rewrite Hcount. cbn. lia.
  - rewrite (readLoop_first_success_state w pre p post None None s1 Hpre Hp).
    destruct (after_members_facts w pre s1) as (Hnow & Hroot & _).
    unfold after_member. cbn [after_read buf procRoot now trace length].
    rewrite Hroot. fold (now (after_members w pre s1)). rewrite Hnow.
    change (now s1 + 2 * length pre)%nat with (turn (length pre)).
    change (procRoot s1) with (procRoot s). rewrite Hd, Hd6. cbn [read_data].
    rewrite <- app_assoc. apply suffix_app_r. reflexivity.
Qed.

Lemma reader_error_means_all_failed_witness :
  (readProcessConnections host [pA; pB] start).1.2 = None.
Proof.
  apply (proj1 (reader_error_means_all_failed host [pA; pB] start)).
  vm_compute. reflexivity.
Defined.

Lemma first_readable_member_decides_witness :
  (readProcessConnections host_unreadable ([pC; pB] ++ pA :: []) start).1 = (true, None)
  ∧ file_reads_during start
      (readProcessConnections host_unreadable ([pC; pB] ++ pA :: []) start).2 = 6.
Proof.
  destruct (first_readable_member_decides host_unreadable [pC; pB] pA [] start
              (String.list_byte_of_string "sl 0") []) as (Hres & Hreads & _).
  - intros [|[|j]] q Hq; cbn in Hq; try discriminate;
      injection Hq as <-; vm_compute; reflexivity.
  - vm_compute. reflexivity.
  - vm_compute. reflexivity.
  - vm_compute. discriminate.
  - split; [exact Hres|exact Hreads].
Defined.

(** ** The walk of a group, for any map *)

Section WalkResults.
Context (w : World).

Lemma steps_count_mono b f s s' :
  rtc (step w b) s s' → count f (trace s) ≤ count f (trace s').
Proof.
  induction 1 as [|s s1 s' Hstep _ IH]; [lia|].
  etrans; [|exact IH]. destruct Hstep; cbn; try destruct (f _); lia.
Qed.

(** A pause is taken only with more than [K] descriptors counted. *)
Lemma walkLoop_pause_cost K D procs sockets c s :
  0 ≤ D →
  (∀ t dir fds, ReadDirNames w t dir = inr fds → Z.of_nat (length fds) ≤ D) →
  0 ≤ c → c + Z.of_nat (length procs) * D ≤ max_int →
  let s' := (walkLoop w K procs sockets c s).2 in
  pauses_during s s' * (K + 1) ≤ examined_during s s' + c.
Proof.
  intros HD Hdirs. unfold examined_during, pauses_during.
  revert sockets c s. induction procs as [|p rest IH]; intros sockets c s Hc Hmax.
  - rewrite walkLoop_nil. cbn. lia.
  - cbn [length] in Hmax.
    assert (Hfds : ∀ c0 s0, 0 ≤ c0 → c0 + Z.of_nat (S (length rest)) * D ≤ max_int →
      let s' := (walk_fds w K p rest sockets c0 s0).2 in
      (count is_pause (trace s') - count is_pause (trace s0)) * (K + 1)
      ≤ count is_stat (trace s') - count is_stat (trace s0) + c0).
    { intros c0 s0 Hc0 Hmax0. unfold walk_fds. cbn zeta.
      destruct (ReadDirNames w (now s0) _) as [|fds] eqn:Hls.
      - specialize (IH sockets c0 (logged (EvReadDirNames (fdBaseOf (procRoot s0) p)) s0)).
        cbn in IH. cbn. specialize (IH Hc0). nia.
      - apply Hdirs in Hls.
        set (s1 := logged _ s0).
        pose proof (fdLoop_stats w p (fdBaseOf (procRoot s0) p) fds None sockets c0 s1)
          as Hst.
        pose proof (fdLoop_count w is_pause p (fdBaseOf (procRoot s0) p) fds None
                      sockets c0 s1 (λ _, eq_refl)) as Hpa.
        pose proof (fdLoop_blockCount w p (fdBaseOf (procRoot s0) p) fds None sockets
                      c0 s1) as Hbc.
        destruct (fdLoop w p _ fds None sockets c0 s1) as [[sockets' c'] s2].
        cbn [fst snd] in *. rewrite Hbc by nia.
        specialize (IH sockets' (c0 + Z.of_nat (length fds)) s2).
        cbn zeta in IH. subst s1. cbn in Hst, Hpa.
        specialize (IH ltac:(lia) ltac:(nia)). lia. }
    rewrite walkLoop_cons. destruct (K <? c) eqn:Hlt; [|apply Hfds; lia].
    apply Z.ltb_lt in Hlt. cbn zeta.
    pose proof (readProcessConnections_count w is_stat (p :: rest)
                  (logged (EvTick RateLimit) s) (λ _, eq_refl)) as Hst.
    pose proof (readProcessConnections_count w is_pause (p :: rest)
                  (logged (EvTick RateLimit) s) (λ _, eq_refl)) as Hpa.
    destruct (readProcessConnections w (p :: rest) _) as [[found err] s1].
    cbn in Hst, Hpa. cbn [fst snd].
    destruct (not_nil err || negb found).
    + cbn [snd]. lia.
    + specialize (Hfds 0 s1 ltac:(lia) ltac:(lia)). cbn zeta in Hfds. lia.
Qed.

(** The descriptor loop keeps an entry of its process, and records every
    descriptor whose stat, at its turn, answers with the file type socket. *)
Lemma fdLoop_keeps_owner p base fds proc sockets c s k :
  proc = None ∨ proc = Some (owner_of p) →
  sockets !! k = Some (owner_of p) →
  (fdLoop w p base fds proc sockets c s).1.1 !! k = Some (owner_of p).
Proof.
  revert proc sockets c s.
  induction fds as [|fd fds IH]; intros proc sockets c s Hproc Hk; [exact Hk|].
  rewrite fdLoop_cons. cbn zeta.
  destruct (Stat w (now s) _) as [|statT]; [apply IH; assumption|].
  destruct (is_socket statT); [|apply IH; assumption].
  assert (default (owner_of p) proc = owner_of p) as ->
    by (destruct Hproc as [->| ->]; reflexivity).
  apply IH; [right; reflexivity|].
  destruct (decide (Ino statT = k)) as [->|Hne].
  - apply lookup_insert_eq.
  - rewrite lookup_insert_ne by exact Hne. exact Hk.
Qed.

Lemma fdLoop_records p base fds proc sockets c s i fd statT :
  proc = None ∨ proc = Some (owner_of p) →
  fds !! i = Some fd →
  Stat w (now s + i)%nat (Join [base; fd]) = inr statT →
  Z.land (Mode statT) S_IFMT = S_IFSOCK →
  (fdLoop w p base fds proc sockets c s).1.1 !! Ino statT = Some (owner_of p).
Proof.
  revert proc sockets c s i.
  induction fds as [|fd' fds IH]; intros proc sockets c s i Hproc Hi Hstat Hsock;
    [discriminate|].
  rewrite fdLoop_cons. cbn zeta. destruct i as [|i].
  - injection Hi as ->. replace (now s + 0)%nat with (now s) in Hstat by lia.
    rewrite Hstat. unfold is_socket. rewrite Hsock, Z.eqb_refl.
    assert (default (owner_of p) proc = owner_of p) as ->
      by (destruct Hproc as [->| ->]; reflexivity).
    apply fdLoop_keeps_owner; [right; reflexivity|apply lookup_insert_eq].
  - cbn in Hi.
    assert (Stat w (now (logged (EvStat (Join [base; fd'])) s) + i)%nat (Join [base; fd])
            = inr statT) as Hstat'.
    { change (now (logged (EvStat (Join [base; fd'])) s)) with (S (now s)).
      replace (S (now s) + i)%nat with (now s + S i)%nat by lia. exact Hstat. }
    destruct (Stat w (now s) _) as [|statT']; [eapply IH; eassumption|].
    destruct (is_socket statT'); [|eapply IH; eassumption].
    eapply IH; [right|..]; try eassumption.
    destruct Hproc as [->| ->]; reflexivity.
Qed.

End WalkResults.

(** X3. The walk of a group pauses only when more than [fdBlockSize]
    descriptors were examined since the previous pause (or the start): the
    number of pauses times [K + 1] is at most the number of descriptors
    examined, so a walk that examines at most [K ≥ 0] descriptors never waits
    for the ticker.  [D] bounds the size of a descriptor directory, and the
    counter must not overflow. *)
Theorem pauses_cost_descriptors (w : World) (K D : Z) (procs : list Process)
    (sockets : gmap Z Proc) (s : State) :
  0 ≤ D → Z.of_nat (length procs) * D ≤ max_int →
  (∀ t dir fds, ReadDirNames w t dir = inr fds → Z.of_nat (length fds) ≤ D) →
  let s' := (walkNamespacePid w sockets procs K s).2 in
  pauses_during s s' * (K + 1) ≤ examined_during s s'
  ∧ (0 ≤ K → examined_during s s' ≤ K → pauses_during s s' = 0).
Proof.
  intros HD Hmax Hdirs s'.
  assert (0 ≤ pauses_during s s') as Hpos.
  { unfold pauses_during.
    pose proof (steps_count_mono w false is_pause s s'
                  (walkNamespacePid_steps w false sockets procs K s)). lia. }
  assert (pauses_during s s' * (K + 1) ≤ examined_during s s') as Hcost.
  { subst s'. rewrite walkNamespacePid_eq. cbn zeta.
    pose proof (readProcessConnections_count w is_stat procs s (λ _, eq_refl)) as Hst.
    pose proof (readProcessConnections_count w is_pause procs s (λ _, eq_refl)) as Hpa.
    destruct (readProcessConnections w procs s) as [[found err] s1].
    cbn in Hst, Hpa. cbn [fst snd]. unfold examined_during, pauses_during.
    destruct (not_nil err || negb found).
    - cbn [snd]. lia.
    - pose proof (walkLoop_pause_cost w K D procs sockets 0 s1 HD Hdirs) as Hw.
      cbn zeta in Hw. unfold examined_during, pauses_during in Hw.
      specialize (Hw ltac:(lia) ltac:(lia)). lia. }
  split; [exact Hcost|]. intros HK Hfew. nia.
Qed.

Lemma pauses_cost_descriptors_witness :
  pauses_during start (walkNamespacePid host ∅ [pA; pB] 2 start).2 * (2 + 1)
  ≤ examined_during start (walkNamespacePid host ∅ [pA; pB] 2 start).2.
Proof.
  refine (proj1 (pauses_cost_descriptors host 2 5 [pA; pB] ∅ start _ _
                   host_dirs_bounded)).
  - lia.
  - unfold max_int. cbn. lia.
Defined.

(** X4. The socket descriptors of a process that is walked are recorded.  At
    the head of an iteration that takes no pause, when the descriptor directory
    of [p] lists [fds] and the stat of the entry at index [i], at its turn,
    answers with the file type socket and inode [ino], then after the
    descriptors of [p] the map gives [ino] to [p], whatever the other
    descriptors answer, and [ino] is a key of the map when the walk ends. *)
Theorem socket_descriptor_recorded (w : World) (K : Z) (p : Process)
    (rest : list Process) (sockets : gmap Z Proc) (c : Z) (s : State)
    (fds : list string) (i : nat) (fd : string) (statT : Stat_t) :
  c ≤ K →
  let fdBase := fdBaseOf (procRoot s) p in
  ReadDirNames w (now s) fdBase = inr fds →
  fds !! i = Some fd →
  Stat w (S (now s) + i)%nat (Join [fdBase; fd]) = inr statT →
  Z.land (Mode statT) S_IFMT = S_IFSOCK →
  (fdLoop w p fdBase fds None sockets c (logged (EvReadDirNames fdBase) s)).1.1
    !! Ino statT = Some (owner_of p)
  ∧ Ino statT ∈ dom (walkLoop w K (p :: rest) sockets c s).1.2.
Proof.
  intros Hc fdBase Hls Hi Hstat Hsock.
  assert ((fdLoop w p fdBase fds None sockets c
             (logged (EvReadDirNames fdBase) s)).1.1 !! Ino statT
          = Some (owner_of p)) as Hrec.
  { eapply fdLoop_records; [left; reflexivity|exact Hi| |exact Hsock]. exact Hstat. }
  split; [exact Hrec|].
  rewrite walkLoop_cons. apply Z.ltb_ge in Hc. rewrite Hc.
  unfold walk_fds. cbn zeta. fold fdBase. rewrite Hls.
  eapply elem_of_weaken; [|apply walkLoop_dom].
  apply elem_of_dom. rewrite Hrec. eauto.
Qed.

Lemma socket_descriptor_recorded_witness :
  9999 ∈ dom (walkLoop host 2 (pA :: [pB]) ∅ 0 start).1.2.
Proof.
  refine (proj2 (socket_descriptor_recorded host 2 pA [pB] ∅ 0 start
                   ["0"; "1"; "2"; "3"; "4"]%string 4 "4" (socket_stat 9999)
                   _ _ _ _ _)).
  - lia.
  - vm_compute. reflexivity.
  - reflexivity.
  - vm_compute. reflexivity.
  - reflexivity.
Defined.

(** X5. The walk of a group changes the map it is given in one way only: it
    assigns the inode of an observed socket descriptor to the member of the
    group that holds it.  Every entry of the map it leaves was there before or
    is such an assignment, and no key is removed. *)
Theorem walk_only_assigns_observed (w : World) (sockets : gmap Z Proc)
    (procs : list Process) (K : Z) (s : State) :
  let result := (walkNamespacePid w sockets procs K s).1.2 in
  (∀ ino owner, result !! ino = Some owner →
     sockets !! ino = Some owner
     ∨ ∃ p, p ∈ procs ∧ owner = owner_of p ∧ observed_socket w (procRoot s) p ino)
  ∧ dom sockets ⊆ dom result.
Proof.
  intros result. split; [|apply walkNamespacePid_dom].
  subst result. rewrite walkNamespacePid_eq. cbn zeta.
  pose proof (readProcessConnections_procRoot w procs s) as Hroot.
  destruct (readProcessConnections w procs s) as [[found err] s1].
  cbn [fst snd] in *. destruct (not_nil err || negb found); [auto|].
  apply (walkLoop_entries w
           (λ ino owner, sockets !! ino = Some owner
              ∨ ∃ p, p ∈ procs ∧ owner = owner_of p
                     ∧ observed_socket w (procRoot s) p ino)).
  - intros p ino Hp Hobs. right. exists p. rewrite Hroot in Hobs. auto.
  - intros ino owner Hin. left. exact Hin.
Qed.


(** ** What a scan logs *)

Lemma path_elements_not_nil path : path_elements path ≠ [].
Proof.
  destruct path as [|c rest]; [discriminate|]. cbn.
  destruct (Ascii.eqb c "/"); [discriminate|]. destruct (path_elements rest); discriminate.
Qed.

Lemma path_elements_app a b :
  path_elements (a +:+ String "/" b) = path_elements a ++ path_elements b.
Proof.
  induction a as [|c a IH]; [reflexivity|].
  change (String c a +:+ String "/" b) with (String c (a +:+ String "/" b)).
  cbn [path_elements]. rewrite IH. destruct (Ascii.eqb c "/"); [reflexivity|].
  pose proof (path_elements_not_nil a). destruct (path_elements a); [done|reflexivity].
Qed.

Lemma path_elements_slash_free name : slash_free name = true → path_elements name = [name].
Proof.
  induction name as [|c name IH]; [reflexivity|]. cbn.
  destruct (Ascii.eqb c "/"); [discriminate|]. cbn. intros H. rewrite IH by exact H.
  reflexivity.
Qed.

Lemma path_elements_are_slash_free path : Forall (λ e, slash_free e = true) (path_elements path).
Proof.
  induction path as [|c rest IH]; [repeat constructor|]. cbn.
  destruct (Ascii.eqb c "/") eqn:Hc; [constructor; [reflexivity|exact IH]|].
  destruct (path_elements rest) as [|e es]; [repeat constructor; cbn; rewrite Hc; reflexivity|].
  inversion IH; subst. constructor; [cbn; rewrite Hc; assumption|assumption].
Qed.

Lemma concat_cons sep (e : string) es :
  es ≠ [] → String.concat sep (e :: es) = e +:+ sep +:+ String.concat sep es.
Proof. destruct es; [done|reflexivity]. Qed.

Lemma path_elements_concat es :
  es ≠ [] → path_elements (String.concat "/" es) = flat_map path_elements es.
Proof.
  induction es as [|e es IH]; [done|]. intros _. destruct es as [|e' es].
  - cbn. rewrite app_nil_r. reflexivity.
  - rewrite concat_cons by discriminate.
    change ("/" +:+ ?x) with (String "/" x).
    rewrite path_elements_app, IH by discriminate. reflexivity.
Qed.

Lemma flat_map_path_elements names :
  Forall (λ n, slash_free n = true) names → flat_map path_elements names = names.
Proof.
  induction 1 as [|n names Hn _ IH]; [reflexivity|]. cbn.
  rewrite IH, path_elements_slash_free by exact Hn. reflexivity.
Qed.

Lemma real_spec name :
  real name = true ↔ name ≠ EmptyString ∧ name ≠ "."%string ∧ name ≠ ".."%string.
Proof.
  unfold real. rewrite !andb_true_iff, !negb_true_iff.
  rewrite !String.eqb_neq. tauto.
Qed.

Lemma clean_element_real r out e : real e = true → clean_element r out e = e :: out.
Proof.
  intros (H1 & H2 & H3)%real_spec. unfold clean_element.
  apply String.eqb_neq in H1, H2, H3. rewrite H1, H2, H3. reflexivity.
Qed.

Lemma foldl_clean_real r out names :
  Forall (λ n, real n = true) names →
  foldl (clean_element r) out names = reverse names ++ out.
Proof.
  intros H. revert out. induction H as [|n names Hn _ IH]; intros out; [reflexivity|].
  cbn [foldl]. rewrite clean_element_real by exact Hn.
  rewrite IH, reverse_cons, <- app_assoc. reflexivity.
Qed.

Lemma normal_nil r : normal r [].
Proof. exists [], 0%nat. split; [reflexivity|]. split; [constructor|reflexivity]. Qed.

Lemma clean_element_normal r out e : normal r out → normal r (clean_element r out e).
Proof.
  intros (names & k & -> & Hnames & Hk). unfold clean_element.
  destruct (String.eqb_spec e EmptyString) as [|H1]; [exists names, k; auto|].
  destruct (String.eqb_spec e ".") as [|H2]; [exists names, k; auto|].
  destruct (String.eqb_spec e "..") as [->|H3].
  - destruct names as [|n names].
    + cbn [app]. destruct k as [|k].
      * cbn. destruct r; [apply normal_nil|]. exists [], 1%nat. split; [reflexivity|]. split; [constructor|done].
      * cbn. destruct r; [specialize (Hk eq_refl); discriminate|].
        exists [], (S (S k)). split; [reflexivity|]. split; [constructor|done].
    + cbn [app]. inversion Hnames as [|? ? Hn Hrest]; subst.
      apply real_spec in Hn as (_ & _ & Hn). apply String.eqb_neq in Hn. rewrite Hn.
      cbn. exists names, k. auto.
  - exists (e :: names), k. split; [reflexivity|]. split; [|exact Hk].
    constructor; [|exact Hnames]. apply real_spec. auto.
Qed.

Lemma foldl_clean_normal r out es :
  normal r out → normal r (foldl (clean_element r) out es).
Proof.
  revert out. induction es as [|e es IH]; intros out H; [exact H|].
  cbn. apply IH, clean_element_normal, H.
Qed.

Lemma foldl_clean_dotdots k j :
  foldl (clean_element false) (replicate j "..") (replicate k "..")
  = replicate (k + j) "..".
Proof.
  revert j. induction k as [|k IH]; intros j; [reflexivity|].
  cbn [replicate foldl].
  assert (clean_element false (replicate j "..") ".." = replicate (S j) "..") as ->
    by (destruct j; reflexivity).
  rewrite IH. f_equal. lia.
Qed.

Lemma foldl_clean_again r out : normal r out → foldl (clean_element r) [] (reverse out) = out.
Proof.
  intros (names & k & -> & Hnames & Hk).
  rewrite reverse_app, reverse_replicate, foldl_app.
  assert (foldl (clean_element r) [] (replicate k "..") = replicate k "..") as ->.
  { destruct r; [rewrite Hk by reflexivity; reflexivity|].
    pose proof (foldl_clean_dotdots k 0) as H. rewrite Nat.add_0_r in H. exact H. }
  rewrite foldl_clean_real by (apply Forall_reverse; exact Hnames).
  rewrite reverse_involutive. reflexivity.
Qed.

Lemma foldl_clean_Forall (Q : string → Prop) r out es :
  Forall Q out → Forall Q es → Forall Q (foldl (clean_element r) out es).
Proof.
  intros Hout Hes. revert out Hout.
  induction Hes as [|e es He _ IH]; intros out Hout; [exact Hout|].
  cbn [foldl]. apply IH. unfold clean_element.
  destruct (String.eqb e EmptyString); [exact Hout|].
  destruct (String.eqb e "."); [exact Hout|].
  destruct (String.eqb e "..").
  - destruct out as [|top below]; [destruct r; [exact Hout|constructor; assumption]|].
    destruct (negb (String.eqb top "..")); [inversion Hout; assumption|].
    destruct r; [exact Hout|constructor; assumption].
  - constructor; assumption.
Qed.

Lemma root_elements_normal root : normal (rooted root) (root_elements root).
Proof. apply foldl_clean_normal, normal_nil. Qed.

Lemma root_elements_slash_free root :
  Forall (λ e, slash_free e = true) (root_elements root).
Proof. apply foldl_clean_Forall; [constructor|apply path_elements_are_slash_free]. Qed.

Lemma plain_spec name : plain name = true ↔ real name = true ∧ slash_free name = true.
Proof. unfold plain. apply andb_true_iff. Qed.

Lemma Forall_plain_real names :
  Forall (λ n, plain n = true) names → Forall (λ n, real n = true) names.
Proof.
  intros H. eapply Forall_impl; [exact H|]. intros n Hn. apply plain_spec in Hn. tauto.
Qed.

Lemma Forall_plain_slash_free names :
  Forall (λ n, plain n = true) names → Forall (λ n, slash_free n = true) names.
Proof.
  intros H. eapply Forall_impl; [exact H|]. intros n Hn. apply plain_spec in Hn. tauto.
Qed.

Lemma rooted_concat e es :
  e ≠ EmptyString →
  String.concat "/" (e :: es) ≠ EmptyString
  ∧ rooted (String.concat "/" (e :: es)) = rooted e.
Proof.
  intros He. destruct e as [|c e]; [done|]. destruct es; split; done.
Qed.

Lemma Join_cons e es :
  e ≠ EmptyString →
  Join (e :: es)
  = cleaned (rooted e)
      (reverse (foldl (clean_element (rooted e)) [] (flat_map path_elements (e :: es)))).
Proof.
  intros He. destruct (rooted_concat e es He) as [Hne Hr].
  change (Join (e :: es))
    with (if String.eqb e EmptyString then Join es
          else Clean (String.concat "/" (e :: es))).
  apply String.eqb_neq in He. rewrite He. unfold Clean.
  apply String.eqb_neq in Hne. rewrite Hne, Hr, path_elements_concat by discriminate.
  reflexivity.
Qed.

Lemma plain_not_rooted name : plain name = true → name ≠ EmptyString ∧ rooted name = false.
Proof.
  intros [Hreal Hfree]%plain_spec. apply real_spec in Hreal as (Hne & _).
  split; [exact Hne|]. destruct name as [|c name]; [done|]. cbn in *.
  destruct (Ascii.eqb c "/"); [discriminate|reflexivity].
Qed.

Lemma Join_root root pid rest :
  plain pid = true →
  Join (root :: pid :: rest)
  = cleaned (rooted root)
      (reverse (foldl (clean_element (rooted root)) (pid :: root_elements root)
                  (flat_map path_elements rest))).
Proof.
  intros Hpid. pose proof (plain_not_rooted pid Hpid) as [Hne Hr].
  pose proof Hpid as [Hreal Hfree]%plain_spec.
  destruct (String.eqb_spec root EmptyString) as [->|Hroot].
  - change (Join (EmptyString :: pid :: rest)) with (Join (pid :: rest)).
    rewrite Join_cons by exact Hne. rewrite Hr. cbn [flat_map].
    rewrite path_elements_slash_free by exact Hfree. cbn [app foldl].
    rewrite clean_element_real by exact Hreal. reflexivity.
  - rewrite Join_cons by exact Hroot. cbn [flat_map].
    rewrite (path_elements_slash_free pid) by exact Hfree. rewrite foldl_app. cbn [app foldl].
    rewrite clean_element_real by exact Hreal. reflexivity.
Qed.

Lemma Join_names root pid names :
  plain pid = true → Forall (λ n, plain n = true) names →
  Join (root :: pid :: names)
  = cleaned (rooted root) (reverse (root_elements root) ++ pid :: names).
Proof.
  intros Hpid Hnames. rewrite Join_root by exact Hpid.
  rewrite flat_map_path_elements by (apply Forall_plain_slash_free, Hnames).
  rewrite foldl_clean_real by (apply Forall_plain_real, Hnames).
  rewrite reverse_app, reverse_involutive, reverse_cons, <- app_assoc. reflexivity.
Qed.

Lemma normal_not_empty r out : normal r out → Forall (λ e, e ≠ EmptyString) out.
Proof.
  intros (names & k & -> & Hnames & _). apply Forall_app. split.
  - eapply Forall_impl; [exact Hnames|]. intros n Hn. apply real_spec in Hn. tauto.
  - apply Forall_replicate. discriminate.
Qed.

Lemma cleaned_elements r out :
  out ≠ [] →
  Forall (λ e, e ≠ EmptyString) out → Forall (λ e, slash_free e = true) out →
  cleaned r out ≠ EmptyString
  ∧ rooted (cleaned r out) = r
  ∧ foldl (clean_element r) [] (path_elements (cleaned r out))
    = foldl (clean_element r) [] out.
Proof.
  intros Hnil Hne Hfree. destruct r; cbn [cleaned].
  - change ("/" +:+ ?x) with (String "/" x). split; [discriminate|]. split; [reflexivity|].
    cbn [path_elements Ascii.eqb Bool.eqb]. cbn.
    rewrite path_elements_concat, flat_map_path_elements by assumption. reflexivity.
  - destruct out as [|e out]; [done|]. inversion Hne; subst. inversion Hfree; subst.
    destruct (rooted_concat e out ltac:(assumption)) as [Hc Hr].
    split; [exact Hc|]. split.
    + rewrite Hr. destruct e as [|c e]; [done|]. cbn in *.
      destruct (Ascii.eqb c "/"); [discriminate|reflexivity].
    + rewrite path_elements_concat, flat_map_path_elements by assumption. reflexivity.
Qed.

Lemma Join_Join root pid names more :
  plain pid = true → Forall (λ n, plain n = true) names →
  Forall (λ n, plain n = true) more →
  Join (Join (root :: pid :: names) :: more) = Join (root :: pid :: names ++ more).
Proof.
  intros Hpid Hnames Hmore.
  rewrite (Join_names root pid (names ++ more)) by (try apply Forall_app; auto).
  rewrite Join_names by assumption.
  set (r := rooted root). set (out := reverse (root_elements root) ++ pid :: names).
  assert (Forall (λ n, real n = true) (pid :: names)) as Hreal
    by (apply Forall_plain_real; constructor; assumption).
  destruct (cleaned_elements r out) as (Hne & Hr & Hel).
  - subst out. destruct (reverse _); discriminate.
  - apply Forall_app. split.
    + apply Forall_reverse, (normal_not_empty r), root_elements_normal.
    + eapply Forall_impl; [exact Hreal|]. intros n Hn. apply real_spec in Hn. tauto.
  - apply Forall_app. split.
    + apply Forall_reverse, root_elements_slash_free.
    + apply Forall_plain_slash_free. constructor; assumption.
  - rewrite Join_cons by exact Hne. rewrite Hr. cbn [flat_map].
    rewrite flat_map_path_elements by (apply Forall_plain_slash_free, Hmore).
    rewrite foldl_app, Hel. subst out.
    rewrite (foldl_clean_real _ _ more) by (apply Forall_plain_real, Hmore).
    rewrite foldl_app, foldl_clean_again by apply root_elements_normal.
    rewrite foldl_clean_real by exact Hreal.
    rewrite !reverse_app, !reverse_involutive, <- app_assoc. reflexivity.
Qed.

Lemma name_chars_plain name :
  name ≠ EmptyString → name_chars name = true → plain name = true.
Proof.
  intros Hne Hchars. apply plain_spec. split.
  - apply real_spec. split; [exact Hne|].
    split; intros ->; discriminate.
  - induction name as [|c name IH]; [reflexivity|]. cbn in *.
    destruct (Ascii.eqb c "/"); [discriminate|]. 
    destruct (Ascii.eqb c "."); [discriminate|]. cbn in *.
    destruct name; [reflexivity|]. apply IH; [discriminate|exact Hchars].
Qed.

Lemma string_of_uint_name_chars d : name_chars (NilEmpty.string_of_uint d) = true.
Proof. induction d; cbn; assumption || reflexivity. Qed.

Lemma Itoa_plain z : plain (Itoa z) = true.
Proof.
  unfold Itoa. apply name_chars_plain.
  - destruct (Z.to_int z) as [d|d]; cbn; [|discriminate].
    destruct d; discriminate.
  - destruct (Z.to_int z) as [d|d]; cbn.
    + destruct d; try reflexivity; apply (string_of_uint_name_chars (_ d)).
    + destruct d; try reflexivity; apply (string_of_uint_name_chars (_ d)).
Qed.

Lemma under_names root pid names :
  plain pid = true → Forall (λ n, plain n = true) names →
  under root (Join (root :: pid :: names)).
Proof.
  intros Hpid Hnames. exists (pid :: names). split; [discriminate|].
  split; [constructor; assumption|reflexivity].
Qed.

Lemma under_split root pid rest names :
  plain pid = true → Forall (λ n, plain n = true) names →
  (∀ out, foldl (clean_element (rooted root)) out (path_elements rest) = reverse names ++ out) →
  under root (Join [root; pid; rest]).
Proof.
  intros Hpid Hnames Hrest. exists (pid :: names). split; [discriminate|].
  split; [constructor; assumption|].
  rewrite Join_root, Join_names by assumption. cbn [flat_map]. rewrite app_nil_r, Hrest.
  rewrite reverse_app, reverse_involutive, reverse_cons, <- app_assoc. reflexivity.
Qed.

Lemma under_tcp root pid : plain pid = true → under root (Join [root; pid; "/net/tcp"]).
Proof.
  intros Hpid. apply (under_split root pid _ ["net"; "tcp"]%string); [exact Hpid| |].
  - repeat constructor.
  - intros out. reflexivity.
Qed.

Lemma under_tcp6 root pid : plain pid = true → under root (Join [root; pid; "/net/tcp6"]).
Proof.
  intros Hpid. apply (under_split root pid _ ["net"; "tcp6"]%string); [exact Hpid| |].
  - repeat constructor.
  - intros out. reflexivity.
Qed.

Lemma under_pre38Path root pid : plain pid = true → under root (Join [root; pid; pre38Path]).
Proof.
  intros Hpid. apply (under_split root pid _ ["net"; "dev"]%string); [exact Hpid| |].
  - repeat constructor.
  - intros out. reflexivity.
Qed.

Lemma under_post38Path root pid :
  plain pid = true → under root (Join [root; pid; post38Path]).
Proof.
  intros Hpid. apply (under_split root pid _ ["ns"; "net"]%string); [exact Hpid| |].
  - repeat constructor.
  - intros out. reflexivity.
Qed.

Lemma under_entry root pid fd :
  plain pid = true → plain fd = true → under root (Join [Join [root; pid; "fd"]; fd]).
Proof.
  intros Hpid Hfd.
  rewrite (Join_Join root pid ["fd"%string] [fd]) by (repeat constructor; assumption).
  apply under_names; [exact Hpid|]. repeat constructor. exact Hfd.
Qed.

Section ScanLog.
Context (w : World) (root : string) (S U : string → Prop) (P : list Event → Prop).
Context (HP : scan_property U P) (HU : scan_paths w root S U).

Lemma scan_paths_tcp p : U (tcpPath root p).
Proof. destruct HU as (_ & _ & Hp & _). destruct (Hp p) as (H & _ & _). exact H. Qed.

Lemma scan_paths_tcp6 p : U (tcp6Path root p).
Proof. destruct HU as (_ & _ & Hp & _). destruct (Hp p) as (_ & H & _). exact H. Qed.

Lemma scan_paths_fdBase p : U (fdBaseOf root p).
Proof. destruct HU as (_ & _ & Hp & _). destruct (Hp p) as (_ & _ & H). exact H. Qed.

Lemma appends_refl s : appends P s s.
Proof. split; [reflexivity|]. exists []. split; [reflexivity|apply HP]. Qed.

Lemma appends_trans s1 s2 s3 : appends P s1 s2 → appends P s2 s3 → appends P s1 s3.
Proof.
  intros (Hr1 & d1 & Ht1 & Hd1) (Hr2 & d2 & Ht2 & Hd2). split; [congruence|].
  exists (d2 ++ d1). split; [rewrite Ht2, Ht1, app_assoc; reflexivity|].
  apply HP; assumption.
Qed.

Lemma appends_log e s : P [e] → appends P s (logged e s).
Proof. intros He. split; [reflexivity|]. exists [e]. split; [reflexivity|exact He]. Qed.

Lemma appends_read f s : U f → appends P s (after_read w f s).
Proof.
  intros Hf. split; [reflexivity|]. exists [EvReadFile f]. split; [reflexivity|].
  apply HP, Hf.
Qed.

Lemma readLoop_appends procs e e6 s :
  procRoot s = root → appends P s (readLoop w procs e e6 s).2.
Proof.
  revert e e6 s. induction procs as [|p rest IH]; intros e e6 s Hroot.
  - rewrite readLoop_nil. apply appends_refl.
  - rewrite readLoop_cons.
    assert (appends P s (after_member w p s)) as Hm.
    { unfold after_member. eapply appends_trans; apply appends_read.
      - rewrite Hroot. apply scan_paths_tcp.
      - cbn. rewrite Hroot. apply scan_paths_tcp6. }
    destruct (member_fails _ _ _ _); [|exact Hm].
    eapply appends_trans; [exact Hm|]. apply IH.
    rewrite procRoot_after_member. exact Hroot.
Qed.

Lemma ticked_read_appends site procs s :
  procRoot s = root →
  appends P s (readProcessConnections w procs (logged (EvTick site) s)).2.
Proof.
  intros Hroot. rewrite readProcessConnections_eq.
  eapply appends_trans; [|apply readLoop_appends; exact Hroot].
  split; [reflexivity|]. exists [EvReadConnections; EvTick site].
  split; [reflexivity|apply HP].
Qed.

Lemma fdLoop_appends p base fds proc sockets c s :
  (∀ fd, fd ∈ fds → U (Join [base; fd])) →
  appends P s (fdLoop w p base fds proc sockets c s).2.
Proof.
  revert proc sockets c s.
  induction fds as [|fd fds IH]; intros proc sockets c s Hfds; [apply appends_refl|].
  rewrite fdLoop_cons. cbn zeta.
  assert (appends P s (logged (EvStat (Join [base; fd])) s)) as Hlog
    by (apply appends_log, HP, Hfds; left).
  assert (∀ fd', fd' ∈ fds → U (Join [base; fd'])) as Hrest
    by (intros fd' Hin; apply Hfds; right; exact Hin).
  destruct (Stat w (now s) _) as [|statT]; [|destruct (is_socket statT)];
    (eapply appends_trans; [exact Hlog|apply IH; exact Hrest]).
Qed.

Lemma walkLoop_appends K procs sockets c s :
  procRoot s = root → appends P s (walkLoop w K procs sockets c s).2.
Proof.
  revert sockets c s. induction procs as [|p rest IH]; intros sockets c s Hroot;
    [apply appends_refl|].
  assert (Hfds : ∀ c0 s0, procRoot s0 = root →
            appends P s0 (walk_fds w K p rest sockets c0 s0).2).
  { intros c0 s0 Hroot0. unfold walk_fds. cbn zeta. rewrite Hroot0.
    set (base := fdBaseOf root p).
    assert (appends P s0 (logged (EvReadDirNames base) s0)) as Hlog
      by (apply appends_log, HP, scan_paths_fdBase).
    eapply appends_trans; [exact Hlog|].
    destruct (ReadDirNames w (now s0) base) as [|fds] eqn:Hrd; [apply IH; exact Hroot0|].
    assert (appends P (logged (EvReadDirNames base) s0)
              (fdLoop w p base fds None sockets c0 (logged (EvReadDirNames base) s0)).2)
      as Hfd.
    { apply fdLoop_appends. intros fd Hin.
      destruct HU as (_ & _ & _ & _ & Hentry). exact (Hentry p _ fds fd Hrd Hin). }
    eapply appends_trans; [exact Hfd|].
    apply IH. destruct Hfd as [-> _]. exact Hroot0. }
  rewrite walkLoop_cons. destruct (K <? c); [|apply Hfds; exact Hroot]. cbn zeta.
  pose proof (ticked_read_appends RateLimit (p :: rest) s Hroot) as Hread.
  destruct (not_nil _ || negb _); [exact Hread|].
  eapply appends_trans; [exact Hread|]. apply Hfds.
  destruct Hread as [-> _]. exact Hroot.
Qed.

Lemma rangeLoop_appends K groups sockets s :
  procRoot s = root → appends P s (rangeLoop w K groups sockets s).2.
Proof.
  revert sockets s. induction groups as [|g groups IH]; intros sockets s Hroot;
    [apply appends_refl|].
  rewrite rangeLoop_cons. cbn zeta.
  assert (appends P s (walkNamespacePid w sockets g K (logged (EvTick GroupStart) s)).2)
    as Hwalk.
  { rewrite walkNamespacePid_eq. cbn zeta.
    pose proof (ticked_read_appends GroupStart g s Hroot) as Hread.
    destruct (not_nil _ || negb _); [exact Hread|].
    eapply appends_trans; [exact Hread|]. apply walkLoop_appends.
    destruct Hread as [-> _]. exact Hroot. }
  eapply appends_trans; [exact Hwalk|]. apply IH.
  destruct Hwalk as [-> _]. exact Hroot.
Qed.

Lemma getNetNamespacePathSuffix_appends s :
  appends P s (getNetNamespacePathSuffix w s).2.
Proof.
  destruct (String.eqb_spec (netNamespacePathSuffix s) EmptyString) as [He|Hne].
  - rewrite getNetNamespacePathSuffix_first by exact He. cbn [snd].
    split; [reflexivity|]. unfold after_probe. cbn [trace].
    destruct (detected w (now s)) as [err|v]; eexists; (split; [reflexivity|]).
    + apply (proj1 (proj2 HP) [EvUname] [EvLogError err]); apply HP.
    + apply HP.
  - rewrite getNetNamespacePathSuffix_memo by exact Hne. apply appends_refl.
Qed.

Lemma getNetNamespacePathSuffix_known s :
  suffix_known S s →
  S (getNetNamespacePathSuffix w s).1
  ∧ netNamespacePathSuffix (getNetNamespacePathSuffix w s).2
    = (getNetNamespacePathSuffix w s).1.
Proof.
  intros Hknown.
  destruct (String.eqb_spec (netNamespacePathSuffix s) EmptyString) as [He|Hne].
  - rewrite getNetNamespacePathSuffix_first by exact He. cbn [fst snd].
    split; [|reflexivity]. unfold resolve.
    destruct HU as (Hpre & Hpost & _).
    destruct (detected w (now s)) as [err|v]; [exact Hpost|].
    destruct (LessThan w v (v38 w)); assumption.
  - rewrite getNetNamespacePathSuffix_memo by exact Hne. cbn [fst snd].
    split; [|reflexivity]. destruct Hknown as [He|HS]; [contradiction|exact HS].
Qed.

Lemma groupLoop_appends walked namespaces s :
  procRoot s = root → suffix_known S s →
  appends P s (groupLoop w walked namespaces s).2.
Proof.
  revert namespaces s. induction walked as [|p rest IH]; intros namespaces s Hroot Hknown;
    [apply appends_refl|].
  rewrite groupLoop_cons. cbn zeta.
  pose proof (getNetNamespacePathSuffix_appends s) as Hres.
  destruct (getNetNamespacePathSuffix_known s Hknown) as [HS Hmemo].
  eapply appends_trans; [exact Hres|].
  set (x := Join _).
  assert (appends P (getNetNamespacePathSuffix w s).2
            (logged (EvStat x) (getNetNamespacePathSuffix w s).2)) as Hlog.
  { apply appends_log, HP. subst x. rewrite Hroot.
    destruct HU as (_ & _ & _ & Hns & _). apply Hns, HS. }
  eapply appends_trans; [exact Hlog|].
  destruct (Stat w _ x); apply IH;
    solve [cbn; destruct Hres as [-> _]; exact Hroot
          |right; cbn [logged emit snd netNamespacePathSuffix]; rewrite Hmemo; exact HS].
Qed.

Lemma walkProcPid_appends walked range K s :
  procRoot s = root → suffix_known S s →
  appends P s (walkProcPid w walked range K s).2.
Proof.
  intros Hroot Hknown. rewrite walkProcPid_eq. cbn zeta. cbn [snd].
  pose proof (groupLoop_appends walked ∅ s Hroot Hknown) as Hgroup.
  eapply appends_trans; [exact Hgroup|].
  eapply appends_trans; [apply rangeLoop_appends; destruct Hgroup as [-> _]; exact Hroot|].
  apply appends_log, HP.
Qed.

End ScanLog.

Lemma appends_events_between P s s' :
  appends P s s' → trace s' = events_between s s' ++ trace s ∧ P (events_between s s').
Proof.
  intros (_ & delta & Ht & Hd). unfold events_between. rewrite Ht, length_app.
  replace (length delta + length (trace s) - length (trace s))%nat
    with (length delta) by lia.
  rewrite take_app_length. auto.
Qed.

Lemma confined_scan_property root : scan_property (under root) (confined root).
Proof.
  unfold confined. repeat split.
  - constructor.
  - intros d1 d2 H1 H2. apply Forall_app. auto.
  - constructor; [|constructor]. intros y [= <-]. assumption.
  - constructor; [|constructor]. intros y [= <-]. assumption.
  - constructor; [|constructor]. intros y [= <-]. assumption.
  - constructor; [|constructor]. discriminate.
  - intros m. constructor; [|constructor]. discriminate.
  - intros n. constructor; [|constructor]. discriminate.
  - intros site. repeat constructor; discriminate.
Qed.

Lemma neutral_scan_property : scan_property (λ _, True) neutral.
Proof.
  unfold neutral. repeat split; try reflexivity.
  intros d1 d2 H1 H2 tr. rewrite <- app_assoc, H2, H1. reflexivity.
Qed.

Lemma any_scan_paths w root : scan_paths w root (λ _, True) (λ _, True).
Proof. unfold scan_paths. repeat split; intros; exact I. Qed.

(** The paths of a scan are under the proc root when the descriptor
    directories list plain names. *)
Lemma under_scan_paths (w : World) (root : string) :
  (∀ t dir fds fd, ReadDirNames w t dir = inr fds → fd ∈ fds → plain fd = true) →
  scan_paths w root (λ suffix, suffix = pre38Path ∨ suffix = post38Path) (under root).
Proof.
  intros Hnames. split; [left; reflexivity|]. split; [right; reflexivity|].
  split; [|split].
  - intros p. split; [|split].
    + apply under_tcp, Itoa_plain.
    + apply under_tcp6, Itoa_plain.
    + apply (under_names root _ ["fd"%string]); [apply Itoa_plain|repeat constructor].
  - intros p suffix [->| ->]; [apply under_pre38Path|apply under_post38Path];
      apply Itoa_plain.
  - intros p t fds fd Hrd Hin. apply under_entry; [apply Itoa_plain|].
    exact (Hnames t _ fds fd Hrd Hin).
Qed.

Lemma host_names_plain t dir fds fd :
  ReadDirNames host t dir = inr fds → fd ∈ fds → plain fd = true.
Proof.
  cbn. repeat (destruct (String.eqb dir _)); intros H; inversion H; subst;
    intros Hin; repeat (apply elem_of_cons in Hin as [->|Hin]; [reflexivity|]);
    inversion Hin.
Qed.

(** X6. A scan stays under the proc root.  Let the world list plain names in
    its directories (names of entries: not empty, not [.] or [..], without a
    slash), and let the memoized suffix be unset or one of the two the
    resolver assigns.  Then, after [SetProcRoot root], every file
    [walkProcPid] reads, every directory it lists and every path it stats is
    what [filepath.Join] makes of [root] and one or more plain names: the
    cleaned [root] followed by these names, whatever [root] is, relative,
    ending in a slash or empty; and the scan leaves the proc root as set. *)
Theorem scan_confined_to_procRoot (w : World) (root : string) (walked : list Process)
    (range : gmap Z (list Process) → list (Z * list Process)) (K : Z) (s : State) :
  (∀ t dir fds fd, ReadDirNames w t dir = inr fds → fd ∈ fds → plain fd = true) →
  netNamespacePathSuffix s = EmptyString
  ∨ netNamespacePathSuffix s = pre38Path ∨ netNamespacePathSuffix s = post38Path →
  let s1 := (SetProcRoot root s).2 in
  let s' := (walkProcPid w walked range K s1).2 in
  confined root (events_between s1 s') ∧ procRoot s' = root
  ∧ ∀ x, under root x →
         ∃ names, names ≠ [] ∧ Forall (λ n, plain n = true) names
                  ∧ x = cleaned (rooted root) (reverse (root_elements root) ++ names).
Proof.
  intros Hnames Hmemo s1 s'.
  pose proof (walkProcPid_appends w root _ _ (confined root) (confined_scan_property root)
                (under_scan_paths w root Hnames) walked range K s1 eq_refl Hmemo) as Happ.
  split; [apply (appends_events_between _ _ _ Happ)|]. split; [apply Happ|].
  intros x (names & Hne & Hplain & ->). exists names. split; [exact Hne|].
  split; [exact Hplain|]. destruct names as [|pid names]; [done|].
  inversion Hplain; subst. apply Join_names; assumption.
Qed.

Lemma scan_confined_to_procRoot_witness :
  let s1 := (SetProcRoot "/proc/" start).2 in
  let s' := (walkProcPid host [pA; pB; pC] map_to_list 2 s1).2 in
  confined "/proc/" (events_between s1 s') ∧ procRoot s' = "/proc/"%string
  ∧ ∀ x, under "/proc/" x →
         ∃ names, names ≠ [] ∧ Forall (λ n, plain n = true) names
                  ∧ x = cleaned (rooted "/proc/")
                          (reverse (root_elements "/proc/") ++ names).
Proof.
  exact (scan_confined_to_procRoot host "/proc/" [pA; pB; pC] map_to_list 2 start
           host_names_plain (or_introl eq_refl)).
Defined.

(** X7. In a scan the reader is invoked only right after a receive on the
    ticker: among the events [walkProcPid] logs, each invocation of
    [readProcessConnections] directly follows a tick, the one that opens the
    group or the one of a rate-limit pause. *)
Theorem scan_reads_follow_ticks (w : World) (walked : list Process)
    (range : gmap Z (list Process) → list (Z * list Process)) (K : Z) (s : State) :
  reads_follow_ticks (events_between s (walkProcPid w walked range K s).2) = true.
Proof.
  pose proof (walkProcPid_appends w (procRoot s) _ _ neutral neutral_scan_property
                (any_scan_paths w (procRoot s)) walked range K s eq_refl
                (or_intror I)) as Happ.
  destruct (appends_events_between _ _ _ Happ) as [_ Hneutral].
  rewrite <- (app_nil_r (events_between _ _)). rewrite Hneutral. reflexivity.
Qed.

(** ** The first traversal *)

Section Grouping.
Context (w : World).

Lemma rangeLoop_count f K groups sockets s :
  outside_walk f → f (EvTick GroupStart) = false →
  count f (trace (rangeLoop w K groups sockets s).2) = count f (trace s).
Proof.
  intros Hf Htick. revert sockets s.
  induction groups as [|g groups IH]; intros sockets s; [reflexivity|].
  rewrite rangeLoop_cons. cbn zeta.
  rewrite IH, walkNamespacePid_count by exact Hf. cbn. rewrite Htick. lia.
Qed.


(** Once a suffix is memoized the traversal neither probes nor forgets it. *)
Lemma groupLoop_memoized walked namespaces s :
  netNamespacePathSuffix s ≠ EmptyString →
  count is_uname (trace (groupLoop w walked namespaces s).2) = count is_uname (trace s)
  ∧ netNamespacePathSuffix (groupLoop w walked namespaces s).2
    = netNamespacePathSuffix s.
Proof.
  revert namespaces s. induction walked as [|p rest IH]; intros namespaces s Hmemo;
    [split; reflexivity|].
  rewrite groupLoop_cons. cbn zeta.
  rewrite getNetNamespacePathSuffix_memo by exact Hmemo. cbn [fst snd].
  set (e := EvStat _).
  assert (∀ namespaces',
    count is_uname (trace (groupLoop w rest namespaces' (logged e s)).2)
    = count is_uname (trace s)
    ∧ netNamespacePathSuffix (groupLoop w rest namespaces' (logged e s)).2
      = netNamespacePathSuffix s) as Hrest.
  { intros namespaces'. destruct (IH namespaces' (logged e s) Hmemo) as [-> ->].
    split; reflexivity. }
  destruct (Stat w (now s) _); apply Hrest.
Qed.

Lemma groupLoop_unames walked namespaces s :
  netNamespacePathSuffix s = EmptyString → walked ≠ [] →
  count is_uname (trace (groupLoop w walked namespaces s).2)
  = count is_uname (trace s) + 1
  ∧ netNamespacePathSuffix (groupLoop w walked namespaces s).2 ≠ EmptyString.
Proof.
  intros Hmemo Hne. destruct walked as [|p rest]; [contradiction|].
  rewrite groupLoop_cons. cbn zeta.
  rewrite getNetNamespacePathSuffix_first by exact Hmemo. cbn [fst snd].
  set (e := EvStat _).
  assert (netNamespacePathSuffix (logged e (after_probe w s)) ≠ EmptyString) as Hset
    by apply resolve_not_empty.
  assert (count is_uname (trace (logged e (after_probe w s)))
          = count is_uname (trace s) + 1) as Hone.
  { cbn. destruct (detected w (now s)); cbn; lia. }
  assert (∀ namespaces',
    count is_uname (trace (groupLoop w rest namespaces' (logged e (after_probe w s))).2)
    = count is_uname (trace s) + 1
    ∧ netNamespacePathSuffix
        (groupLoop w rest namespaces' (logged e (after_probe w s))).2
      ≠ EmptyString) as Hrest.
  { intros namespaces'.
    destruct (groupLoop_memoized rest namespaces' _ Hset) as [-> ->].
    split; [exact Hone|exact Hset]. }
  destruct (Stat w _ _); apply Hrest.
Qed.


(** Every group holds processes of the enumeration, in its order, and holds
    one at least. *)
Lemma groupLoop_sublists seen walked namespaces s :
  map_Forall (λ _ g, g ≠ [] ∧ g `sublist_of` seen) namespaces →
  map_Forall (λ _ g, g ≠ [] ∧ g `sublist_of` (seen ++ walked))
    (groupLoop w walked namespaces s).1.
Proof.
  revert seen namespaces s.
  induction walked as [|p rest IH]; intros seen namespaces s Hinv.
  - rewrite app_nil_r. exact Hinv.
  - rewrite groupLoop_cons. cbn zeta.
    assert (map_Forall (λ _ g, g ≠ [] ∧ g `sublist_of` (seen ++ [p])) namespaces)
      as Hinv'.
    { intros k g Hg. destruct (Hinv k g Hg) as [Hne Hsub].
      split; [exact Hne|]. apply sublist_inserts_r. exact Hsub. }
    replace (seen ++ p :: rest) with ((seen ++ [p]) ++ rest)
      by (rewrite <- app_assoc; reflexivity).
    destruct (Stat w _ _) as [|statT]; apply IH; [exact Hinv'|].
    apply map_Forall_insert_2; [|exact Hinv'].
    split; [destruct (default [] _); discriminate|].
    apply sublist_app; [|reflexivity].
    destruct (namespaces !! Ino statT) as [g|] eqn:Hg; cbn.
    + apply (Hinv _ _ Hg).
    + apply sublist_nil_l.
Qed.

End Grouping.

(** X8. The kernel is probed at most once, and only by a scan that has a
    process to place: [walkProcPid] calls uname exactly once when no suffix is
    memoized and the walker yields a process, and never otherwise; a scan that
    saw a process leaves a suffix memoized, and a memoized suffix is never
    changed.  So of two scans in a row the second does not probe. *)
Theorem kernel_probed_once (w : World) (walked : list Process)
    (range : gmap Z (list Process) → list (Z * list Process)) (K : Z) (s : State) :
  let s' := (walkProcPid w walked range K s).2 in
  unames_during s s'
  = (if bool_decide (netNamespacePathSuffix s = EmptyString ∧ walked ≠ [])
     then 1 else 0)
  ∧ (walked ≠ [] → netNamespacePathSuffix s' ≠ EmptyString)
  ∧ (netNamespacePathSuffix s ≠ EmptyString →
     netNamespacePathSuffix s' = netNamespacePathSuffix s).
Proof.
  intros s'. subst s'. rewrite walkProcPid_eq. cbn zeta. cbn [snd].
  set (g := groupLoop w walked ∅ s).
  pose proof (rangeLoop_count w is_uname K ((range g.1).*2) ∅ g.2
                ltac:(repeat split; reflexivity) eq_refl) as Hcount.
  pose proof (steps_suffix w false _ _ eq_refl
                (rangeLoop_steps w false K ((range g.1).*2) ∅ g.2)) as Hmemo.
  unfold unames_during. cbn [logged emit snd trace netNamespacePathSuffix count is_uname].
  rewrite Hcount, Hmemo. subst g.
  destruct (String.eqb_spec (netNamespacePathSuffix s) EmptyString) as [He|Hne].
  - destruct walked as [|p rest].
    + rewrite bool_decide_eq_false_2 by (intros [_ H]; contradiction).
      cbn. split; [lia|]. split; [contradiction|]. intros H. contradiction.
    + rewrite bool_decide_eq_true_2 by (split; [exact He|discriminate]).
      destruct (groupLoop_unames w (p :: rest) ∅ s He ltac:(discriminate)) as [-> Hset].
      split; [lia|]. split; [intros _; exact Hset|]. intros H. contradiction.
  - rewrite bool_decide_eq_false_2 by (intros [H _]; contradiction).
    destruct (groupLoop_memoized w walked ∅ s Hne) as [-> ->].
    split; [lia|]. split; [intros _; exact Hne|]. intros _. reflexivity.
Qed.



(** X10. The groups of the first traversal are made of the processes the
    walker yields: every group has a member, and its members are processes of
    the enumeration, in the order of the enumeration.  So the reader is never
    handed an empty group. *)
Theorem groups_are_enumerated (w : World) (walked : list Process) (s : State)
    (k : Z) (g : list Process) :
  (groupLoop w walked ∅ s).1 !! k = Some g →
  g ≠ [] ∧ g `sublist_of` walked.
Proof.
  intros Hg.
  apply (groupLoop_sublists w [] walked ∅ s (map_Forall_empty _) k g Hg).
Qed.

Lemma groups_are_enumerated_witness :
  [pA; pB] ≠ [] ∧ [pA; pB] `sublist_of` [pA; pC; pB].
Proof.
  apply (groups_are_enumerated host [pA; pC; pB] start 555).
  vm_compute. reflexivity.
Defined.


Section StaticGroups.
Context (w : World) (Hstatic : static w).

Lemma groupLoop_lookup_static walked namespaces s k :
  (groupLoop w walked namespaces s).1 !! k
  = match namespaces !! k,
          filter (λ p, namespace_of w (procRoot s) (effective_suffix w s) p = Some k)
                 walked
    with
    | None, [] => None
    | o, l => Some (default [] o ++ l)
    end.
Proof.
  revert namespaces s. induction walked as [|p rest IH]; intros namespaces s.
  - rewrite groupLoop_nil. cbn.
    destruct (namespaces !! k); [rewrite app_nil_r|]; reflexivity.
  - rewrite groupLoop_cons. cbn zeta.
    destruct (getNetNamespacePathSuffix_static w Hstatic s) as (Hv & Hm & Hr).
    destruct (getNetNamespacePathSuffix w s) as [x s1]. cbn [fst snd] in *. subst x.
    set (path := Join _). set (s2 := logged (EvStat path) s1).
    assert (procRoot s2 = procRoot s) as Hr2 by exact Hr.
    assert (effective_suffix w s2 = effective_suffix w s) as He2.
    { apply effective_suffix_memo; [exact Hm|apply effective_suffix_not_empty]. }
    rewrite (static_Stat w Hstatic (now s1) 0).
    assert (namespace_of w (procRoot s) (effective_suffix w s) p
            = match Stat w 0 path with inl _ => None | inr statT => Some (Ino statT) end)
      as Hns by reflexivity.
    destruct (Stat w 0 path) as [e|statT].
    + rewrite IH, Hr2, He2. rewrite filter_cons_False by (rewrite Hns; discriminate).
      reflexivity.
    + rewrite IH, Hr2, He2. destruct (decide (Ino statT = k)) as [<-|Hne].
      * rewrite lookup_insert_eq, filter_cons_True by exact Hns.
        cbn. rewrite <- app_assoc. cbn.
        destruct (namespaces !! Ino statT); reflexivity.
      * rewrite lookup_insert_ne by exact Hne.
        rewrite filter_cons_False by (rewrite Hns; congruence). reflexivity.
Qed.

End StaticGroups.

(** X11. In a world that does not change the first traversal groups the
    processes by the inode of their namespace path: the group of inode [k] is
    the list of the enumerated processes whose namespace path stats with inode
    [k], in the order of the enumeration, and there is no group for an inode
    that no process has.  A process whose namespace path cannot be statted is in
    no group, every other process is in the group of its inode and in no
    other. *)
Theorem groups_by_namespace_inode (w : World) (walked : list Process) (s : State)
    (k : Z) :
  static w →
  (groupLoop w walked ∅ s).1 !! k
  = let g := filter (λ p, namespace_of w (procRoot s) (effective_suffix w s) p = Some k)
                    walked in
    if decide (g = []) then None else Some g.
Proof.
  intros Hstatic. rewrite (groupLoop_lookup_static w Hstatic).
  rewrite lookup_empty. cbn zeta. destruct (filter _ walked); reflexivity.
Qed.

Lemma groups_by_namespace_inode_witness :
  (groupLoop host [pA; pC; pB] ∅ start).1 !! 555 = Some [pA; pB].
Proof.
  rewrite (groups_by_namespace_inode host [pA; pC; pB] start 555
             (fixture_static _ _ _ _)).
  vm_compute. reflexivity.
Defined.

(** X12. The scan names only processes the walker yielded: the owner the
    result gives to an inode is the owner record of an enumerated process for
    which a socket descriptor with that inode was observed. *)
Theorem result_owners_are_enumerated (w : World) (walked : list Process)
    (range : gmap Z (list Process) → list (Z * list Process)) (K : Z) (s : State)
    (ino : Z) (owner : Proc) :
  go_range range →
  (walkProcPid w walked range K s).1.1 !! ino = Some owner →
  ∃ p, p ∈ walked ∧ owner = owner_of p ∧ observed_socket w (procRoot s) p ino.
Proof.
  intros Hrange Hlook. rewrite walkProcPid_eq in Hlook. cbn zeta in Hlook.
  cbn [fst] in Hlook.
  set (g := groupLoop w walked ∅ s) in *.
  pose proof (rangeLoop_entries w K ((range g.1).*2) ((range g.1).*2) ∅ g.2
                ltac:(reflexivity) (map_Forall_empty _) ino owner Hlook)
    as (grp & p & Hgrp & Hp & Howner & _ & Hobs).
  exists p. split; [|split; [exact Howner|]].
  - apply list_elem_of_fmap in Hgrp as ([k grp'] & -> & Hin). cbn in Hp.
    rewrite (Hrange g.1) in Hin. apply elem_of_map_to_list in Hin.
    destruct (groupLoop_sublists w [] walked ∅ s (map_Forall_empty _) k grp' Hin)
      as [_ Hsub].
    eapply elem_of_sublist; eassumption.
  - subst g. rewrite groupLoop_procRoot in Hobs. exact Hobs.
Qed.

Lemma result_owners_are_enumerated_witness :
  ∃ p, p ∈ [pA; pB; pC] ∧ owner_of pB = owner_of p
       ∧ observed_socket host (procRoot start) p 9100.
Proof.
  apply (result_owners_are_enumerated host [pA; pB; pC] map_to_list 2 start 9100
           (owner_of pB) map_to_list_go_range).
  vm_compute. reflexivity.
Defined.

(** ** The walk of a group in a world that does not change *)

Section StaticWalk.
Context (w : World) (Hstatic : static w).

Lemma total_descriptors_nonneg root procs : 0 ≤ total_descriptors w root procs.
Proof.
  induction procs as [|p rest IH]; [reflexivity|]. cbn [total_descriptors].
  unfold descriptors. destruct (ReadDirNames w 0 _); lia.
Qed.

(** After the descriptors of [p], the inodes of its sockets are its own and
    the other entries are as before. *)
Lemma fdLoop_static_lookup p base fds proc sockets c s ino :
  proc = None ∨ proc = Some (owner_of p) →
  (fdLoop w p base fds proc sockets c s).1.1 !! ino
  = if decide (ino ∈ omap (socket_inode w base) fds) then Some (owner_of p)
    else sockets !! ino.
Proof.
  revert proc sockets c s.
  induction fds as [|fd fds IH]; intros proc sockets c s Hproc.
  - rewrite fdLoop_nil. cbn. rewrite decide_False by apply not_elem_of_nil.
    reflexivity.
  - rewrite fdLoop_cons. cbn zeta. rewrite (static_Stat w Hstatic (now s) 0).
    destruct (Stat w 0 (Join [base; fd])) as [e|statT] eqn:Hst.
    { assert (omap (socket_inode w base) (fd :: fds) = omap (socket_inode w base) fds)
        as -> by (cbn; unfold socket_inode at 1; rewrite Hst; reflexivity).
      apply IH; exact Hproc. }
    destruct (is_socket statT) eqn:Hsock.
    2:{ assert (omap (socket_inode w base) (fd :: fds) = omap (socket_inode w base) fds)
          as -> by (cbn; unfold socket_inode at 1; rewrite Hst, Hsock; reflexivity).
        apply IH; exact Hproc. }
    assert (omap (socket_inode w base) (fd :: fds)
            = Ino statT :: omap (socket_inode w base) fds)
      as -> by (cbn; unfold socket_inode at 1; rewrite Hst, Hsock; reflexivity).
    assert (default (owner_of p) proc = owner_of p) as ->
      by (destruct Hproc as [->| ->]; reflexivity).
    rewrite IH by (right; reflexivity).
    destruct (decide (ino ∈ omap (socket_inode w base) fds)) as [Hin|Hnin].
    + rewrite decide_True by (right; exact Hin). reflexivity.
    + destruct (decide (ino = Ino statT)) as [->|Hne].
      * rewrite decide_True by left. apply lookup_insert_eq.
      * rewrite decide_False by (intros [?|?]%elem_of_cons; contradiction).
        apply lookup_insert_ne. congruence.
Qed.

(** With the budget above the number of descriptors the walk takes no pause,
    returns no error, and the last holder of an inode owns it. *)
Lemma walkLoop_static_no_pause K procs sockets c s ino :
  K ≤ max_int → 0 ≤ c → c + total_descriptors w (procRoot s) procs ≤ K →
  (walkLoop w K procs sockets c s).1.1 = None
  ∧ (walkLoop w K procs sockets c s).1.2 !! ino
    = match last_holder w (procRoot s) procs ino with
      | Some p => Some (owner_of p)
      | None => sockets !! ino
      end.
Proof.
  intros HK. revert sockets c s.
  induction procs as [|p rest IH]; intros sockets c s Hc Htotal.
  - rewrite walkLoop_nil. split; reflexivity.
  - cbn [total_descriptors] in Htotal.
    pose proof (total_descriptors_nonneg (procRoot s) rest) as Hrest.
    assert (0 ≤ descriptors w (procRoot s) p) as Hp
      by (unfold descriptors; destruct (ReadDirNames w 0 _); lia).
    rewrite walkLoop_cons. rewrite (proj2 (Z.ltb_ge K c)) by lia.
    unfold walk_fds, last_holder. cbn zeta.
    rewrite (static_ReadDirNames w Hstatic (now s) 0).
    unfold descriptors in Htotal, Hp.
    set (base := fdBaseOf (procRoot s) p) in *.
    set (s1 := logged (EvReadDirNames base) s).
    destruct (ReadDirNames w 0 base) as [e|fds] eqn:Hls.
    + assert (socket_inodes w (procRoot s) p = []) as Hnone
        by (unfold socket_inodes; fold base; rewrite Hls; reflexivity).
      destruct (IH sockets c s1 Hc ltac:(cbn; lia)) as [Herr Hlook].
      split; [exact Herr|]. rewrite Hlook.
      rewrite filter_cons_False by (rewrite Hnone; apply not_elem_of_nil).
      reflexivity.
    + assert (socket_inodes w (procRoot s) p = omap (socket_inode w base) fds) as Hsome
        by (unfold socket_inodes; fold base; rewrite Hls; reflexivity).
      pose proof (fdLoop_static_lookup p base fds None sockets c s1 ino
                    ltac:(left; reflexivity)) as Hfd.
      pose proof (fdLoop_blockCount w p base fds None sockets c s1 Hc ltac:(lia)) as Hbc.
      pose proof (fdLoop_procRoot w p base fds None sockets c s1) as Hroot.
      destruct (fdLoop w p base fds None sockets c s1) as [[m1 c1] s2].
      cbn [fst snd] in *. subst c1.
      destruct (IH m1 (c + Z.of_nat (length fds)) s2 ltac:(lia)
                  ltac:(rewrite Hroot; cbn; lia)) as [Herr Hlook].
      split; [exact Herr|]. rewrite Hlook, Hroot. unfold last_holder.
      change (procRoot s1) with (procRoot s).
      destruct (decide (ino ∈ omap (socket_inode w base) fds)) as [Hin|Hnin].
      * rewrite filter_cons_True by (rewrite Hsome; exact Hin). rewrite last_cons.
        destruct (last (filter _ rest)); [reflexivity|exact Hfd].
      * rewrite filter_cons_False by (rewrite Hsome; exact Hnin).
        destruct (last (filter _ rest)); [reflexivity|exact Hfd].
Qed.

Lemma walkNamespacePid_static_no_pause sockets procs K s :
  K ≤ max_int →
  total_descriptors w (procRoot s) procs ≤ K →
  (readProcessConnections w procs s).1 = (true, None) →
  (walkNamespacePid w sockets procs K s).1.1 = None
  ∧ ∀ ino, (walkNamespacePid w sockets procs K s).1.2 !! ino
           = match last_holder w (procRoot s) procs ino with
             | Some p => Some (owner_of p)
             | None => sockets !! ino
             end.
Proof.
  intros HK Htotal Hread. rewrite walkNamespacePid_eq. cbn zeta.
  pose proof (readProcessConnections_procRoot w procs s) as Hroot.
  destruct (readProcessConnections w procs s) as [[found err] s1].
  cbn [fst snd] in *. injection Hread as -> ->. cbn [not_nil negb orb].
  rewrite <- Hroot in Htotal |- *.
  split; [|intros ino].
  - apply (walkLoop_static_no_pause K procs sockets 0 s1 0 HK); lia.
  - apply (walkLoop_static_no_pause K procs sockets 0 s1 ino HK); lia.
Qed.

End StaticWalk.

(** X13. Last write wins.  In a world that does not change, when the read of
    the tables of a group reports connections and the budget [K] is at least
    the number of descriptors the processes of the group list, the walk returns
    a nil error and a map in which every inode held as a socket by a process of
    the group belongs to the last such process in the order of the group, and
    every other inode is as it was. *)
Theorem last_holder_wins (w : World) (sockets : gmap Z Proc) (procs : list Process)
    (K : Z) (s : State) :
  static w → K ≤ max_int →
  total_descriptors w (procRoot s) procs ≤ K →
  (readProcessConnections w procs s).1 = (true, None) →
  let r := (walkNamespacePid w sockets procs K s).1 in
  r.1 = None
  ∧ ∀ ino, r.2 !! ino = match last_holder w (procRoot s) procs ino with
                        | Some p => Some (owner_of p)
                        | None => sockets !! ino
                        end.
Proof.
  intros Hstatic HK Htotal Hread r. subst r.
  apply (walkNamespacePid_static_no_pause w Hstatic); assumption.
Qed.

Lemma last_holder_wins_witness :
  (walkNamespacePid host {[9100 := owner_of pA]} [pA; pB] 6 start).1.2 !! 9100
  = Some (owner_of pB).
Proof.
  destruct (last_holder_wins host {[9100 := owner_of pA]} [pA; pB] 6 start
              (fixture_static _ _ _ _)) as [_ Hlook].
  - unfold max_int. lia.
  - vm_compute. discriminate.
  - vm_compute. reflexivity.
  - rewrite Hlook. vm_compute. reflexivity.
Defined.


(** ** The scan of a world that does not change *)

Section StaticScan.
Context (w : World) (Hstatic : static w).

(** The map a group builds on its own, when the budget covers its
    descriptors. *)
Lemma group_sockets_lookup root K g ino :
  K ≤ max_int → total_descriptors w root g ≤ K →
  group_sockets w root K g !! ino = owner_of <$> holder_in w root ino g.
Proof.
  intros HK Htotal. unfold group_sockets, holder_in, connected.
  destruct (decide ((readProcessConnections w g (fresh root)).1 = (true, None)))
    as [Hread|Hread].
  - rewrite bool_decide_eq_true_2 by exact Hread.
    destruct (walkNamespacePid_static_no_pause w Hstatic ∅ g K (fresh root) HK Htotal
                Hread) as [_ Hlook].
    rewrite Hlook. cbn [procRoot fresh].
    destruct (last_holder w root g ino); [reflexivity|apply lookup_empty].
  - rewrite bool_decide_eq_false_2 by exact Hread. cbn.
    rewrite walkNamespacePid_eq. cbn zeta.
    destruct (readLoop_result w g None None (logged EvReadConnections (fresh root)))
      as [Hfound _].
    cbn zeta in Hfound. rewrite <- readProcessConnections_eq in Hfound.
    destruct (readProcessConnections w g (fresh root)) as [[found err] s1].
    cbn [fst snd] in *. destruct err as [e|]; [apply lookup_empty|].
    destruct found; [contradiction|apply lookup_empty].
Qed.

Lemma rangeLoop_static_lookup K groups sockets s ino :
  K ≤ max_int →
  (∀ g, g ∈ groups → total_descriptors w (procRoot s) g ≤ K) →
  (rangeLoop w K groups sockets s).1 !! ino
  = match scan_owner w (procRoot s) groups ino with
    | Some p => Some (owner_of p)
    | None => sockets !! ino
    end.
Proof.
  intros HK. rewrite (rangeLoop_fold w Hstatic). unfold scan_owner.
  set (root := procRoot s). clearbody root. revert sockets.
  induction groups as [|g groups IH]; intros sockets Htotal; [reflexivity|].
  cbn [foldl omap list_omap].
  rewrite IH by (intros g' Hg'; apply Htotal; right; exact Hg').
  rewrite lookup_union, (group_sockets_lookup root K g ino HK)
    by (apply Htotal; left).
  destruct (holder_in w root ino g) as [p|]; cbn.
  - rewrite last_cons. destruct (last (omap _ groups)); [reflexivity|].
    destruct (sockets !! ino); reflexivity.
  - destruct (last (omap _ groups)); [reflexivity|].
    destruct (sockets !! ino); reflexivity.
Qed.

End StaticScan.

(** X14. What a scan computes.  In a world that does not change, with a
    budget that covers the descriptors of every group, the map left by the scan
    of the groups gives an inode to the last process that holds it as a socket
    in the last visited group that has such a process and whose tables report
    connections; an inode without such a group is as it was in the map the
    scan started from. *)
Theorem scan_assigns_last_holder (w : World) (K : Z) (groups : list (list Process))
    (sockets : gmap Z Proc) (s : State) (ino : Z) :
  static w → K ≤ max_int →
  (∀ g, g ∈ groups → total_descriptors w (procRoot s) g ≤ K) →
  (rangeLoop w K groups sockets s).1 !! ino
  = match scan_owner w (procRoot s) groups ino with
    | Some p => Some (owner_of p)
    | None => sockets !! ino
    end.
Proof. intros Hstatic. apply (rangeLoop_static_lookup w Hstatic). Qed.

Lemma scan_assigns_last_holder_witness :
  (rangeLoop host 6 [[pA; pB]; [pC]] ∅ start).1 !! 9999 = Some (owner_of pC).
Proof.
  rewrite (scan_assigns_last_holder host 6 [[pA; pB]; [pC]] ∅ start 9999
             (fixture_static _ _ _ _)).
  - vm_compute. reflexivity.
  - unfold max_int. lia.
  - intros g Hg.
    apply elem_of_cons in Hg as [->|Hg]; [vm_compute; discriminate|].
    apply list_elem_of_singleton in Hg as ->. vm_compute. discriminate.
Defined.


(** ** The buffer after a read, the gauge after a scan *)

Lemma after_members_buf (w : World) pre s :
  buf (after_members w pre s) = buf s ++ given_up_bytes w (now s) (procRoot s) pre.
Proof.
  unfold after_members. revert s. induction pre as [|q pre IH]; intros s.
  - cbn. rewrite app_nil_r. reflexivity.
  - cbn [foldl given_up_bytes]. rewrite IH, now_after_member, procRoot_after_member.
    unfold after_member. cbn [after_read buf procRoot now trace length].
    rewrite <- !app_assoc. reflexivity.
Qed.

(** X15. Nothing a member put in the buffer is taken back when the member is
    given up: when the members [pre] are given up and the reads of [p] return
    [d] and [d6] without error, the buffer after [readProcessConnections] is
    the buffer before, then what the reads of the members of [pre] returned
    before failing (the TCP table of a member whose TCP6 read failed, for
    one), then [d], then [d6]. *)
Theorem given_up_members_leave_bytes (w : World) (pre : list Process) (p : Process)
    (post : list Process) (s : State) (d d6 : list byte) :
  let turn (j : nat) := (S (now s) + 2 * j)%nat in
  (∀ j q, pre !! j = Some q → member_fails w (turn j) (procRoot s) q = true) →
  OpenRead w (turn (length pre)) (tcpPath (procRoot s) p) = ReadsData d None →
  OpenRead w (S (turn (length pre))) (tcp6Path (procRoot s) p) = ReadsData d6 None →
  buf (readProcessConnections w (pre ++ p :: post) s).2
  = buf s ++ given_up_bytes w (turn 0%nat) (procRoot s) pre ++ d ++ d6.
Proof.
  intros turn Hpre Hd Hd6. rewrite readProcessConnections_eq.
  set (s1 := logged EvReadConnections s).
  assert (member_fails w (now s1 + 2 * length pre)%nat (procRoot s1) p = false) as Hp.
  { unfold member_fails, member_errors.
    change (now s1 + 2 * length pre)%nat with (turn (length pre)).
    change (procRoot s1) with (procRoot s). rewrite Hd, Hd6. reflexivity. }
  rewrite (readLoop_first_success_state w pre p post None None s1 Hpre Hp).
  destruct (after_members_facts w pre s1) as (Hnow & Hroot & _).
  unfold after_member. cbn [after_read buf procRoot now trace length].
  rewrite Hroot. fold (now (after_members w pre s1)). rewrite Hnow.
  change (now s1 + 2 * length pre)%nat with (turn (length pre)).
  change (procRoot s1) with (procRoot s). rewrite Hd, Hd6. cbn [read_data].
  rewrite after_members_buf.
  change (now s1) with (S (now s)). change (procRoot s1) with (procRoot s).
  change (buf s1) with (buf s).
  replace (turn 0%nat) with (S (now s)) by (unfold turn; lia).
  rewrite <- !app_assoc. reflexivity.
Qed.

Lemma given_up_members_leave_bytes_witness :
  buf (readProcessConnections
         (fixture (inr "4.4.0"%string)
            [("/proc/300/net/tcp"%string, String.list_byte_of_string "x");
             ("/proc/100/net/tcp"%string, String.list_byte_of_string "y");
             ("/proc/100/net/tcp6"%string, [])] [] [])
         ([pC] ++ pA :: []) start).2
  = String.list_byte_of_string "xy".
Proof.
  rewrite (given_up_members_leave_bytes _ [pC] pA [] start
             (String.list_byte_of_string "y") []).
  - vm_compute. reflexivity.
  - intros [|j] q Hq; cbn in Hq; [injection Hq as <-; vm_compute; reflexivity|].
    destruct j; discriminate.
  - vm_compute. reflexivity.
  - vm_compute. reflexivity.
Defined.

Lemma groupLoop_size (w : World) walked namespaces s :
  (size (groupLoop w walked namespaces s).1 ≤ size namespaces + length walked)%nat.
Proof.
  revert namespaces s. induction walked as [|p rest IH]; intros namespaces s.
  - rewrite groupLoop_nil. cbn. lia.
  - rewrite groupLoop_cons. cbn zeta. cbn [length].
    destruct (Stat w _ _) as [|statT]; [etrans; [apply IH|lia]|].
    etrans; [apply IH|].
    destruct (namespaces !! Ino statT) as [g|] eqn:Hg.
    + rewrite map_size_insert_Some by eauto. lia.
    + rewrite map_size_insert_None by exact Hg. lia.
Qed.

Lemma float32_of_len_exact (n : nat) :
  Z.of_nat n ≤ 2 ^ 24 → float32_of_len n = n.
Proof.
  intros Hn. unfold float32_of_len, float32.
  destruct (Z.ltb_spec (Z.of_nat n) (2 ^ 24)) as [Hlt|Hge]; [apply Nat2Z.id|].
  assert (Z.of_nat n = 2 ^ 24) as Heq by lia. rewrite Heq.
  change (Z.to_nat (2 ^ 24) = n). rewrite <- Heq. apply Nat2Z.id.
Qed.

(** X16. The last thing a scan does is to set the gauge, to the [float32] of
    the number of namespace groups it made: as many groups as it waited
    group-opening ticks for, and never more than the walker yielded processes.
    The value reported is that number itself when the walker yielded at most
    2^24 processes; beyond, the conversion rounds. *)
Theorem gauge_counts_groups (w : World) (walked : list Process)
    (range : gmap Z (list Process) → list (Z * list Process)) (K : Z) (s : State) :
  go_range range →
  let s' := (walkProcPid w walked range K s).2 in
  ∃ n, head (trace s') = Some (EvSetGauge (float32_of_len n))
       ∧ Z.of_nat n = group_ticks_during s s'
       ∧ (n ≤ length walked)%nat
       ∧ (Z.of_nat (length walked) ≤ 2 ^ 24 → float32_of_len n = n)
       ∧ float32 (2 ^ 24 + 1) = 2 ^ 24.
Proof.
  intros Hrange s'. subst s'. rewrite walkProcPid_eq. cbn zeta. cbn [snd].
  set (g := groupLoop w walked ∅ s).
  pose proof (groupLoop_size w walked ∅ s) as Hsize. fold g in Hsize.
  rewrite map_size_empty in Hsize.
  exists (size g.1). split; [reflexivity|]. split; [|split; [lia|split]].
  - pose proof (groupLoop_count w is_group_tick walked ∅ s eq_refl
                  (λ _, eq_refl) (λ _, eq_refl)) as Hgt.
    fold g in Hgt.
    destruct (rangeLoop_reads w K ((range g.1).*2) ∅ g.2) as [_ Hticks].
    rewrite length_fmap, (go_range_length _ _ Hrange) in Hticks.
    unfold group_ticks_during in *. cbn. lia.
  - intros Hsmall. apply float32_of_len_exact. lia.
  - reflexivity.
Qed.

Lemma gauge_counts_groups_witness :
  ∃ n, head (trace (walkProcPid host [pA; pB; pC] map_to_list 2 start).2)
       = Some (EvSetGauge (float32_of_len n))
       ∧ Z.of_nat n
         = group_ticks_during start (walkProcPid host [pA; pB; pC] map_to_list 2 start).2
       ∧ (n ≤ length [pA; pB; pC])%nat
       ∧ (Z.of_nat (length [pA; pB; pC]) ≤ 2 ^ 24 → float32_of_len n = n)
       ∧ float32 (2 ^ 24 + 1) = 2 ^ 24.
Proof.
  exact (gauge_counts_groups host [pA; pB; pC] map_to_list 2 start map_to_list_go_range).
Defined.
